(** * cadus: CADU decoding, gap tracking and HRDL reassembly

    A shallow embedding of the Go programs of the repository and the
    properties their specification states about them.

    - [Lister]     : the CADU lister / gap reporter (decodeCadu with the
                     streaming CCITT sum, [Cadu.Missing] with the 24-bit mask);
    - [Assembler]  : the UDP reassembler (the one-shot [calculateCRC], also
                     used by the traffic generator, and [Cadu.Missing] before
                     the mask was added);
    - [Generator]  : the frames that the traffic generator builds;
    - [Reassembler]: the file reassembler ([reader.Read], [copyHRDL],
                     [reassemble], [sequenceDelta]).

    Go's fixed-width unsigned integers are integers of [Z] kept in range by an
    explicit reduction ([u16], [u32], [u64]); byte slices are [list byte]. *)

From Stdlib Require Import ZArith List Bool Lia.
From Stdlib Require Import Strings.Byte.
From stdpp Require Import gmap.
From Equations Require Import Equations.
Import ListNotations.

#[local] Open Scope Z_scope.

(** ** Machine integers and byte slices *)

Abbreviation byte := Byte.byte.

Definition u16 (z : Z) : Z := z mod 2 ^ 16.
Definition u32 (z : Z) : Z := z mod 2 ^ 32.
Definition u64 (z : Z) : Z := z mod 2 ^ 64.

(** [uint16(b)], [uint32(b)] of a byte [b]. *)
Definition byte_val (b : byte) : Z := Z.of_N (Byte.to_N b).

(** [binary.BigEndian.UintNN] on exactly the bytes given. *)
Definition BigEndian (bs : list byte) : Z :=
  fold_left (fun acc b => Z.lor (Z.shiftl acc 8) (byte_val b)) bs 0.

(** [xs[lo:hi]] for [lo <= hi <= len(xs)]. *)
Definition slice (xs : list byte) (lo hi : nat) : list byte :=
  firstn (hi - lo) (skipn lo xs).

(** ** Errors shared by the programs *)

Inductive error : Type :=
| EOF
| ErrUnexpectedEOF
| ChecksumError (Want Got : Z)
| ErrSyncword
| ErrMultiple.

(** [io.ReadFull(r, buf)] with [len(buf) = n] on a source that holds the
    octets [r]: the octets obtained, the source left, and the error.  A short
    source is drained and reports [EOF] (nothing read) or [ErrUnexpectedEOF]. *)
Definition ReadFull (r : list byte) (n : nat) : list byte * list byte * option error :=
  if (n <=? length r)%nat then (firstn n r, skipn n r, None)
  else (r, [], Some (match r with [] => EOF | _ => ErrUnexpectedEOF end)).

(** ** The CADU lister and gap reporter *)

Module Lister.

Definition CCITT : Z := 0xFFFF.
Definition POLY : Z := 0x1021.

Record Header := {
  Word : Z;
  Version : Z;
  Space : Z;
  Channel : Z;
  Sequence : Z;
  Replay : bool;
  HControl : Z;
  Data : Z
}.

Record Cadu := {
  header : Header;
  Payload : list byte;
  Control : Z;
  Error : option error
}.

(** [c.Sequence] goes through the embedded header. *)
Definition seq_of (c : Cadu) : Z := Sequence (header c).

(** The recursion of [Missing] swaps receiver and argument; it is entered only
    when the pair is out of order, which the swapped pair is not. *)
Definition swap_measure (c : Cadu) (p : option Cadu) : nat :=
  match p with
  | None => 0
  | Some p => if seq_of p >? seq_of c then 1 else 0
  end.

Equations? Missing (c : Cadu) (p : option Cadu) : Z by wf (swap_measure c p) lt :=
Missing c None := 0;
Missing c (Some p) with Z_gt_dec (seq_of p) (seq_of c) := {
  | left _ => Missing p (Some c)
  | right _ =>
      let delta := Z.land (u32 (seq_of c - seq_of p)) 0xFFFFFF in
      if delta >? 1 then delta else 0 }.
Proof.
  unfold swap_measure.
  destruct (Z.gtb_spec (seq_of c) (seq_of p)), (Z.gtb_spec (seq_of p) (seq_of c)); lia.
Qed.

(** *** The streaming CCITT sum *)

Record ccittSum := { sum : Z }.

Definition Sum : ccittSum := {| sum := CCITT |}.

(** One turn of the inner [for j] loop. *)
Definition shift_sum (s : Z) : Z :=
  if Z.land s 0x8000 >? 0 then Z.lxor (u16 (Z.shiftl s 1)) POLY
  else u16 (Z.shiftl s 1).

(** [for j := 0; j < 8; j++], counted down by the turns left. *)
Fixpoint shift_loop (turns : nat) (s : Z) : Z :=
  match turns with
  | O => s
  | S k => shift_loop k (shift_sum s)
  end.

(** The body of the outer loop for the octet [b]. *)
Definition write_octet (s : Z) (b : byte) : Z :=
  shift_loop 8 (Z.lxor s (u16 (Z.shiftl (byte_val b) 8))).

Fixpoint write_loop (s : Z) (bs : list byte) : Z :=
  match bs with
  | [] => s
  | b :: bs' => write_loop (write_octet s b) bs'
  end.

(** [c.Write(bs)]: the updated sum and the count returned. *)
Definition Write (c : ccittSum) (bs : list byte) : ccittSum * Z :=
  ({| sum := write_loop (sum c) bs |}, Z.of_nat (length bs)).

Definition Sum32 (c : ccittSum) : Z := u32 (sum c).

(** Successive calls [c.Write(chunk)], one per chunk, in order. *)
Definition feed (c : ccittSum) (chunks : list (list byte)) : ccittSum :=
  fold_left (fun c bs => fst (Write c bs)) chunks c.

(** *** decodeCadu

    The decoder threads two pieces of state through its reads: the source [r]
    and the sum that the tee reader [rs] feeds. *)

Record wire := { source : list byte; tee : ccittSum }.

Definition M (A : Type) : Type := wire -> A * wire.

#[local] Instance M_ret : MRet M := fun A (a : A) w => (a, w).

#[local] Instance M_bind : MBind M :=
  fun A B (k : A -> M B) (m : M A) w => let '(a, w') := m w in k a w'.

(** [io.ReadFull(r, buf)]: straight from the source. *)
Definition read_r (n : nat) : M (list byte * option error) :=
  fun w =>
    let '(bs, r', e) := ReadFull (source w) n in
    ((bs, e), {| source := r'; tee := tee w |}).

(** [io.ReadFull(rs, buf)]: whatever comes out of the source, also when it
    falls short, is written to the sum. *)
Definition read_rs (n : nat) : M (list byte * option error) :=
  fun w =>
    let '(bs, r', e) := ReadFull (source w) n in
    ((bs, e), {| source := r'; tee := fst (Write (tee w) bs) |}).

(** [binary.Read(_, binary.BigEndian, &v)] for an unsigned [v] of [n] octets
    that holds [old]: on error [v] keeps its value. *)
Definition binary_Read (rd : nat -> M (list byte * option error)) (n : nat) (old : Z)
  : M (Z * option error) :=
  '(bs, e) ← rd n;
  mret (match e with None => BigEndian bs | Some _ => old end, e).

Definition get_Sum32 : M Z := fun w => (Sum32 (tee w), w).

Definition u8 (z : Z) : Z := z mod 2 ^ 8.

Definition caduBodyLen : nat := 1008.

(** What follows the sync word, once [Sum()] and the tee reader exist. *)
Definition decodeBody (word : Z) : M (option Cadu * option error) :=
  '(pid, _) ← binary_Read read_rs 2 0;
  let version := u8 (Z.shiftr (Z.land pid 0xC000) 14) in
  let space := u8 (Z.shiftr (Z.land pid 0x3FC0) 6) in
  let channel := u8 (Z.land pid 0x003F) in
  '(seq, _) ← binary_Read read_rs 4 0;
  let sequence := Z.shiftr seq 8 in
  let replay := Z.shiftr seq 7 =? 1 in
  '(hcontrol, _) ← binary_Read read_rs 2 0;
  '(data, _) ← binary_Read read_rs 2 0;
  let h := {| Word := word; Version := version; Space := space; Channel := channel;
              Sequence := sequence; Replay := replay; HControl := hcontrol;
              Data := data |} in
  '(payload, e) ← read_rs caduBodyLen;
  match e with
  | Some err => mret (None, Some err)
  | None =>
      '(control, _) ← binary_Read read_r 2 0;
      s ← get_Sum32;
      let err := if u16 s =? control then None
                 else Some (ChecksumError control (u16 s)) in
      mret (Some {| header := h; Payload := payload; Control := control; Error := err |},
           None)
  end.

(** [decodeCadu(r)]: the CADU, the error, and the source as it leaves it. *)
Definition decodeCadu (r : list byte) : option Cadu * option error * list byte :=
  let '(bs, r1, e) := ReadFull r 4 in
  match e with
  | Some err => (None, Some err, r1)
  | None =>
      let '(res, w) := decodeBody (BigEndian bs) {| source := r1; tee := Sum |} in
      (fst res, snd res, source w)
  end.

End Lister.

(** ** The UDP reassembler: one-shot CRC and the first [Missing] *)

Module Assembler.

Import Lister.

Definition CCITT : Z := 0xFFFF.
Definition POLY : Z := 0x1021.

(** The inner loop of [calculateCRC], by the turns left. *)
Fixpoint crc_bits (turns : nat) (crc : Z) : Z :=
  match turns with
  | O => crc
  | S k =>
      crc_bits k (if Z.land crc 0x8000 >? 0 then Z.lxor (u16 (Z.shiftl crc 1)) POLY
                  else u16 (Z.shiftl crc 1))
  end.

Fixpoint crc_octets (crc : Z) (bs : list byte) : Z :=
  match bs with
  | [] => crc
  | b :: bs' => crc_octets (crc_bits 8 (Z.lxor crc (u16 (Z.shiftl (byte_val b) 8)))) bs'
  end.

Definition calculateCRC (bs : list byte) : Z := crc_octets CCITT bs.

Equations? Missing (c : Cadu) (p : option Cadu) : Z by wf (swap_measure c p) lt :=
Missing c None := 0;
Missing c (Some p) with Z_gt_dec (seq_of p) (seq_of c) := {
  | left _ => Missing p (Some c)
  | right _ =>
      if negb (u32 (seq_of p + 1) =? seq_of c) then u32 (seq_of c - seq_of p) else 0 }.
Proof.
  unfold swap_measure.
  destruct (Z.gtb_spec (seq_of c) (seq_of p)), (Z.gtb_spec (seq_of p) (seq_of c)); lia.
Qed.

End Assembler.

(** ** The traffic generator *)

Module Generator.

Definition DefaultSpacecraft : Z := 23.
Definition DefaultChannel : Z := 7.
Definition DefaultVersion : Z := 1.
Definition DefaultSyncword : Z := 0x1acffc1d.
Definition DefaultLength : nat := 1008.
Definition DefaultReplay : Z := 0.
Definition DefaultPointer : Z := 0x3fff.
Definition DefaultControl : Z := 0xfdc3.
Definition MaxSequenceCounter : Z := 2 ^ 24.

Definition octet_of (z : Z) : byte :=
  default x00 (Byte.of_N (Z.to_N (z mod 256))).

(** [binary.Write(w, binary.BigEndian, v)] for an unsigned [v] of [n] octets. *)
Fixpoint PutBigEndian (n : nat) (v : Z) : list byte :=
  match n with
  | O => []
  | S k => PutBigEndian k (Z.shiftr v 8) ++ [octet_of v]
  end.

(** What [Builder.Read] assembles in [body] when the counter is [counter] and
    the input gives the [DefaultLength] octets [payload]. *)
Definition body (counter : Z) (payload : list byte) : list byte :=
  let pid := u16 (Z.lor (Z.lor (u16 (Z.shiftl (u16 DefaultVersion) 14))
                               (u16 (Z.shiftl (u16 DefaultSpacecraft) 6)))
                        (u16 DefaultChannel)) in
  let fragment := Z.lor (u32 (Z.shiftl (counter mod MaxSequenceCounter) 8))
                        (u32 DefaultReplay) in
  let sum := PutBigEndian 2 pid ++ PutBigEndian 4 fragment
             ++ PutBigEndian 2 DefaultControl ++ PutBigEndian 2 DefaultPointer
             ++ payload in
  PutBigEndian 4 DefaultSyncword ++ sum ++ PutBigEndian 2 (Assembler.calculateCRC sum).

End Generator.

(** ** The CRC as the specification words it

    For each octet, [crc ^= octet << 8]; then eight times: if [crc & 0x8000]
    then [crc = (crc << 1) ^ 0x1021] else [crc <<= 1]; the CRC is 16 bits wide
    and starts from [0xFFFF]. *)

Module CrcSpec.

Definition step (crc : Z) : Z :=
  let shifted := (2 * crc) mod 65536 in
  if Z.testbit crc 15 then Z.lxor shifted 0x1021 else shifted.

Definition octet (crc : Z) (o : byte) : Z :=
  Nat.iter 8 step (Z.lxor crc (byte_val o * 256)).

Definition crc16 (octets : list byte) : Z := fold_left octet octets 0xFFFF.

End CrcSpec.

(** ** The file reassembler *)

Module Reassembler.

Definition caduHeaderLen : nat := 14.
Definition caduCheckLen : nat := 2.
Definition caduPacketLen : nat := 1024.
Definition caduBodyLen : nat := caduPacketLen - caduHeaderLen - caduCheckLen.

Definition Word : list byte := [xf8; x2e; x35; x53].
Definition Stuff : list byte := [xf8; x2e; x35; xaa].

Definition defaultOffset : Z := Z.of_nat caduBodyLen + 4.

(** *** The functions of package [bytes] and [encoding/binary] in use *)

Fixpoint HasPrefix (s prefix : list byte) : bool :=
  match prefix, s with
  | [], _ => true
  | _ :: _, [] => false
  | p :: prefix', b :: s' => Byte.eqb b p && HasPrefix s' prefix'
  end.

Definition Equal (a b : list byte) : bool :=
  (length a =? length b)%nat && HasPrefix a b.

(** [bytes.Index(s, sep)]: the first position where [sep] starts, or -1. *)
Fixpoint Index (s sep : list byte) : Z :=
  if HasPrefix s sep then 0
  else match s with
       | [] => -1
       | _ :: s' => let i := Index s' sep in if i <? 0 then -1 else i + 1
       end.

(** [bytes.Replace(s, old, new, -1)] for a non-empty [old]: the occurrences
    are taken from the left and do not overlap; [skip] counts the octets of
    a replaced occurrence still to pass over. *)
Fixpoint replace_from (old new : list byte) (skip : nat) (s : list byte) : list byte :=
  match s with
  | [] => []
  | b :: s' =>
      match skip with
      | S k => replace_from old new k s'
      | O =>
          if HasPrefix s old then new ++ replace_from old new (length old - 1) s'
          else b :: replace_from old new 0 s'
      end
  end.

Definition Replace (s old new : list byte) : list byte := replace_from old new 0 s.

(** [binary.LittleEndian.UintNN] on exactly the bytes given. *)
Definition LittleEndian (bs : list byte) : Z :=
  fold_right (fun b acc => Z.lor (byte_val b) (Z.shiftl acc 8)) 0 bs.

(** [copy(bs, src)] seen from the destination of length [len_bs]: the octets
    that land in it; their number is the count [copy] returns. *)
Definition copy (len_bs : Z) (src : list byte) : list byte :=
  firstn (Z.to_nat (Z.min len_bs (Z.of_nat (length src)))) src.

(** [copy(dst, src)] seen from a destination that is read afterwards. *)
Definition overwrite (dst src : list byte) : list byte :=
  firstn (length dst) src ++ skipn (length src) dst.

(** *** The reader *)

Record reader := { inner : list byte; rest : list byte; skip : nat }.

Definition NewReader (r : list byte) (hrdfe : bool) : reader :=
  {| inner := r; rest := []; skip := if hrdfe then 8%nat else 0%nat |}.

Definition readCadu (r : reader) : (list byte + error) * reader :=
  let '(vs, inner', e) := ReadFull (inner r) (caduPacketLen + skip r) in
  let r' := {| inner := inner'; rest := rest r; skip := skip r |} in
  match e with
  | Some err => (inr err, r')
  | None =>
      (inl (slice vs (skip r + caduHeaderLen) (skip r + caduPacketLen - caduCheckLen)), r')
  end.

(** [r.copyHRDL(xs, bs)]: the octets copied into [bs] (the count returned is
    their number) and the reader, whose [rest] has been written to. *)
Definition copyHRDL (r : reader) (xs : list byte) (len_bs : Z) : list byte * reader :=
  if (length xs <? 8)%nat || negb (Equal (firstn (length Word) xs) Word) then ([], r)
  else
    let offset := Z.of_nat (length xs) - defaultOffset in
    let offset := if offset <=? 0 then Z.of_nat (length Word) else offset in
    let ix := Index (skipn (Z.to_nat offset) xs) Word in
    if ix <? 0 then ([], r)
    else
      let z := ix + offset in
      let s := LittleEndian (slice xs 4 8) + 12 in
      let s := if s >? z then z else s in
      (copy len_bs (firstn (Z.to_nat s) xs),
       {| inner := inner r; rest := rest r ++ skipn (Z.to_nat z) xs; skip := skip r |}).

(** The stuffing reversal of the second loop: the last [caduPacketLen] octets
    are replaced in place. *)
Definition unstuff (xs : list byte) : list byte :=
  let offset := Z.of_nat (length xs) - Z.of_nat caduPacketLen in
  let offset := if offset <? 0 then 0 else offset in
  let window := skipn (Z.to_nat offset) xs in
  firstn (Z.to_nat offset) xs ++ overwrite window (Replace window Stuff (firstn 3 Word)).

(** One turn of the first loop of [Read]: either [Read] returns ([inl], with
    the error), or the loop is left with the buffer cut at the sync word
    ([inr (inl _)]), or it goes round again ([inr (inr _)]). *)
Definition seek_turn (r : reader) (xs : list byte)
  : (error * reader) + ((reader * list byte) + (reader * list byte)) :=
  match readCadu r with
  | (inr err, r') => inl (err, r')
  | (inl vs, r') =>
      let xs := xs ++ vs in
      let ix := Index xs Word in
      if ix >=? 0 then inr (inl (r', Replace (skipn (Z.to_nat ix) xs) Stuff (firstn 3 Word)))
      else inr (inr (r', xs))
  end.

(** One turn of the second loop: [Read] returns ([inl]) or goes round again. *)
Definition emit_turn (r : reader) (xs : list byte) (len_bs : Z)
  : ((list byte + error) * reader) + (reader * list byte) :=
  let '(out, r1) := copyHRDL r xs len_bs in
  if (0 <? length out)%nat then inl (inl out, r1)
  else match readCadu r1 with
       | (inr err, r2) => inl (inr err, r2)
       | (inl vs, r2) => inr (r2, unstuff (xs ++ vs))
       end.

(** A value paired with the proof that it is the value of the term matched on. *)
Definition remember_eq {A : Type} (x : A) : {y : A | x = y} := exist _ x eq_refl.

Equations? emit_loop (r : reader) (xs : list byte) (len_bs : Z)
  : (list byte + error) * reader by wf (length (inner r)) lt :=
emit_loop r xs len_bs with remember_eq (emit_turn r xs len_bs) := {
  | exist _ (inl res) _ => res
  | exist _ (inr (pair r' xs')) Hturn => emit_loop r' xs' len_bs }.
Proof.
  unfold emit_turn in Hturn.
  assert (inner (snd (copyHRDL r xs len_bs)) = inner r) as Hin
    by (unfold copyHRDL; repeat case_match; reflexivity).
  destruct (copyHRDL r xs len_bs) as [out r1]; cbn [snd] in Hin.
  destruct (0 <? length out)%nat; [discriminate|].
  revert Hturn. unfold readCadu, ReadFull, caduPacketLen. rewrite Hin.
  destruct (Nat.leb_spec (1024 + skip r1) (length (inner r))); intros [= <- _]; cbn [inner].
  rewrite length_skipn. lia.
Qed.

Equations? seek_loop (r : reader) (xs : list byte) (len_bs : Z)
  : (list byte + error) * reader by wf (length (inner r)) lt :=
seek_loop r xs len_bs with remember_eq (seek_turn r xs) := {
  | exist _ (inl (pair err r')) _ => (inr err, r')
  | exist _ (inr (inl (pair r' xs'))) _ => emit_loop r' xs' len_bs
  | exist _ (inr (inr (pair r' xs'))) Hturn => seek_loop r' xs' len_bs }.
Proof.
  revert Hturn. unfold seek_turn, readCadu, ReadFull, caduPacketLen.
  destruct (Nat.leb_spec (1024 + skip r) (length (inner r))); [|discriminate].
  case_match; intros [= <- _]; cbn [inner].
  rewrite length_skipn. lia.
Qed.

(** [r.Read(bs)] with [len(bs) = len_bs]: the octets put into [bs] (with a nil
    error) or the error (with count 0), and the reader afterwards.  The panic
    of [make([]byte, r.rest.Len(), len(bs))] when more octets are retained
    than [bs] can hold is left out: [reassemble] reads into 8 MiB. *)
Definition Read (r : reader) (len_bs : Z) : (list byte + error) * reader :=
  let xs := rest r in
  let r := {| inner := inner r; rest := []; skip := skip r |} in
  let '(out, r1) := copyHRDL r xs len_bs in
  if (0 <? length out)%nat then (inl out, r1)
  else seek_loop r1 xs len_bs.

(** *** Accounting *)

(** Go's [int] on the 64-bit targets. *)
Definition int (z : Z) : Z := (z + 2 ^ 63) mod 2 ^ 64 - 2 ^ 63.

Record Coze := { Count : Z; Size : Z; Bad : Z; Bigger : Z; Smaller : Z }.

Record Counter := {
  Counter_Count : Z;
  Counter_Size : Z;
  Missing : Z;
  First : Z;
  Last : Z
}.

Definition sequenceDelta (current last : Z) : Z :=
  if current =? u32 (last + 1) then 0
  else if current >? last then u64 (u64 current - u64 last)
  else 0.

(** A [byFunc]: the key and the offset of the sequence counter, or nothing
    when an index is out of range and the program panics. *)
Definition byFunc : Type := list byte -> option (Z * nat).

Definition by_channel : byFunc := fun vs =>
  b ← vs !! 8%nat; Some (u16 (byte_val b), 12%nat).

Definition by_origin : byFunc := fun vs =>
  s ← vs !! 9%nat; o ← vs !! 47%nat;
  Some (Z.lor (u16 (Z.shiftl (u16 (byte_val s)) 8)) (u16 (byte_val o)), 27%nat).

(** [binary.LittleEndian.Uint32(b)], which panics on fewer than four octets. *)
Definition Uint32 (b : list byte) : option Z :=
  if (length b <? 4)%nat then None else Some (LittleEndian (firstn 4 b)).

(** [vs[lo:]], which panics when [lo > len(vs)]. *)
Definition from (vs : list byte) (lo : Z) : option (list byte) :=
  if (lo <? 0) || (Z.of_nat (length vs) <? lo) then None else Some (skipn (Z.to_nat lo) vs).

Definition vmu_sum (vs : list byte) : Z :=
  fold_left (fun sum b => u32 (sum + byte_val b)) (slice vs 8 (length vs - 4)) 0.

(** The body of the loop of [reassemble] after the two sync word checks, for
    the slice [vs]; nothing when it panics. *)
Definition account (by_ : byFunc) (vs : list byte)
    (status : gmap Z Coze) (reports : gmap Z Counter)
  : option (gmap Z Coze * gmap Z Counter) :=
  let n := Z.of_nat (length vs) in
  '(k, six) ← by_ vs;
  let c := default {| Count := 0; Size := 0; Bad := 0; Bigger := 0; Smaller := 0 |}
                   (status !! k) in
  let c := {| Count := int (Count c + 1); Size := int (Size c + n); Bad := Bad c;
              Bigger := Bigger c; Smaller := Smaller c |} in
  tail ← from vs (n - 4);
  want ← Uint32 tail;
  let c := if negb (vmu_sum vs =? want)
           then {| Count := Count c; Size := Size c; Bad := int (Bad c + 1);
                   Bigger := Bigger c; Smaller := Smaller c |}
           else c in
  z ← from vs 4 ≫= Uint32;
  let c := if z >? n - 12
           then {| Count := Count c; Size := Size c; Bad := Bad c;
                   Bigger := Bigger c; Smaller := int (Smaller c + 1) |}
           else if z <? n - 12
           then {| Count := Count c; Size := Size c; Bad := Bad c;
                   Bigger := int (Bigger c + 1); Smaller := Smaller c |}
           else c in
  let status := <[k := c]> status in
  seq ← from vs (Z.of_nat six) ≫= Uint32;
  let v := match reports !! k with
           | None => {| Counter_Count := 0; Counter_Size := 0; Missing := 0;
                        First := seq; Last := seq |}
           | Some v => {| Counter_Count := Counter_Count v; Counter_Size := Counter_Size v;
                          Missing := u64 (Missing v + sequenceDelta seq (Last v));
                          First := First v; Last := seq |}
           end in
  let v := {| Counter_Count := u64 (Counter_Count v + 1); Counter_Size := Counter_Size v;
              Missing := Missing v; First := First v; Last := seq |} in
  Some (status, <[k := v]> reports).

(** [io.Reader]: [Read(bs)] with [len(bs) = len_bs] gives the octets put into
    [bs], the error, and the reader afterwards. *)
Class Reader (R : Type) := io_Read : R -> Z -> list byte * option error * R.

#[global] Instance reader_Reader : Reader reader := fun r len_bs =>
  match Read r len_bs with
  | (inl out, r') => (out, None, r')
  | (inr err, r') => ([], Some err, r')
  end.

Inductive result : Type :=
| Returned (status : gmap Z Coze) (reports : gmap Z Counter)
| Failed (err : error)
| Panicked
| Running.

(** [len(xs)] for the buffer that [reassemble] reads into. *)
Definition bufLen : Z := 8 * 2 ^ 20.

(** The loop of [reassemble], for at most [turns] turns ([Running] when they
    are used up).  The buffer [xs] is kept as the part of it written so far;
    zeros follow.  The hook only prints. *)
Fixpoint reassemble_loop {R} `{Reader R} (turns : nat) (by_ : byFunc) (rs : R)
    (xs : list byte) (status : gmap Z Coze) (reports : gmap Z Counter) : result :=
  match turns with
  | O => Running
  | S turns' =>
      let '(out, err, rs') := io_Read rs bufLen in
      match err with
      | Some EOF => Returned status reports
      | Some e => Failed e
      | None =>
          if (length out =? 0)%nat then Returned status reports
          else
            let xs := overwrite (xs ++ repeat x00 (length out - length xs)) out in
            let vs := out in
            if negb (Equal (firstn (length Word) (xs ++ repeat x00 (length Word))) Word)
            then Failed ErrSyncword
            else if Index vs Word >=? Z.of_nat (length Word) then Failed ErrMultiple
            else match account by_ vs status reports with
                 | None => Panicked
                 | Some (status', reports') =>
                     reassemble_loop turns' by_ rs' xs status' reports'
                 end
      end
  end.

(** [reassemble(r, hrdfe, by, hook)] on the source that holds the octets [r];
    every turn that goes on takes octets from the source, so that their number
    bounds the turns. *)
Definition reassemble (r : list byte) (hrdfe : bool) (by_ : byFunc) : result :=
  reassemble_loop (S (length r)) by_ (NewReader r hrdfe) [] ∅ ∅.

End Reassembler.

(** ** The UDP reassembler, continued: decoder, HRDL headers, placement *)

Module UdpReassembler.

Definition HRDLMagic : list byte := [xf8; x2e; x35; x53].

Definition caduBodyLen : nat := 1008.

Inductive hrdl_error : Type :=
| InvalidSync (sync : Z)
| LengthError (Want Got : Z).

(** *** vmuSum *)

Record vmuSum := { sum : Z }.

Definition Sum : vmuSum := {| sum := 0 |}.

Fixpoint add_octets (s : Z) (bs : list byte) : Z :=
  match bs with
  | [] => s
  | b :: bs' => add_octets (u32 (s + u32 (byte_val b))) bs'
  end.

(** [v.Write(bs)]: the updated sum and the count returned. *)
Definition Write (v : vmuSum) (bs : list byte) : vmuSum * Z :=
  ({| sum := add_octets (sum v) bs |}, Z.of_nat (length bs)).

Definition Sum32 (v : vmuSum) : Z := sum v.

(** *** decodeCadu, with the octets kept in a buffer for [calculateCRC]

    [r] is replaced by the tee reader, so that every read after the sync word,
    the one of the CRC included, lands in the buffer [sum]. *)

Record tape := { source : list byte; seen : list byte }.

Definition OnTape (A : Type) : Type := tape -> A * tape.

#[local] Instance OnTape_ret : MRet OnTape := fun A (a : A) t => (a, t).

#[local] Instance OnTape_bind : MBind OnTape :=
  fun A B (k : A -> OnTape B) (m : OnTape A) t => let '(a, t') := m t in k a t'.

Definition read_tee (n : nat) : OnTape (list byte * option error) :=
  fun t =>
    let '(bs, r', e) := ReadFull (source t) n in
    ((bs, e), {| source := r'; seen := seen t ++ bs |}).

Definition binary_Read (n : nat) (old : Z) : OnTape (Z * option error) :=
  '(bs, e) ← read_tee n;
  mret (match e with None => BigEndian bs | Some _ => old end, e).

Definition get_CRC : OnTape Z := fun t => (Assembler.calculateCRC (seen t), t).

Definition decodeBody (word : Z) : OnTape (option Lister.Cadu * option error) :=
  '(pid, _) ← binary_Read 2 0;
  let version := Lister.u8 (Z.shiftr (Z.land pid 0xC000) 14) in
  let space := Lister.u8 (Z.shiftr (Z.land pid 0x3FC0) 6) in
  let channel := Lister.u8 (Z.land pid 0x003F) in
  '(seq, _) ← binary_Read 4 0;
  let sequence := Z.shiftr seq 8 in
  let replay := Z.shiftr seq 7 =? 1 in
  '(hcontrol, _) ← binary_Read 2 0;
  '(data, _) ← binary_Read 2 0;
  let h := {| Lister.Word := word; Lister.Version := version; Lister.Space := space;
              Lister.Channel := channel; Lister.Sequence := sequence;
              Lister.Replay := replay; Lister.HControl := hcontrol;
              Lister.Data := data |} in
  '(payload, e) ← read_tee caduBodyLen;
  match e with
  | Some err => mret (None, Some err)
  | None =>
      s ← get_CRC;
      '(control, _) ← binary_Read 2 0;
      let err := if negb (s =? control) then Some (ChecksumError control s) else None in
      mret (Some {| Lister.header := h; Lister.Payload := payload;
                    Lister.Control := control; Lister.Error := err |}, None)
  end.

Definition decodeCadu (r : list byte) : option Lister.Cadu * option error * list byte :=
  let '(bs, r1, e) := ReadFull r 4 in
  match e with
  | Some err => (None, Some err, r1)
  | None =>
      let '(res, t) := decodeBody (BigEndian bs) {| source := r1; seen := [] |} in
      (fst res, snd res, source t)
  end.

(** *** debugHRDLHeaders

    The reader [r] over the slice, and the sum that the tee reader [rs]
    feeds. *)

Record scan := { input : list byte; digest : vmuSum }.

Definition OnScan (A : Type) : Type := scan -> A * scan.

#[local] Instance OnScan_ret : MRet OnScan := fun A (a : A) s => (a, s).

#[local] Instance OnScan_bind : MBind OnScan :=
  fun A B (k : A -> OnScan B) (m : OnScan A) s => let '(a, s') := m s in k a s'.

Definition read_r (n : nat) : OnScan (list byte * option error) :=
  fun s =>
    let '(bs, r', e) := ReadFull (input s) n in
    ((bs, e), {| input := r'; digest := digest s |}).

Definition read_rs (n : nat) : OnScan (list byte * option error) :=
  fun s =>
    let '(bs, r', e) := ReadFull (input s) n in
    ((bs, e), {| input := r'; digest := fst (Write (digest s) bs) |}).

(** [binary.Read(_, order, &v)] for an unsigned [v] of [n] octets that holds
    [old]; [order] is [BigEndian] or [LittleEndian]. *)
Definition binary_Read_as (order : list byte -> Z)
    (rd : nat -> OnScan (list byte * option error)) (n : nat) (old : Z) : OnScan Z :=
  '(bs, e) ← rd n;
  mret (match e with None => order bs | Some _ => old end).

(** [io.CopyN(ioutil.Discard, rs, n)]: the count copied, and [EOF] when the
    input gives out before [n]. *)
Definition CopyN (n : Z) : OnScan (Z * option error) :=
  fun s =>
    let bs := firstn (Z.to_nat (Z.min n (Z.of_nat (length (input s))))) (input s) in
    ((Z.of_nat (length bs),
      if Z.of_nat (length bs) <? n then Some EOF else None),
     {| input := skipn (length bs) (input s); digest := fst (Write (digest s) bs) |}).

Definition get_Sum32 : OnScan Z := fun s => (Sum32 (digest s), s).

(** [r.Len()] and, when it is positive, [io.ReadFull(r, vs)]. *)
Definition read_rest : OnScan (list byte) :=
  fun s => (input s, {| input := []; digest := digest s |}).

(** The row that is logged, but for the time, which goes through floating
    point and the formatting of package [time]. *)
Record row := {
  row_len : Z;
  row_sync : Z;
  row_length : Z;
  row_channel : Z;
  row_origin : Z;
  row_counter : Z;
  row_valid : bool
}.

Definition scanHeaders (len_bs : Z) : OnScan (option row * list byte * option hrdl_error) :=
  sync ← binary_Read_as BigEndian read_r 4 0;
  if negb (sync =? BigEndian HRDLMagic) then mret (None, [], Some (InvalidSync sync))
  else
    length ← binary_Read_as Reassembler.LittleEndian read_r 4 0;
    channel ← binary_Read_as Reassembler.LittleEndian read_rs 1 0;
    origin ← binary_Read_as Reassembler.LittleEndian read_rs 1 0;
    spare ← binary_Read_as Reassembler.LittleEndian read_rs 2 0;
    counter ← binary_Read_as Reassembler.LittleEndian read_rs 4 0;
    coarse ← binary_Read_as Reassembler.LittleEndian read_rs 4 0;
    fine ← binary_Read_as Reassembler.LittleEndian read_rs 2 0;
    spare ← binary_Read_as Reassembler.LittleEndian read_rs 2 spare;
    '(n, err) ← CopyN (u32 (length - 16));
    match err with
    | Some _ => mret (None, [], Some (LengthError length n))
    | None =>
        dig ← binary_Read_as Reassembler.LittleEndian read_r 4 0;
        s ← get_Sum32;
        vs ← read_rest;
        mret (Some {| row_len := len_bs; row_sync := sync; row_length := length;
                      row_channel := channel; row_origin := origin;
                      row_counter := counter; row_valid := s =? dig |},
              vs, None)
    end.

(** [debugHRDLHeaders(bs)]: the row logged, the octets returned and the error. *)
Definition debugHRDLHeaders (bs : list byte) : option row * list byte * option hrdl_error :=
  fst (scanHeaders (Z.of_nat (length bs)) {| input := bs; digest := Sum |}).

(** *** reassemble: payloads placed by sequence, slices cut at sync words *)

Record state := { prev : option Lister.Cadu; pos : Z; bs : list byte }.

(** The two switches: where the payload of [c] goes.  The new position and
    buffer, or nothing when [make] is given a negative length and panics. *)
Definition place (st : state) (c : Lister.Cadu) : option (Z * list byte) :=
  let back := pos st in
  let delta := Assembler.Missing c (prev st) in
  let pos1 :=
    if delta >? 0 then pos st + delta * Z.of_nat caduBodyLen
    else if delta <? 0 then pos st + delta * Z.of_nat caduBodyLen
    else pos st + Z.of_nat caduBodyLen in
  let p := pos1 - Z.of_nat caduBodyLen in
  let len := Z.of_nat (length (bs st)) in
  if p =? len then Some (pos1, bs st ++ Lister.Payload c)
  else if p >? len then
    Some (pos1, bs st ++ repeat x00 (Z.to_nat (p - len)) ++ Lister.Payload c)
  else if p >=? 0 then
    Some (pos1, firstn (Z.to_nat p) (bs st)
                ++ Reassembler.overwrite (skipn (Z.to_nat p) (bs st)) (Lister.Payload c))
  else
    let zs := - pos1 - Z.of_nat (length (Lister.Payload c)) in
    if zs <? 0 then None
    else Some (back, Lister.Payload c ++ repeat x00 (Z.to_nat zs) ++ bs st).

(** What follows the switches: the state at the end of the turn and the slice
    sent, if any.  On [continue], [prev] stays what it was. *)
Definition cut (st : state) (c : Lister.Cadu) (pos1 : Z) (bs1 : list byte)
  : state * list (list byte) :=
  let offset := Z.of_nat (length bs1) - Z.of_nat (length (Lister.Payload c))
                - Z.of_nat (length HRDLMagic) in
  if offset <? 0 then ({| prev := prev st; pos := pos1; bs := bs1 |}, [])
  else
    let ix := Reassembler.Index (skipn (Z.to_nat offset) bs1) HRDLMagic in
    if (0 <? length bs1)%nat && (ix >=? 0) then
      ({| prev := Some c;
          pos := Z.of_nat (length bs1) - (offset + ix);
          bs := skipn (Z.to_nat (offset + ix)) bs1 |},
       if Reassembler.HasPrefix bs1 HRDLMagic then [firstn (Z.to_nat (offset + ix)) bs1]
       else [])
    else ({| prev := Some c; pos := pos1; bs := bs1 |}, []).

(** One turn of the loop over the queue. *)
Definition turn (st : state) (c : Lister.Cadu) : option (state * list (list byte)) :=
  '(pos1, bs1) ← place st c; Some (cut st c pos1 bs1).

(** The turns for the CADUs of the queue, in order: the slices sent, and the
    state at the end, or nothing when the goroutine has panicked. *)
Fixpoint turns (st : state) (queue : list Lister.Cadu) : list (list byte) * option state :=
  match queue with
  | [] => ([], Some st)
  | c :: queue' =>
      match turn st c with
      | None => ([], None)
      | Some (st', sent) =>
          let '(later, final) := turns st' queue' in (sent ++ later, final)
      end
  end.

Definition reassemble (queue : list Lister.Cadu) : list (list byte) * option state :=
  turns {| prev := None; pos := 0; bs := [] |} queue.

End UdpReassembler.

(** ** Reference: the layout that the UDP reassembler builds

    The payloads of a queue in order, each after 1008 zero octets for every
    frame that [Missing] counts between its CADU and the one before, less
    one; the first CADU is not taken as the one before the second. *)

Module LayoutSpec.

Fixpoint layout_from (prev : option Lister.Cadu) (queue : list Lister.Cadu) : list byte :=
  match queue with
  | [] => []
  | c :: queue' =>
      repeat x00 (1008 * Z.to_nat (Z.max 1 (Assembler.Missing c prev) - 1))
      ++ Lister.Payload c ++ layout_from (Some c) queue'
  end.

Definition layout (queue : list Lister.Cadu) : list byte :=
  match queue with
  | [] => []
  | c :: queue' => Lister.Payload c ++ layout_from None queue'
  end.

End LayoutSpec.

(** ** The traffic generator, continued: Builder.Read *)

Module Builder.

Inductive io_error : Type := EOF | ErrShortBuffer | ErrShortWrite.

Definition CaduLen : Z := 14 + 2 + Z.of_nat Generator.DefaultLength.

Record Builder := { inner : list byte; limit : Z; counter : Z }.

(** [Build(r, c, s)]; the pause [s] between frames is left out. *)
Definition Build (r : list byte) (c : Z) : Builder :=
  {| inner := r; limit := u32 c; counter := 0 |}.

(** [io.CopyN(w, b.inner, n)] on an input that holds [r]: what is copied, the
    input left, and [EOF] when fewer than [n] octets were there. *)
Definition CopyN (r : list byte) (n : nat) : list byte * list byte * option io_error :=
  (firstn n r, skipn n r, if (length (firstn n r) <? n)%nat then Some EOF else None).

(** [b.Read(bs)] with [len(bs) = len_bs]: the count returned, the octets put
    into [bs], the error, and the builder afterwards. *)
Definition Read (b : Builder) (len_bs : Z) : Z * list byte * option io_error * Builder :=
  if (limit b >? 0) && (counter b >=? limit b) then (0, [], Some EOF, b)
  else if len_bs <? CaduLen then (0, [], Some ErrShortBuffer, b)
  else
    let '(payload, inner', err) := CopyN (inner b) Generator.DefaultLength in
    let n := Z.of_nat (length payload) in
    match err with
    | Some e => (n, [], Some e, {| inner := inner'; limit := limit b; counter := counter b |})
    | None =>
        if n <? Z.of_nat Generator.DefaultLength
        then (n, [], Some ErrShortWrite,
              {| inner := inner'; limit := limit b; counter := counter b |})
        else
          let out := Reassembler.copy len_bs (Generator.body (counter b) payload) in
          (Z.of_nat (length out), out, None,
           {| inner := inner'; limit := limit b; counter := u32 (counter b + 1) |})
    end.

(** [io.Copy(c, b)] in [main].  Neither side has [WriteTo] or [ReadFrom], so
    that [io.Copy] reads into one buffer of [copyBufLen] octets, which it
    allocates once, and after each [Read] that returns a positive count [n]
    writes the first [n] octets of the buffer, whether [Read] has failed or
    not; it ends at the first error and does not report [EOF].  The writes
    are taken to succeed.  [buf] is the buffer as the last [Read] left it. *)
Definition copyBufLen : nat := 32 * 1024.

Fixpoint Copy_loop (turns : nat) (b : Builder) (buf : list byte)
  : option (list (list byte) * option io_error) :=
  match turns with
  | O => None
  | S turns' =>
      let '(n, out, err, b') := Read b (Z.of_nat (length buf)) in
      let buf' := Reassembler.overwrite buf out in
      let written := if 0 <? n then [firstn (Z.to_nat n) buf'] else [] in
      match err with
      | Some EOF => Some (written, None)
      | Some e => Some (written, Some e)
      | None =>
          match Copy_loop turns' b' buf' with
          | Some (later, e) => Some (written ++ later, e)
          | None => None
          end
      end
  end.

(** The slices written and the error of [io.Copy]; every [Read] that goes on
    takes octets from the input, so that their number bounds the turns. *)
Definition Copy (b : Builder) : option (list (list byte) * option io_error) :=
  Copy_loop (S (length (inner b))) b (repeat x00 copyBufLen).

End Builder.

(** ** The CADU lister, continued: the queue and its two listings *)

Module Listing.

Import Lister.

(** The loop of [decodeFromFile] over the input [r]: with [hrdfe], two words
    of four octets are read before each CADU, whether they are there or not;
    the loop ends when [decodeCadu] fails.  The reception times are left out.
    [None] when the turns are used up. *)
Fixpoint decode_loop (turns : nat) (hrdfe : bool) (r : list byte) : option (list Cadu) :=
  match turns with
  | O => None
  | S turns' =>
      let r :=
        if hrdfe
        then let '(_, r1, _) := ReadFull r 4 in let '(_, r2, _) := ReadFull r1 4 in r2
        else r in
      match decodeCadu r with
      | (Some c, None, r') =>
          match decode_loop turns' hrdfe r' with
          | Some queue => Some (c :: queue)
          | None => None
          end
      | _ => Some []
      end
  end.

(** Every CADU takes octets from the input, so that their number bounds the
    turns. *)
Definition decodeFromFile (r : list byte) (hrdfe : bool) : option (list Cadu) :=
  decode_loop (S (length r)) hrdfe r.

(** [printCadus]: the three counters of the last line. *)
Record tally := { count : Z; missing : Z; corrupted : Z }.

Fixpoint printCadus_loop (prev : option Cadu) (t : tally) (queue : list Cadu) : tally :=
  match queue with
  | [] => t
  | c :: queue' =>
      let delta := Missing c prev in
      let corrupted' := match Error c with
                        | Some _ => Reassembler.int (corrupted t + 1)
                        | None => corrupted t
                        end in
      printCadus_loop (Some c)
        {| count := Reassembler.int (count t + 1);
           missing := Reassembler.int (missing t + delta);
           corrupted := corrupted' |} queue'
  end.

Definition printCadus (queue : list Cadu) : tally :=
  printCadus_loop None {| count := 0; missing := 0; corrupted := 0 |} queue.

(** [printGaps] on a queue that is closed before a signal comes: the lines
    logged, each with the two sequences and the count between them, and the
    two counters of the last line; nothing when [prev] is used while nil. *)
Record gaps_report := { lines : list (Z * Z * Z); gaps : Z; seen : Z }.

Fixpoint printGaps_loop (prev : option Cadu) (g : gaps_report) (queue : list Cadu)
  : option gaps_report :=
  match queue with
  | [] => Some g
  | c :: queue' =>
      let delta := Missing c prev in
      let seen' := Reassembler.int (seen g + 1) in
      if negb (delta =? 0) then
        match prev with
        | None => None
        | Some p =>
            printGaps_loop (Some c)
              {| lines := lines g ++ [(seq_of p, seq_of c, delta)];
                 gaps := u32 (gaps g + delta); seen := seen' |} queue'
        end
      else printGaps_loop (Some c) {| lines := lines g; gaps := gaps g; seen := seen' |} queue'
  end.

Definition printGaps (queue : list Cadu) : option gaps_report :=
  printGaps_loop None {| lines := []; gaps := 0; seen := 0 |} queue.

End Listing.

(** ** Test vectors *)

Module Samples.

Definition pad (n : nat) (bs : list byte) : list byte := bs ++ repeat x00 (n - length bs).

(** A frame of the generator: counter 0, payload of zeros, CRC in place. *)
Definition clean_frame : list byte := Generator.body 0 (repeat x00 1008).

(** A frame whose sequence_and_replay word is 0x00000180: sequence 1, bit 7 set. *)
Definition replayed_frame : list byte :=
  [x1a; xcf; xfc; x1d] ++ [x45; xc7] ++ [x00; x00; x01; x80] ++ repeat x00 1014.

(** A first CADU whose payload opens with two sync words in a row. *)
Definition twin_sync_stream : list byte :=
  Generator.body 0 (pad 1008 (Reassembler.Word ++ Reassembler.Word)).

(** A buffer that opens with a packet of declared size 4 (16 octets on the
    wire), followed by four stray octets and then the next sync word. *)
Definition short_packet_buffer : list byte :=
  Reassembler.Word ++ [x04; x00; x00; x00]
  ++ [x05; x61; x00; x00; x07; x00; x00; x00]
  ++ [xde; xad; xbe; xef]
  ++ Reassembler.Word ++ [x00; x00; x00; x00].

(** Three CADUs: a packet starts in the first, goes on through the second,
    whose payload is [plain_body] as the downlink stuffs it, and ends where
    the third opens with a sync word. *)
Definition first_body : list byte := pad 1008 (Reassembler.Word ++ [xff; xff; x00; x00]).
Definition plain_body : list byte := [xf8; x2e; x35] ++ repeat x11 1003 ++ [x99].
Definition stuffed_body : list byte := Reassembler.Stuff ++ repeat x11 1003 ++ [x99].
Definition last_body : list byte := pad 1008 (Reassembler.Word ++ [x01; x00; x00; x00]).

Definition stuffed_stream : list byte :=
  Generator.body 0 first_body ++ Generator.body 1 stuffed_body ++ Generator.body 2 last_body.

(** Two CADUs: the second packet of the first payload carries F8 2E 35 AA AA
    53, which the first reversal turns into F8 2E 35 AA 53 and the next one,
    on the retained octets, into a sync word. *)
Definition twice_stuffed_stream : list byte :=
  Generator.body 0
    (pad 1008 (Reassembler.Word ++ [xff; xff; x00; x00] ++ repeat x00 492
               ++ Reassembler.Word ++ [xff; xff; x00; x00]
               ++ [xf8; x2e; x35; xaa; xaa; x53]))
  ++ Generator.body 1 (pad 1008 (repeat x00 100 ++ Reassembler.Word)).

(** A payload that ends with the stuffed sequence. *)
Definition tail_stuffed_body : list byte := repeat x11 1004 ++ Reassembler.Stuff.

(** Two CADUs: as in [twice_stuffed_stream], but the second packet of the
    first payload declares a size of 0 and carries F8 2E 35 AA AA 53 at its
    octet 20, where the two reversals leave a sync word. *)
Definition passed_over_stream : list byte :=
  Generator.body 0
    (pad 1008 (Reassembler.Word ++ [xff; xff; x00; x00] ++ repeat x00 492
               ++ Reassembler.Word ++ [x00; x00; x00; x00] ++ repeat x00 12
               ++ [xf8; x2e; x35; xaa; xaa; x53]))
  ++ Generator.body 1 (pad 1008 (repeat x00 100 ++ Reassembler.Word)).

End Samples.

(** * Properties *)

(** ** Arithmetic on machine integers *)

Lemma byte_val_range b : 0 <= byte_val b < 256.
Proof. unfold byte_val. pose proof (Byte.to_N_bounded b). lia. Qed.

Lemma lxor_range a b n :
  0 <= n -> 0 <= a < 2 ^ n -> 0 <= b < 2 ^ n -> 0 <= Z.lxor a b < 2 ^ n.
Proof.
  intros Hn Ha Hb. split; [apply Z.lxor_nonneg; lia|].
  destruct (Z.eq_dec (Z.lxor a b) 0) as [->|Hne]; [lia|].
  assert (0 < Z.lxor a b) by (pose proof (proj2 (Z.lxor_nonneg a b)); lia).
  assert (0 < n).
  { destruct (Z.eq_dec n 0) as [->|]; [|lia].
    assert (a = 0) as -> by lia. assert (b = 0) as -> by lia. now cbn in Hne. }
  apply Z.log2_lt_pow2; [assumption|].
  eapply Z.le_lt_trans; [apply Z.log2_lxor; lia|].
  apply Z.max_lub_lt.
  - destruct (Z.eq_dec a 0) as [->|]; [cbn; lia|apply Z.log2_lt_pow2; lia].
  - destruct (Z.eq_dec b 0) as [->|]; [cbn; lia|apply Z.log2_lt_pow2; lia].
Qed.

Lemma land_bit15 s : Z.land s 0x8000 = if Z.testbit s 15 then 0x8000 else 0.
Proof.
  apply Z.bits_inj'. intros n Hn.
  rewrite Z.land_spec. change 0x8000 with (2 ^ 15).
  destruct (Z.eq_dec n 15) as [->|Hne].
  - rewrite Z.pow2_bits_true by lia. rewrite andb_true_r.
    destruct (Z.testbit s 15); [now rewrite Z.pow2_bits_true by lia|now rewrite Z.bits_0].
  - rewrite Z.pow2_bits_false by lia. rewrite andb_false_r.
    destruct (Z.testbit s 15); [now rewrite Z.pow2_bits_false by lia|now rewrite Z.bits_0].
Qed.

(** ** The CCITT sum *)

Section Crc.

Import Lister.

Lemma shift_sum_step s : shift_sum s = CrcSpec.step s.
Proof.
  unfold shift_sum, CrcSpec.step, u16, POLY.
  rewrite land_bit15, Z.shiftl_mul_pow2 by lia.
  replace (s * 2 ^ 1) with (2 * s) by lia.
  destruct (Z.testbit s 15); reflexivity.
Qed.

Lemma shift_loop_iter n s : shift_loop n s = Nat.iter n CrcSpec.step s.
Proof.
  revert s. induction n as [|n IH]; intros s; [reflexivity|].
  cbn [shift_loop]. now rewrite IH, shift_sum_step, Nat.iter_succ_r.
Qed.

Lemma octet_shifted b : u16 (Z.shiftl (byte_val b) 8) = byte_val b * 256.
Proof.
  unfold u16. rewrite Z.shiftl_mul_pow2 by lia.
  pose proof (byte_val_range b). apply Z.mod_small. lia.
Qed.

Lemma write_octet_spec s b : write_octet s b = CrcSpec.octet s b.
Proof. unfold write_octet, CrcSpec.octet. now rewrite octet_shifted, shift_loop_iter. Qed.

Lemma write_loop_spec s bs : write_loop s bs = fold_left CrcSpec.octet bs s.
Proof.
  revert s. induction bs as [|b bs IH]; intros s; [reflexivity|].
  cbn [write_loop fold_left]. now rewrite IH, write_octet_spec.
Qed.

Lemma write_loop_app s bs cs :
  write_loop s (bs ++ cs) = write_loop (write_loop s bs) cs.
Proof. rewrite !write_loop_spec. apply fold_left_app. Qed.

Lemma crc_bits_iter n crc : Assembler.crc_bits n crc = Nat.iter n CrcSpec.step crc.
Proof.
  revert crc. induction n as [|n IH]; intros crc; [reflexivity|].
  cbn [Assembler.crc_bits]. rewrite IH.
  change (if Z.land crc 0x8000 >? 0 then Z.lxor (u16 (Z.shiftl crc 1)) Assembler.POLY
          else u16 (Z.shiftl crc 1)) with (shift_sum crc).
  now rewrite shift_sum_step, Nat.iter_succ_r.
Qed.

Lemma crc_octets_spec crc bs : Assembler.crc_octets crc bs = fold_left CrcSpec.octet bs crc.
Proof.
  revert crc. induction bs as [|b bs IH]; intros crc; [reflexivity|].
  cbn [Assembler.crc_octets fold_left]. rewrite IH, crc_bits_iter, octet_shifted. reflexivity.
Qed.

Lemma step_range s : 0 <= CrcSpec.step s < 2 ^ 16.
Proof.
  unfold CrcSpec.step.
  assert (0 <= (2 * s) mod 65536 < 2 ^ 16) by (apply Z.mod_pos_bound; lia).
  destruct (Z.testbit s 15); [|assumption].
  apply lxor_range; [lia|assumption|lia].
Qed.

Lemma octet_range s o : 0 <= CrcSpec.octet s o < 2 ^ 16.
Proof. unfold CrcSpec.octet. cbn [Nat.iter]. apply step_range. Qed.

Lemma write_loop_range s bs : 0 <= s < 2 ^ 16 -> 0 <= write_loop s bs < 2 ^ 16.
Proof.
  revert s. induction bs as [|b bs IH]; intros s Hs; [assumption|].
  cbn [write_loop]. apply IH. rewrite write_octet_spec. apply octet_range.
Qed.

Lemma feed_concat c chunks : sum (feed c chunks) = write_loop (sum c) (concat chunks).
Proof.
  revert c. induction chunks as [|bs chunks IH]; intros c; [reflexivity|].
  cbn [feed fold_left concat]. fold (feed (fst (Write c bs)) chunks).
  rewrite IH, write_loop_app. reflexivity.
Qed.

(** C7. However a byte sequence is cut into chunks, writing the chunks in
    order to a fresh streaming sum (which starts from 0xFFFF) leaves the sum
    that the one-shot [calculateCRC] computes on the whole sequence, and both
    are the bit-serial recurrence of the specification. *)
Theorem streaming_crc_is_one_shot (chunks : list (list byte)) :
  sum (feed Sum chunks) = Assembler.calculateCRC (concat chunks) /\
  Sum32 (feed Sum chunks) = Assembler.calculateCRC (concat chunks) /\
  Assembler.calculateCRC (concat chunks) = CrcSpec.crc16 (concat chunks).
Proof.
  assert (sum (feed Sum chunks) = Assembler.calculateCRC (concat chunks)) as Heq.
  { rewrite feed_concat. unfold Assembler.calculateCRC.
    now rewrite write_loop_spec, crc_octets_spec. }
  split; [exact Heq|]. split.
  - unfold Sum32, u32. rewrite <- Heq, feed_concat.
    assert (0 <= sum Sum < 2 ^ 16) as Hs by (unfold Sum, CCITT; cbn [sum]; lia).
    pose proof (write_loop_range _ (concat chunks) Hs) as Hr.
    apply Z.mod_small. lia.
  - unfold Assembler.calculateCRC, CrcSpec.crc16. now rewrite crc_octets_spec.
Qed.

End Crc.

(** ** The gap tracker *)

Section Gaps.

Import Lister.

Lemma Missing_ordered c p :
  ~ seq_of p > seq_of c ->
  Missing c (Some p) =
    let delta := Z.land (u32 (seq_of c - seq_of p)) 0xFFFFFF in
    if delta >? 1 then delta else 0.
Proof.
  intros Hle. simp Missing.
  destruct (Z_gt_dec (seq_of p) (seq_of c)); [contradiction|]. now simp Missing.
Qed.

Lemma Missing_swapped c p :
  seq_of p > seq_of c -> Missing c (Some p) = Missing p (Some c).
Proof.
  intros Hgt. simp Missing.
  destruct (Z_gt_dec (seq_of p) (seq_of c)); [|contradiction]. now simp Missing.
Qed.

Lemma Missing_pair c p :
  Missing c (Some p) =
    let '(previous, current) := if seq_of p >? seq_of c then (c, p) else (p, c) in
    let delta := Z.land (u32 (seq_of current - seq_of previous)) 0xFFFFFF in
    if delta >? 1 then delta else 0.
Proof.
  destruct (Z.gtb_spec (seq_of p) (seq_of c)) as [Hgt|Hle].
  - rewrite Missing_swapped by lia. apply Missing_ordered. lia.
  - apply Missing_ordered. lia.
Qed.

(** C2. [Missing] is 0 without a previous CADU; otherwise the pair is put in
    ascending order of sequence (the roles are swapped when the previous
    sequence is the greater), delta is the 32-bit difference of the greater and
    the lesser masked with 0xFFFFFF, and the result is delta when delta > 1 and
    0 when not. *)
Theorem Missing_orders_then_masks (c : Cadu) (p : option Cadu) :
  Missing c p =
    match p with
    | None => 0
    | Some p =>
        let '(previous, current) := if seq_of p >? seq_of c then (c, p) else (p, c) in
        let delta := Z.land (u32 (seq_of current - seq_of previous)) 0xFFFFFF in
        if delta >? 1 then delta else 0
    end.
Proof. destruct p as [p|]; [apply Missing_pair|now simp Missing]. Qed.

Lemma mask24_small d : 0 <= d < 2 ^ 24 -> Z.land (u32 d) 0xFFFFFF = d.
Proof.
  intros Hd. unfold u32. rewrite (Z.mod_small d) by lia.
  change 0xFFFFFF with (Z.ones 24). rewrite Z.land_ones by lia.
  apply Z.mod_small. lia.
Qed.

(** On 24-bit sequences the result is the absolute difference of the two
    sequences when that exceeds 1: the swap leaves nothing for the mask to do. *)
Lemma Missing_distance c p :
  0 <= seq_of c < 2 ^ 24 -> 0 <= seq_of p < 2 ^ 24 ->
  Missing c (Some p) =
    if Z.abs (seq_of c - seq_of p) >? 1 then Z.abs (seq_of c - seq_of p) else 0.
Proof.
  intros Hc Hp. rewrite Missing_pair.
  destruct (Z.gtb_spec (seq_of p) (seq_of c)); cbv zeta;
    rewrite mask24_small by lia;
    [replace (Z.abs (seq_of c - seq_of p)) with (seq_of p - seq_of c) by lia
    |replace (Z.abs (seq_of c - seq_of p)) with (seq_of c - seq_of p) by lia];
    reflexivity.
Qed.

(** Without a wrap between the two sequences the count is their difference. *)
Lemma Missing_without_wrap c p k :
  0 <= seq_of p -> 2 <= k -> seq_of c = seq_of p + k -> seq_of c < 2 ^ 24 ->
  Missing c (Some p) = k.
Proof.
  intros Hp Hk Hc Hlt. rewrite Missing_distance by lia.
  replace (Z.abs (seq_of c - seq_of p)) with k by lia.
  destruct (Z.gtb_spec k 1); lia.
Qed.

Lemma first_Missing_pair c p :
  Assembler.Missing c (Some p) =
    let '(previous, current) := if seq_of p >? seq_of c then (c, p) else (p, c) in
    if negb (u32 (seq_of previous + 1) =? seq_of current)
    then u32 (seq_of current - seq_of previous) else 0.
Proof.
  destruct (Z.gtb_spec (seq_of p) (seq_of c)) as [Hgt|Hle]; simp Missing.
  - destruct (Z_gt_dec (seq_of p) (seq_of c)); [|lia]. simp Missing.
    destruct (Z_gt_dec (seq_of c) (seq_of p)); [lia|]. now simp Missing.
  - destruct (Z_gt_dec (seq_of p) (seq_of c)); [lia|]. now simp Missing.
Qed.

(** C1, at the pair of the wrap scenario.  The previous sequence 0xFFFFFE is
    the greater one, so the roles are swapped before the subtraction and the
    mask has nothing left to reduce: the count is 0xFFFFFE - 1 = 16777213, not
    the 3 steps from 0xFFFFFE to 0x000001 modulo 2^24.  The version without
    the mask gives the same count. *)
Theorem Missing_across_wrap (c p : Cadu) :
  seq_of p = 0xFFFFFE -> seq_of c = 0x000001 ->
  seq_of c = (seq_of p + 3) mod 2 ^ 24 /\
  Missing c (Some p) = 16777213 /\
  Missing c (Some p) <> 3 /\
  Assembler.Missing c (Some p) = 16777213.
Proof.
  intros Hp Hc.
  assert (Missing c (Some p) = 16777213) as Hm
    by (rewrite Missing_pair, Hp, Hc; cbn; rewrite Hp, Hc; reflexivity).
  repeat split.
  - rewrite Hp, Hc. reflexivity.
  - exact Hm.
  - rewrite Hm. discriminate.
  - rewrite first_Missing_pair, Hp, Hc. cbn. rewrite Hp, Hc. reflexivity.
Qed.

Lemma Missing_across_wrap_witness :
  let cadu s := {| header := {| Word := 0x1ACFFC1D; Version := 1; Space := 23; Channel := 7;
                               Sequence := s; Replay := false; HControl := 0xFDC3;
                               Data := 0x3FFF |};
                   Payload := repeat x00 1008; Control := 0; Error := None |} in
  Missing (cadu 1) (Some (cadu 0xFFFFFE)) = 16777213.
Proof. intros cadu. apply (Missing_across_wrap (cadu 1) (cadu 0xFFFFFE)); reflexivity. Defined.

End Gaps.

(** ** Sequence accounting of the reassembler *)

Section Delta.

Import Reassembler.

(** C8. For 32-bit counters, [sequenceDelta current last] is 0 when [current]
    is [last + 1] in 32-bit arithmetic; when it is not and [current > last],
    it is [current - last]; in every other case it is 0. *)
Theorem sequenceDelta_cases (current last : Z) :
  0 <= current < 2 ^ 32 -> 0 <= last < 2 ^ 32 ->
  (current = (last + 1) mod 2 ^ 32 -> sequenceDelta current last = 0) /\
  (current <> (last + 1) mod 2 ^ 32 -> current > last ->
   sequenceDelta current last = current - last) /\
  (current <> (last + 1) mod 2 ^ 32 -> current <= last ->
   sequenceDelta current last = 0).
Proof.
  intros Hc Hl. unfold sequenceDelta, u32, u64.
  destruct (Z.eqb_spec current ((last + 1) mod 2 ^ 32)) as [Heq|Hne];
    (split; [|split]); intros; try contradiction; try reflexivity.
  - destruct (Z.gtb_spec current last); [|lia].
    rewrite (Z.mod_small current), (Z.mod_small last) by lia.
    apply Z.mod_small. lia.
  - destruct (Z.gtb_spec current last); [lia|reflexivity].
Qed.

Lemma sequenceDelta_cases_witness :
  sequenceDelta 0 (2 ^ 32 - 1) = 0 /\ sequenceDelta 14 10 = 4 /\ sequenceDelta 3 9 = 0.
Proof.
  split; [|split].
  - destruct (sequenceDelta_cases 0 (2 ^ 32 - 1)) as [H _]; [lia|lia|]. apply H. reflexivity.
  - destruct (sequenceDelta_cases 14 10) as (_ & H & _); [lia|lia|]. apply H; [discriminate|lia].
  - destruct (sequenceDelta_cases 3 9) as (_ & _ & H); [lia|lia|]. apply H; [discriminate|lia].
Defined.

End Delta.

(** ** The CADU decoder *)

Section Decoder.

Import Lister.

Lemma ReadFull_enough r n :
  (n <= length r)%nat -> ReadFull r n = (firstn n r, skipn n r, None).
Proof. intros Hn. unfold ReadFull. now destruct (Nat.leb_spec n (length r)); [|lia]. Qed.

Lemma slice_next (r : list byte) (a b c : nat) :
  (a <= b)%nat -> (b <= c)%nat -> slice r a b ++ slice r b c = slice r a c.
Proof.
  intros Hab Hbc. unfold slice.
  replace (c - a)%nat with ((b - a) + (c - b))%nat by lia.
  rewrite <- take_take_drop, drop_drop.
  now replace (a + (b - a))%nat with b by lia.
Qed.

Lemma read_rs_enough n w :
  (n <= length (source w))%nat ->
  read_rs n w =
    ((firstn n (source w), None),
     {| source := skipn n (source w);
        tee := {| sum := write_loop (sum (tee w)) (firstn n (source w)) |} |}).
Proof. intros Hn. unfold read_rs. now rewrite ReadFull_enough. Qed.

Lemma read_r_enough n w :
  (n <= length (source w))%nat ->
  read_r n w = ((firstn n (source w), None), {| source := skipn n (source w); tee := tee w |}).
Proof. intros Hn. unfold read_r. now rewrite ReadFull_enough. Qed.

Lemma decodeCadu_frame r :
  (1024 <= length r)%nat ->
  let pid := BigEndian (slice r 4 6) in
  let seq := BigEndian (slice r 6 10) in
  let want := BigEndian (slice r 1022 1024) in
  let got := write_loop CCITT (slice r 4 1022) in
  decodeCadu r =
    (Some {| header := {| Word := BigEndian (slice r 0 4);
                          Version := u8 (Z.shiftr (Z.land pid 0xC000) 14);
                          Space := u8 (Z.shiftr (Z.land pid 0x3FC0) 6);
                          Channel := u8 (Z.land pid 0x003F);
                          Sequence := Z.shiftr seq 8;
                          Replay := Z.shiftr seq 7 =? 1;
                          HControl := BigEndian (slice r 10 12);
                          Data := BigEndian (slice r 12 14) |};
             Payload := slice r 14 1022;
             Control := want;
             Error := if got =? want then None else Some (ChecksumError want got) |},
     None, skipn 1024 r).
Proof.
  intros Hlen pid seq want got.
  unfold decodeCadu. rewrite ReadFull_enough by lia.
  unfold decodeBody, binary_Read, get_Sum32, mbind, M_bind, mret, M_ret.
  repeat (rewrite read_rs_enough by (cbn [source]; rewrite ?length_drop; lia); cbn [source tee sum]).
  unfold caduBodyLen.
  rewrite read_rs_enough by (cbn [source]; rewrite ?length_drop; lia); cbn [source tee sum].
  rewrite read_r_enough by (cbn [source]; rewrite ?length_drop; lia); cbn [source tee sum fst snd].
  rewrite !drop_drop. rewrite <- !write_loop_app.
  change (sum Sum) with CCITT.
  change (take 4 r) with (slice r 0 4).
  change (take 2 (drop 4 r)) with (slice r 4 6).
  change (take 4 (drop (4 + 2) r)) with (slice r 6 10).
  change (take 2 (drop (4 + 2 + 4) r)) with (slice r 10 12).
  change (take 2 (drop (4 + 2 + 4 + 2) r)) with (slice r 12 14).
  change (take 1008 (drop (4 + 2 + 4 + 2 + 2) r)) with (slice r 14 1022).
  change (take 2 (drop (4 + 2 + 4 + 2 + 2 + 1008) r)) with (slice r 1022 1024).
  rewrite !slice_next by lia.
  fold pid seq want got.
  assert (u16 (Sum32 {| sum := got |}) = got) as ->; [|reflexivity].
  assert (0 <= got < 2 ^ 16) by (apply write_loop_range; unfold CCITT; lia).
  unfold u16, Sum32, u32. cbn [sum]. rewrite (Z.mod_small got (2 ^ 32)) by lia.
  apply Z.mod_small. lia.
Qed.

(** C5, with the octet count the decoder has.  When 1024 octets are there,
    [decodeCadu] returns a CADU and no error.  The sum is accumulated over the
    1018 octets between the sync word and the trailing CRC; when it differs
    from the CRC of the frame the CADU carries a [ChecksumError] with the CRC
    of the frame as [Want] and the sum as [Got], and no error when it does
    not.  Header, payload and control are the same in both cases. *)
Theorem decodeCadu_never_fatal (r : list byte) :
  (1024 <= length r)%nat ->
  let covered := slice r 4 1022 in
  let want := BigEndian (slice r 1022 1024) in
  let got := sum (feed Sum [covered]) in
  let pid := BigEndian (slice r 4 6) in
  let seq := BigEndian (slice r 6 10) in
  length covered = 1018%nat /\
  decodeCadu r =
    (Some {| header := {| Word := BigEndian (slice r 0 4);
                          Version := u8 (Z.shiftr (Z.land pid 0xC000) 14);
                          Space := u8 (Z.shiftr (Z.land pid 0x3FC0) 6);
                          Channel := u8 (Z.land pid 0x003F);
                          Sequence := Z.shiftr seq 8;
                          Replay := Z.shiftr seq 7 =? 1;
                          HControl := BigEndian (slice r 10 12);
                          Data := BigEndian (slice r 12 14) |};
             Payload := slice r 14 1022;
             Control := want;
             Error := if got =? want then None else Some (ChecksumError want got) |},
     None, skipn 1024 r).
Proof.
  intros Hlen covered want got pid seq. split.
  - unfold covered, slice. rewrite length_take, length_drop. lia.
  - apply (decodeCadu_frame r Hlen).
Qed.

Lemma decodeCadu_never_fatal_witness :
  length (slice Samples.clean_frame 4 1022) = 1018%nat.
Proof.
  refine (proj1 (decodeCadu_never_fatal Samples.clean_frame _)).
  vm_compute. apply le_n.
Defined.

(** The sum of a generated frame matches although the octets it covers are
    1018: over 1022 octets, with or without the sync word, the sum is another. *)
Lemma crc_covers_1018_not_1022 :
  let r := Samples.clean_frame in
  let want := BigEndian (slice r 1022 1024) in
  length r = 1024%nat /\
  (exists c, decodeCadu r = (Some c, None, []) /\ Error c = None /\ Control c = want) /\
  length (slice r 4 1022) <> 1022%nat /\
  write_loop CCITT (slice r 4 1022) = want /\
  write_loop CCITT (firstn 1022 r) <> want /\
  write_loop CCITT (firstn 1022 (skipn 4 r)) <> want.
Proof.
  intros r want. subst r want. split; [vm_compute; reflexivity|]. split.
  - eexists. split; [vm_compute; reflexivity|]. split; vm_compute; reflexivity.
  - split; [vm_compute; discriminate|].
    split; [vm_compute; reflexivity|].
    split; vm_compute; discriminate.
Qed.

Lemma shifted7_is_1 w : 0 <= w -> (Z.shiftr w 7 =? 1) = true <-> 128 <= w < 256.
Proof.
  intros Hw. rewrite Z.shiftr_div_pow2 by lia. change (2 ^ 7) with 128.
  rewrite Z.eqb_eq. split; intros H.
  - pose proof (Z.div_mod w 128). pose proof (Z.mod_pos_bound w 128). lia.
  - symmetry. apply (Z.div_unique w 128 1 (w - 128)); lia.
Qed.

(** C6, at the word 0x00000180.  The sequence is the top 24 bits, 1; bit 7 of
    the word is set, and yet the replay flag is false: the word shifted by 7
    is compared with 1 with the sequence bits still above the flag, so that the
    flag is true only when the sequence is 0. *)
Theorem Replay_lost_when_sequence_is_not_zero (r : list byte) :
  (1024 <= length r)%nat ->
  slice r 6 10 = [x00; x00; x01; x80] ->
  exists c rest,
    decodeCadu r = (Some c, None, rest) /\
    Sequence (header c) = Z.shiftr (BigEndian (slice r 6 10)) 8 /\
    Sequence (header c) = 1 /\
    Z.testbit (BigEndian (slice r 6 10)) 7 = true /\
    Replay (header c) = false.
Proof.
  intros Hlen Hseq. eexists. eexists.
  split; [apply (decodeCadu_frame r Hlen)|].
  cbn [header Sequence Replay]. rewrite Hseq. repeat split.
Qed.

Lemma Replay_lost_when_sequence_is_not_zero_witness :
  exists c rest,
    decodeCadu Samples.replayed_frame = (Some c, None, rest) /\
    Sequence (header c) = Z.shiftr (BigEndian (slice Samples.replayed_frame 6 10)) 8 /\
    Sequence (header c) = 1 /\
    Z.testbit (BigEndian (slice Samples.replayed_frame 6 10)) 7 = true /\
    Replay (header c) = false.
Proof.
  apply (Replay_lost_when_sequence_is_not_zero Samples.replayed_frame).
  - vm_compute. apply le_n.
  - reflexivity.
Defined.

End Decoder.

(** ** The reader of the reassembler *)

Section Reader.

Import Reassembler.

Lemma HasPrefix_take s p : HasPrefix s p = true -> firstn (length p) s = p.
Proof.
  revert s. induction p as [|b p IH]; intros [|a s] H; cbn in *; try easy.
  apply andb_prop in H as [Hab Hp]. apply Byte.byte_dec_bl in Hab as ->.
  now rewrite IH.
Qed.

Lemma HasPrefix_of_take s p : firstn (length p) s = p -> HasPrefix s p = true.
Proof.
  revert s. induction p as [|b p IH]; intros [|a s] H; cbn in *; try easy.
  injection H as -> H. rewrite IH by assumption.
  now rewrite (Byte.byte_dec_lb eq_refl).
Qed.

Lemma Equal_true a b : Equal a b = true -> a = b.
Proof.
  unfold Equal. intros H. apply andb_prop in H as [Hlen Hp].
  apply Nat.eqb_eq in Hlen. apply HasPrefix_take in Hp.
  now rewrite <- Hlen, firstn_all in Hp.
Qed.

Lemma Equal_refl a : Equal a a = true.
Proof.
  unfold Equal. rewrite Nat.eqb_refl. apply HasPrefix_of_take, firstn_all.
Qed.

Lemma Index_lower s sep : -1 <= Index s sep.
Proof.
  induction s as [|a s IH]; cbn [Index].
  - destruct (HasPrefix [] sep); lia.
  - destruct (HasPrefix (a :: s) sep); [lia|].
    destruct (Z.ltb_spec (Index s sep) 0); lia.
Qed.

(** Where [Index] finds [sep], [sep] is. *)
Lemma Index_found s sep :
  0 <= Index s sep ->
  HasPrefix (skipn (Z.to_nat (Index s sep)) s) sep = true /\
  Index s sep <= Z.of_nat (length s).
Proof.
  induction s as [|a s IH]; cbn [Index].
  - destruct (HasPrefix [] sep) eqn:Hp; [cbn; auto with lia|lia].
  - destruct (HasPrefix (a :: s) sep) eqn:Hp; [cbn [Z.to_nat skipn length]; split; [easy|lia]|].
    destruct (Z.ltb_spec (Index s sep) 0) as [|Hge]; [lia|]. intros _.
    destruct (IH Hge) as [Hfound Hle].
    replace (Z.to_nat (Index s sep + 1)) with (S (Z.to_nat (Index s sep))) by lia.
    cbn [skipn length]. split; [assumption|lia].
Qed.

(** A sync word that starts inside another one would need its first octet
    among the last three of the other. *)
Lemma sync_apart xs z :
  firstn 4 xs = Word -> HasPrefix (skipn z xs) Word = true -> (1 <= z)%nat -> (4 <= z)%nat.
Proof.
  intros Hw Hp Hz.
  destruct xs as [|a [|b [|c [|d t]]]]; try discriminate.
  injection Hw as -> -> -> ->.
  destruct z as [|[|[|[|z]]]]; try lia; cbn in Hp; discriminate.
Qed.

Lemma LittleEndian_nonneg bs : 0 <= LittleEndian bs.
Proof.
  induction bs as [|b bs IH]; cbn [LittleEndian fold_right]; [lia|].
  apply Z.lor_nonneg. split; [apply byte_val_range|].
  apply Z.shiftl_nonneg. exact IH.
Qed.

Lemma copy_length len_bs src :
  0 <= len_bs -> Z.of_nat (length (copy len_bs src)) = Z.min len_bs (Z.of_nat (length src)).
Proof. intros H. unfold copy. rewrite length_take. lia. Qed.

Lemma copy_all len_bs src : Z.of_nat (length src) <= len_bs -> copy len_bs src = src.
Proof. intros H. unfold copy. apply firstn_all2. lia. Qed.

(** The search of [copyHRDL]: where it starts and where it finds the next
    sync word. *)
Lemma copyHRDL_found r xs len_bs :
  (8 <= length xs)%nat -> firstn 4 xs = Word ->
  let offset := Z.of_nat (length xs) - defaultOffset in
  let offset := if offset <=? 0 then 4 else offset in
  let ix := Index (skipn (Z.to_nat offset) xs) Word in
  0 <= ix ->
  let z := ix + offset in
  let s := LittleEndian (slice xs 4 8) + 12 in
  copyHRDL r xs len_bs =
    (copy len_bs (firstn (Z.to_nat (if s >? z then z else s)) xs),
     {| inner := inner r; rest := rest r ++ skipn (Z.to_nat z) xs; skip := skip r |}) /\
  4 <= z <= Z.of_nat (length xs) /\
  HasPrefix (skipn (Z.to_nat z) xs) Word = true.
Proof.
  intros Hlen Hw offset0 offset ix Hix z s.
  split.
  - unfold copyHRDL.
    destruct (Nat.ltb_spec (length xs) 8); [lia|].
    change (length Word) with 4%nat. rewrite Hw, Equal_refl. cbn [negb orb].
    fold offset0. change (Z.of_nat 4) with 4. fold offset. fold ix.
    destruct (Z.ltb_spec ix 0); [lia|]. reflexivity.
  - assert (1 <= offset <= Z.of_nat (length xs)) as Hoff.
    { subst offset offset0. unfold defaultOffset, caduBodyLen, caduPacketLen, caduHeaderLen, caduCheckLen.
      destruct (Z.leb_spec (Z.of_nat (length xs) - (Z.of_nat (1024 - 14 - 2) + 4)) 0); lia. }
    destruct (Index_found (skipn (Z.to_nat offset) xs) Word Hix) as [Hfound Hle].
    fold ix in Hfound, Hle. rewrite drop_drop in Hfound. rewrite length_drop in Hle.
    replace (Z.to_nat offset + Z.to_nat ix)%nat with (Z.to_nat z) in Hfound by lia.
    pose proof (sync_apart xs (Z.to_nat z) Hw Hfound). split; [lia|assumption].
Qed.

Lemma copyHRDL_emits r xs len_bs out r1 :
  4 <= len_bs -> copyHRDL r xs len_bs = (out, r1) -> (0 < length out)%nat ->
  firstn 4 out = Word /\ (4 <= length out)%nat.
Proof.
  intros Hbs Hcopy Hout.
  destruct (Nat.ltb_spec (length xs) 8) as [Hshort|Hlen].
  { unfold copyHRDL in Hcopy. destruct (Nat.ltb_spec (length xs) 8); [|lia].
    cbn [orb] in Hcopy. injection Hcopy as <- _. cbn in Hout. lia. }
  destruct (Equal (firstn (length Word) xs) Word) eqn:Heq.
  2:{ unfold copyHRDL in Hcopy. rewrite Heq, orb_true_r in Hcopy.
      injection Hcopy as <- _. cbn in Hout. lia. }
  apply Equal_true in Heq. change (length Word) with 4%nat in Heq.
  set (offset := if Z.of_nat (length xs) - defaultOffset <=? 0 then 4
                 else Z.of_nat (length xs) - defaultOffset).
  destruct (Z.ltb_spec (Index (skipn (Z.to_nat offset) xs) Word) 0) as [Hno|Hix].
  { unfold copyHRDL in Hcopy. destruct (Nat.ltb_spec (length xs) 8); [lia|].
    change (length Word) with 4%nat in Hcopy. rewrite Heq, Equal_refl in Hcopy.
    cbn [negb orb] in Hcopy. change (Z.of_nat 4) with 4 in Hcopy. fold offset in Hcopy.
    destruct (Z.ltb_spec (Index (skipn (Z.to_nat offset) xs) Word) 0); [|lia].
    injection Hcopy as <- _. cbn in Hout. lia. }
  destruct (copyHRDL_found r xs len_bs Hlen Heq Hix) as (Hc & Hz & _).
  fold offset in Hc, Hz. rewrite Hc in Hcopy. injection Hcopy as <- _.
  pose proof (LittleEndian_nonneg (slice xs 4 8)) as Hle.
  set (z := Index (skipn (Z.to_nat offset) xs) Word + offset) in *.
  set (s := if LittleEndian (slice xs 4 8) + 12 >? z then z else LittleEndian (slice xs 4 8) + 12).
  assert (4 <= s <= Z.of_nat (length xs)) as Hs.
  { subst s. destruct (Z.gtb_spec (LittleEndian (slice xs 4 8) + 12) z); lia. }
  unfold copy. rewrite length_take, !length_take, take_take.
  split; [|lia].
  rewrite take_take.
  match goal with |- take ?n xs = _ => replace n with 4%nat by lia end.
  exact Heq.
Qed.

Lemma emit_loop_turn r xs len_bs :
  emit_loop r xs len_bs =
    match emit_turn r xs len_bs with
    | inl res => res
    | inr (r', xs') => emit_loop r' xs' len_bs
    end.
Proof.
  simp emit_loop. unfold remember_eq.
  enough (forall y (H : emit_turn r xs len_bs = y),
             emit_loop_unfold_clause_1 r xs len_bs (exist _ y H) =
             match y with inl res => res | inr (r', xs') => emit_loop r' xs' len_bs end)
    as Hgen by apply Hgen.
  intros [res|[r' xs']] H; now simp emit_loop.
Qed.

Lemma seek_loop_turn r xs len_bs :
  seek_loop r xs len_bs =
    match seek_turn r xs with
    | inl (err, r') => (inr err, r')
    | inr (inl (r', xs')) => emit_loop r' xs' len_bs
    | inr (inr (r', xs')) => seek_loop r' xs' len_bs
    end.
Proof.
  simp seek_loop. unfold remember_eq.
  enough (forall y (H : seek_turn r xs = y),
             seek_loop_unfold_clause_1 r xs (exist _ y H) len_bs =
             match y with
             | inl (err, r') => (inr err, r')
             | inr (inl (r', xs')) => emit_loop r' xs' len_bs
             | inr (inr (r', xs')) => seek_loop r' xs' len_bs
             end)
    as Hgen by apply Hgen.
  intros [[err r']|[[r' xs']|[r' xs']]] H; now simp seek_loop.
Qed.

Lemma readCadu_shrinks r vs r' :
  readCadu r = (inl vs, r') -> (length (inner r') < length (inner r))%nat.
Proof.
  unfold readCadu, ReadFull, caduPacketLen.
  destruct (Nat.leb_spec (1024 + skip r) (length (inner r))); intros [= <- <-]; cbn [inner].
  rewrite length_drop. lia.
Qed.

Lemma copyHRDL_inner r xs len_bs : inner (copyHRDL r xs len_bs).2 = inner r.
Proof. unfold copyHRDL. repeat case_match; reflexivity. Qed.

(** Whatever [Read] emits was copied out by a call of [copyHRDL]. *)
Section Emissions.

Variable len_bs : Z.
Variable P : list byte -> Prop.
Hypothesis copied :
  forall r xs out r1, copyHRDL r xs len_bs = (out, r1) -> (0 < length out)%nat -> P out.

Lemma emit_loop_emits n : forall r xs out r',
  (length (inner r) < n)%nat -> emit_loop r xs len_bs = (inl out, r') -> P out.
Proof.
  induction n as [|n IH]; intros r xs out r' Hn; [lia|].
  rewrite emit_loop_turn. unfold emit_turn.
  pose proof (copyHRDL_inner r xs len_bs) as Hin.
  destruct (copyHRDL r xs len_bs) as [out1 r1] eqn:Hcopy. cbn [snd] in Hin.
  destruct (Nat.ltb_spec 0 (length out1)).
  - intros [= <- <-]. eapply copied; eassumption.
  - destruct (readCadu r1) as [[vs|err] r2] eqn:Hrd; [|discriminate].
    apply readCadu_shrinks in Hrd. apply IH. rewrite Hin in Hrd. lia.
Qed.

Lemma seek_loop_emits n : forall r xs out r',
  (length (inner r) < n)%nat -> seek_loop r xs len_bs = (inl out, r') -> P out.
Proof.
  induction n as [|n IH]; intros r xs out r' Hn; [lia|].
  rewrite seek_loop_turn. unfold seek_turn.
  destruct (readCadu r) as [[vs|err] r2] eqn:Hrd; [|discriminate].
  apply readCadu_shrinks in Hrd.
  destruct (Index (xs ++ vs) Word >=? 0).
  - apply (emit_loop_emits (S (length (inner r2)))). lia.
  - apply IH. lia.
Qed.

Lemma Read_emits r out r' : Read r len_bs = (inl out, r') -> P out.
Proof.
  unfold Read.
  destruct (copyHRDL _ (rest r) len_bs) as [out1 r1] eqn:Hcopy.
  destruct (Nat.ltb_spec 0 (length out1)).
  - intros [= <- <-]. eapply copied; eassumption.
  - apply (seek_loop_emits (S (length (inner r1)))). lia.
Qed.

End Emissions.

(** C3, with the length the reader guarantees.  Whatever the state of the
    reader, so whatever the stream and the packets emitted before, a slice
    that [Read] emits into a destination of four octets or more (that of
    [reassemble] has 8 MiB) begins with the HRDL sync word and has four
    octets or more. *)
Theorem Read_emits_sync_word (r : reader) (len_bs : Z) (out : list byte) (r' : reader) :
  4 <= len_bs ->
  Read r len_bs = (inl out, r') ->
  firstn 4 out = Word /\ (4 <= length out)%nat.
Proof.
  intros Hbs.
  apply (Read_emits len_bs (fun out => firstn 4 out = Word /\ (4 <= length out)%nat)).
  intros r0 xs out0 r1. now apply copyHRDL_emits.
Qed.

Lemma Read_emits_sync_word_witness :
  firstn 4 Word = Word /\ (4 <= length Word)%nat.
Proof.
  apply (Read_emits_sync_word (NewReader Samples.twin_sync_stream false) bufLen Word
           {| inner := []; rest := skipn 4 (Samples.pad 1008 (Word ++ Word)); skip := 0 |}).
  - vm_compute. discriminate.
  - vm_compute. reflexivity.
Defined.

(** When the payload of the first CADU opens with two sync words in a row,
    the first slice is the four octets of the first sync word: fewer than 8. *)
Lemma Read_emits_four_octets :
  exists out r',
    Read (NewReader Samples.twin_sync_stream false) bufLen = (inl out, r') /\
    out = Word /\ ~ (8 <= length out)%nat.
Proof.
  eexists. eexists. split; [vm_compute; reflexivity|].
  split; [reflexivity|]. cbn. lia.
Qed.

(** C10, with [z] as the code has it.  The search for a sync word starts at
    [len(xs) - 1012], or at 4 when that is not positive, and [z] is the place
    of the first sync word from there on: a sync word before the place where
    the search starts is passed over.  When the buffer begins with a sync
    word and the declared length [size + 12] is smaller than [z] (and fits
    the destination), [copyHRDL] copies out exactly the first [size + 12]
    octets and writes exactly the suffix from [z] to [rest], which is empty
    at both calls since [Read] drains it first.  The octets from [size + 12]
    to [z], at least one, are in neither. *)
Theorem copyHRDL_drops_between_length_and_sync (r : reader) (xs : list byte) (len_bs : Z) :
  (8 <= length xs)%nat -> firstn 4 xs = Word -> rest r = [] ->
  let offset := Z.of_nat (length xs) - defaultOffset in
  let offset := if offset <=? 0 then 4 else offset in
  let ix := Index (skipn (Z.to_nat offset) xs) Word in
  0 <= ix ->
  let z := Z.to_nat (ix + offset) in
  let declared := Z.to_nat (LittleEndian (slice xs 4 8) + 12) in
  (declared < z)%nat -> Z.of_nat declared <= len_bs ->
  copyHRDL r xs len_bs =
    (firstn declared xs, {| inner := inner r; rest := skipn z xs; skip := skip r |}) /\
  xs = firstn declared xs ++ slice xs declared z ++ skipn z xs /\
  length (firstn declared xs) = declared /\
  (0 < length (slice xs declared z))%nat.
Proof.
  intros Hlen Hw Hrest offset0 offset ix Hix z declared Hlt Hfit.
  destruct (copyHRDL_found r xs len_bs Hlen Hw Hix) as (Hc & Hz & _).
  fold offset0 offset ix in Hc, Hz.
  pose proof (LittleEndian_nonneg (slice xs 4 8)) as Hle.
  assert (z <= length xs)%nat by lia.
  split; [|split; [|split]].
  - rewrite Hc, Hrest. cbn [app].
    destruct (Z.gtb_spec (LittleEndian (slice xs 4 8) + 12) (ix + offset)); [lia|].
    fold declared z. rewrite copy_all; [reflexivity|]. rewrite length_take. lia.
  - unfold slice. rewrite app_assoc, take_take_drop.
    replace (declared + (z - declared))%nat with z by lia.
    now rewrite take_drop.
  - rewrite length_take. lia.
  - unfold slice. rewrite length_take, length_drop. lia.
Qed.

Lemma copyHRDL_drops_between_length_and_sync_witness :
  copyHRDL (NewReader [] false) Samples.short_packet_buffer bufLen =
    (firstn 16 Samples.short_packet_buffer,
     {| inner := []; rest := skipn 20 Samples.short_packet_buffer; skip := 0 |}) /\
  slice Samples.short_packet_buffer 16 20 = [xde; xad; xbe; xef].
Proof.
  split; [|reflexivity].
  apply (copyHRDL_drops_between_length_and_sync (NewReader [] false)
           Samples.short_packet_buffer bufLen).
  - vm_compute. lia.
  - reflexivity.
  - reflexivity.
  - vm_compute. discriminate.
  - vm_compute. lia.
  - vm_compute. discriminate.
Defined.

(** C10 as worded, with [z] the distance to the next sync word, fails on a
    stream of two CADUs.  At the call of [copyHRDL] that gives the second
    slice the buffer [xs] begins with a sync word, declares 12 octets and has
    its next sync word at 20; the search starts at 502 and finds one at 606.
    The slice is the first 12 octets, but what is retained begins at 606, not
    at 20: the packet at 20 is dropped with the octets from 12 on. *)
Lemma copyHRDL_passes_over_a_sync_word :
  let first := Read (NewReader Samples.passed_over_stream false) bufLen in
  let xs := Replace (rest first.2 ++ Samples.pad 1008 (repeat x00 100 ++ Word))
                    Stuff (firstn 3 Word) in
  let drained := {| inner := []; rest := []; skip := 0 |} in
  Read first.2 bufLen = (inl (copyHRDL drained xs bufLen).1, (copyHRDL drained xs bufLen).2) /\
  firstn 4 xs = Word /\
  LittleEndian (slice xs 4 8) + 12 = 12 /\
  4 + Index (skipn 4 xs) Word = 20 /\
  Z.of_nat (length xs) - defaultOffset = 502 /\
  502 + Index (skipn 502 xs) Word = 606 /\
  (copyHRDL drained xs bufLen).1 = firstn 12 xs /\
  rest (copyHRDL drained xs bufLen).2 = skipn 606 xs /\
  rest (copyHRDL drained xs bufLen).2 <> skipn 20 xs.
Proof.
  intros first xs drained.
  split; [vm_compute; reflexivity|].
  split; [vm_compute; reflexivity|].
  split; [vm_compute; reflexivity|].
  split; [vm_compute; reflexivity|].
  split; [vm_compute; reflexivity|].
  split; [vm_compute; reflexivity|].
  split; [vm_compute; reflexivity|].
  split; [vm_compute; reflexivity|].
  intros Heq. apply (f_equal (@length byte)) in Heq. vm_compute in Heq. discriminate.
Qed.

(** C4, on a stream with stuffed octets.  The second loop writes the window
    with its replacements back over itself and keeps the length of the buffer:
    as many octets as were taken out stay behind at the end.  A window that
    ends with F8 2E 35 AA comes out unchanged, with the stuffed sequence still
    in it when the sync word is searched; and the packet rebuilt from a
    payload stuffed once carries its last octet twice. *)
Theorem unstuff_leaves_stale_octets :
  let stuffed := Samples.first_body ++ Samples.tail_stuffed_body in
  let original := Samples.first_body ++ Samples.plain_body in
  unstuff stuffed = stuffed /\
  0 <= Index (skipn (length stuffed - caduPacketLen) (unstuff stuffed)) Stuff /\
  Replace (Samples.first_body ++ Samples.stuffed_body) Stuff (firstn 3 Word) = original /\
  unstuff (Samples.first_body ++ Samples.stuffed_body) = original ++ [x99] /\
  (exists r', Read (NewReader Samples.stuffed_stream false) bufLen
              = (inl (original ++ [x99]), r')) /\
  original ++ [x99] <> original.
Proof.
  intros stuffed original. subst stuffed original.
  split; [vm_compute; reflexivity|].
  split; [vm_compute; discriminate|].
  split; [vm_compute; reflexivity|].
  split; [vm_compute; reflexivity|].
  split; [eexists; vm_compute; reflexivity|].
  intros H. apply (f_equal (@length byte)) in H. vm_compute in H. discriminate.
Qed.

End Reader.

(** ** The loop of reassemble *)

Section Reassemble.

Import Reassembler.

(** Once the slice is known to begin with the sync word, [bytes.Index] finds
    it at 0: the second check cannot fail. *)
Lemma Index_of_prefix vs sep : HasPrefix vs sep = true -> Index vs sep = 0.
Proof. intros Hp. destruct vs; cbn [Index]; now rewrite Hp. Qed.

(** [vs[:len(Word)]] is read from the buffer: for a slice of four octets or
    more, these are its own first four. *)
Lemma buffer_head (xs out : list byte) :
  (4 <= length out)%nat ->
  firstn (length Word)
    (overwrite (xs ++ repeat x00 (length out - length xs)) out ++ repeat x00 (length Word))
  = firstn 4 out.
Proof.
  intros Hlen. unfold overwrite. change (length Word) with 4%nat.
  rewrite length_app, repeat_length.
  rewrite (firstn_all2 out) by lia.
  rewrite <- !app_assoc. now rewrite take_app_le by lia.
Qed.

End Reassemble.

(** ** Every run of reassemble ends *)

Section Progress.

Import Reassembler.

Lemma HasPrefix_length s p : HasPrefix s p = true -> (length p <= length s)%nat.
Proof.
  intros H. apply HasPrefix_take in H. rewrite <- H at 1. rewrite length_take. lia.
Qed.

Lemma replace_from_length old new k s :
  (length new <= length old)%nat ->
  (length (replace_from old new k s) + Nat.min k (length s) <= length s)%nat.
Proof.
  intros Hnew. revert k. induction s as [|b s IH]; intros k; cbn [replace_from length]; [lia|].
  destruct k as [|k].
  - destruct (HasPrefix (b :: s) old) eqn:Hp.
    + apply HasPrefix_length in Hp. cbn [length] in Hp.
      specialize (IH (length old - 1)%nat). rewrite length_app. lia.
    + specialize (IH 0%nat). cbn [length]. lia.
  - specialize (IH k). lia.
Qed.

Lemma Replace_length s : (length (Replace s Stuff (firstn 3 Word)) <= length s)%nat.
Proof.
  unfold Replace.
  assert (length (firstn 3 Word) <= length Stuff)%nat as Hnew by (cbn; lia).
  pose proof (replace_from_length Stuff (firstn 3 Word) 0 s Hnew). lia.
Qed.

Lemma unstuff_length xs : length (unstuff xs) = length xs.
Proof.
  unfold unstuff, overwrite.
  set (offset := Z.to_nat _). set (window := skipn offset xs).
  pose proof (Replace_length window).
  rewrite !length_app, !length_take, length_drop.
  subst window. rewrite length_drop in *. lia.
Qed.

Lemma readCadu_takes r vs r' :
  readCadu r = (inl vs, r') ->
  rest r' = rest r /\ (length (inner r') + length vs < length (inner r))%nat.
Proof.
  unfold readCadu, ReadFull, caduPacketLen, caduHeaderLen, caduCheckLen, slice.
  destruct (Nat.leb_spec (1024 + skip r) (length (inner r))); intros [= <- <-]; cbn [inner rest].
  split; [reflexivity|]. rewrite length_take, !length_drop. lia.
Qed.

(** With room in the destination, [copyHRDL] either leaves the reader alone
    and copies nothing, or copies something and retains the buffer short of
    the sync word it opens with. *)
Lemma copyHRDL_progress r xs len_bs out r1 :
  0 < len_bs -> rest r = [] -> copyHRDL r xs len_bs = (out, r1) ->
  (out = [] /\ r1 = r) \/
  ((0 < length out)%nat /\ inner r1 = inner r /\ (length (rest r1) + 4 <= length xs)%nat).
Proof.
  intros Hbs Hrest Hcopy.
  destruct (Nat.ltb_spec (length xs) 8) as [Hshort|Hlen].
  { unfold copyHRDL in Hcopy. destruct (Nat.ltb_spec (length xs) 8); [|lia].
    cbn [orb] in Hcopy. injection Hcopy as <- <-. now left. }
  destruct (Equal (firstn (length Word) xs) Word) eqn:Heq.
  2:{ unfold copyHRDL in Hcopy. rewrite Heq, orb_true_r in Hcopy.
      injection Hcopy as <- <-. now left. }
  apply Equal_true in Heq. change (length Word) with 4%nat in Heq.
  set (offset := if Z.of_nat (length xs) - defaultOffset <=? 0 then 4
                 else Z.of_nat (length xs) - defaultOffset).
  destruct (Z.ltb_spec (Index (skipn (Z.to_nat offset) xs) Word) 0) as [Hno|Hix].
  { unfold copyHRDL in Hcopy. destruct (Nat.ltb_spec (length xs) 8); [lia|].
    change (length Word) with 4%nat in Hcopy. rewrite Heq, Equal_refl in Hcopy.
    cbn [negb orb] in Hcopy. change (Z.of_nat 4) with 4 in Hcopy. fold offset in Hcopy.
    destruct (Z.ltb_spec (Index (skipn (Z.to_nat offset) xs) Word) 0); [|lia].
    injection Hcopy as <- <-. now left. }
  destruct (copyHRDL_found r xs len_bs Hlen Heq Hix) as (Hc & Hz & _).
  fold offset in Hc, Hz. rewrite Hc in Hcopy. injection Hcopy as <- <-.
  pose proof (LittleEndian_nonneg (slice xs 4 8)) as Hle.
  right. cbn [inner rest]. rewrite Hrest. cbn [app].
  split; [|split; [reflexivity|rewrite length_drop; lia]].
  unfold copy. rewrite !length_take.
  destruct (Z.gtb_spec (LittleEndian (slice xs 4 8) + 12)
              (Index (skipn (Z.to_nat offset) xs) Word + offset)); lia.
Qed.

Section Measure.

Variable len_bs : Z.
Hypothesis room : 0 < len_bs.

Lemma emit_loop_progress n : forall r xs out r',
  (length (inner r) < n)%nat -> rest r = [] ->
  emit_loop r xs len_bs = (inl out, r') ->
  (length (rest r') + length (inner r') + 4 <= length xs + length (inner r))%nat.
Proof.
  induction n as [|n IH]; intros r xs out r' Hn Hrest Hloop; [lia|].
  rewrite emit_loop_turn in Hloop. unfold emit_turn in Hloop. revert Hloop.
  destruct (copyHRDL r xs len_bs) as [out1 r1] eqn:Hcopy.
  destruct (copyHRDL_progress r xs len_bs out1 r1 room Hrest Hcopy)
    as [[-> ->]|(Hout & Hin & Hlen)].
  - cbn [length Nat.ltb Nat.leb].
    destruct (readCadu r) as [[vs|err] r2] eqn:Hrd; [|discriminate].
    apply readCadu_takes in Hrd as [Hr2 Hlt]. intros Hloop.
    apply IH in Hloop; [|lia|congruence].
    rewrite unstuff_length, length_app in Hloop. lia.
  - destruct (Nat.ltb_spec 0 (length out1)); [|lia].
    intros [= <- <-]. rewrite Hin. lia.
Qed.

Lemma seek_loop_progress n : forall r xs out r',
  (length (inner r) < n)%nat -> rest r = [] ->
  seek_loop r xs len_bs = (inl out, r') ->
  (length (rest r') + length (inner r') + 4 <= length xs + length (inner r))%nat.
Proof.
  induction n as [|n IH]; intros r xs out r' Hn Hrest Hloop; [lia|].
  rewrite seek_loop_turn in Hloop. unfold seek_turn in Hloop. revert Hloop.
  destruct (readCadu r) as [[vs|err] r2] eqn:Hrd; [|discriminate].
  apply readCadu_takes in Hrd as [Hr2 Hlt].
  destruct (Index (xs ++ vs) Word >=? 0).
  - intros Hloop. apply (emit_loop_progress (S (length (inner r2)))) in Hloop; [|lia|congruence].
    pose proof (Replace_length (skipn (Z.to_nat (Index (xs ++ vs) Word)) (xs ++ vs))) as Hrep.
    rewrite length_drop, length_app in Hrep. lia.
  - intros Hloop. apply IH in Hloop; [|lia|congruence].
    rewrite length_app in Hloop. lia.
Qed.


End Measure.



Lemma readCadu_error r err r' :
  readCadu r = (inr err, r') -> err = EOF \/ err = ErrUnexpectedEOF.
Proof.
  unfold readCadu, ReadFull.
  destruct (caduPacketLen + skip r <=? length (inner r))%nat; [discriminate|].
  destruct (inner r); intros [= <- _]; auto.
Qed.

Lemma emit_loop_error len_bs n : forall r xs err r',
  (length (inner r) < n)%nat -> emit_loop r xs len_bs = (inr err, r') ->
  err = EOF \/ err = ErrUnexpectedEOF.
Proof.
  induction n as [|n IH]; intros r xs err r' Hn Hloop; [lia|].
  rewrite emit_loop_turn in Hloop. unfold emit_turn in Hloop. revert Hloop.
  pose proof (copyHRDL_inner r xs len_bs) as Hin.
  destruct (copyHRDL r xs len_bs) as [out1 r1]. cbn [snd] in Hin.
  destruct (0 <? length out1)%nat; [discriminate|].
  destruct (readCadu r1) as [[vs|err1] r2] eqn:Hrd.
  - apply readCadu_shrinks in Hrd. apply IH. rewrite Hin in Hrd. lia.
  - intros [= <- _]. eapply readCadu_error, Hrd.
Qed.

Lemma seek_loop_error len_bs n : forall r xs err r',
  (length (inner r) < n)%nat -> seek_loop r xs len_bs = (inr err, r') ->
  err = EOF \/ err = ErrUnexpectedEOF.
Proof.
  induction n as [|n IH]; intros r xs err r' Hn Hloop; [lia|].
  rewrite seek_loop_turn in Hloop. unfold seek_turn in Hloop. revert Hloop.
  destruct (readCadu r) as [[vs|err1] r2] eqn:Hrd.
  - apply readCadu_shrinks in Hrd.
    destruct (Index (xs ++ vs) Word >=? 0).
    + apply (emit_loop_error len_bs (S (length (inner r2)))). lia.
    + apply IH. lia.
  - intros [= <- _]. eapply readCadu_error, Hrd.
Qed.

(** [Read] fails only where the source ends. *)
Lemma Read_error r len_bs err r' :
  Read r len_bs = (inr err, r') -> err = EOF \/ err = ErrUnexpectedEOF.
Proof.
  unfold Read.
  destruct (copyHRDL _ (rest r) len_bs) as [out1 r1].
  destruct (0 <? length out1)%nat; [discriminate|].
  apply (seek_loop_error len_bs (S (length (inner r1)))). lia.
Qed.

(** On its own reader [reassemble] raises neither [ErrSyncword], since the
    slices begin with the sync word, nor [ErrMultiple], since [Index] then
    finds the sync word at 0 whatever follows. *)
Lemma reassemble_loop_raises_no_sync_error turns :
  forall (by_ : byFunc) (rs : reader) xs status reports err,
  reassemble_loop turns by_ rs xs status reports = Failed err -> err = ErrUnexpectedEOF.
Proof.
  induction turns as [|turns IH]; intros by_ rs xs status reports err; [discriminate|].
  cbn [reassemble_loop]. unfold io_Read, reader_Reader.
  destruct (Read rs bufLen) as [[out|err1] rs'] eqn:Hread.
  - assert (firstn 4 out = Word /\ (4 <= length out)%nat) as [Hw Hlen].
    { revert Hread.
      apply (Read_emits bufLen (fun out => firstn 4 out = Word /\ (4 <= length out)%nat)).
      intros r0 xs0 out0 r1. now apply copyHRDL_emits. }
    destruct (length out =? 0)%nat; [discriminate|].
    rewrite buffer_head by assumption. change (length Word) with 4%nat.
    rewrite Hw, Equal_refl. cbn [negb].
    rewrite (Index_of_prefix out Word) by now apply HasPrefix_of_take.
    cbn [Z.geb Z.compare length Word Z.of_nat Pos.of_succ_nat Pos.succ Pos.compare
         Pos.compare_cont].
    destruct (account by_ out status reports) as [[status' reports']|]; [|discriminate].
    apply IH.
  - apply Read_error in Hread as [-> | ->]; [discriminate|]. now intros [= <-].
Qed.

(** C9.  [reassemble] flags no slice and skips none.  The second check,
    [bytes.Index(vs, Word) >= len(Word)], comes after the one on the first
    four octets, and [Index] gives the first place of the sync word, which is
    then 0: it holds of no slice that begins with the sync word, so that
    [ErrMultiple] is never raised; nor is [ErrSyncword], as the slices of the
    reader begin with the sync word.  Yet a slice with a sync word past its
    first four octets does come out of the reader, on a stream of two CADUs,
    and it is counted like any other packet. *)
Theorem multiple_sync_words_are_not_flagged :
  (forall tail : list byte,
     (Index (Word ++ tail) Word >=? Z.of_nat (length Word)) = false) /\
  (forall (r : list byte) (hrdfe : bool) (by_ : byFunc),
     reassemble r hrdfe by_ <> Failed ErrMultiple /\
     reassemble r hrdfe by_ <> Failed ErrSyncword) /\
  (let first := Read (NewReader Samples.twice_stuffed_stream false) bufLen in
   exists out r',
     Read first.2 bufLen = (inl out, r') /\
     length out = 606%nat /\
     firstn 4 out = Word /\
     firstn 4 (skipn 8 out) = Word /\
     exists status reports,
       reassemble Samples.twice_stuffed_stream false by_channel = Returned status reports /\
       status !! 248
       = Some {| Count := 1; Size := 606; Bad := 1; Bigger := 0; Smaller := 1 |}).
Proof.
  split; [|split].
  - intros tail. rewrite (Index_of_prefix (Word ++ tail) Word); [reflexivity|].
    apply HasPrefix_of_take. reflexivity.
  - intros r hrdfe by_.
    pose proof (reassemble_loop_raises_no_sync_error (S (length r)) by_
                  (NewReader r hrdfe) [] ∅ ∅) as Herr.
    fold (reassemble r hrdfe by_) in Herr.
    split; intros Hfail; specialize (Herr _ Hfail); discriminate.
  - eexists. eexists. split; [vm_compute; reflexivity|].
    split; [vm_compute; reflexivity|]. split; [vm_compute; reflexivity|].
    split; [vm_compute; reflexivity|].
    eexists. eexists. split; vm_compute; reflexivity.
Qed.

End Progress.

(** ** The two decoders, the generator's frames and truncated input *)

Section Frames.

Import Lister.

Lemma calculateCRC_write_loop bs : Assembler.calculateCRC bs = write_loop CCITT bs.
Proof.
  unfold Assembler.calculateCRC. now rewrite crc_octets_spec, write_loop_spec.
Qed.

Lemma u16_Sum32 s bs : 0 <= s < 2 ^ 16 ->
  u16 (Sum32 {| sum := write_loop s bs |}) = write_loop s bs.
Proof.
  intros Hs. pose proof (write_loop_range s bs Hs).
  unfold u16, Sum32, u32. cbn [sum]. rewrite (Z.mod_small _ (2 ^ 32)) by lia.
  apply Z.mod_small. lia.
Qed.

(** X1. The decoder of the UDP reassembler, which keeps the octets in a
    buffer and calls [calculateCRC], and the decoder of the lister, which
    feeds a running sum, give the same CADU, the same error and leave the
    same input, on every input, short ones included. *)
Theorem decodeCadu_versions_agree (r : list byte) :
  UdpReassembler.decodeCadu r = decodeCadu r.
Proof.
  unfold UdpReassembler.decodeCadu, decodeCadu.
  destruct (ReadFull r 4) as [[bs0 r0] [e0|]]; [reflexivity|].
  unfold UdpReassembler.decodeBody, decodeBody, UdpReassembler.binary_Read, binary_Read,
    UdpReassembler.read_tee, read_rs, read_r, UdpReassembler.get_CRC, get_Sum32,
    mbind, UdpReassembler.OnTape_bind, M_bind, mret, UdpReassembler.OnTape_ret, M_ret.
  cbn [UdpReassembler.source UdpReassembler.seen source tee].
  destruct (ReadFull r0 2) as [[bs1 r1] e1].
  cbn [UdpReassembler.source UdpReassembler.seen source tee fst Write sum].
  destruct (ReadFull r1 4) as [[bs2 r2] e2].
  cbn [UdpReassembler.source UdpReassembler.seen source tee fst Write sum].
  destruct (ReadFull r2 2) as [[bs3 r3] e3].
  cbn [UdpReassembler.source UdpReassembler.seen source tee fst Write sum].
  destruct (ReadFull r3 2) as [[bs4 r4] e4].
  cbn [UdpReassembler.source UdpReassembler.seen source tee fst Write sum].
  change UdpReassembler.caduBodyLen with caduBodyLen.
  destruct (ReadFull r4 caduBodyLen) as [[bs5 r5] [e5|]];
    cbn [UdpReassembler.source UdpReassembler.seen source tee fst snd Write sum];
    [destruct e1, e2, e3, e4; reflexivity|].
  destruct (ReadFull r5 2) as [[bs6 r6] e6].
  cbn [UdpReassembler.source UdpReassembler.seen source tee fst snd Write sum].
  rewrite calculateCRC_write_loop. cbn [app].
  rewrite !write_loop_app.
  change (Lister.sum Sum) with CCITT.
  rewrite u16_Sum32 by (repeat apply write_loop_range; unfold CCITT; lia).
  set (got := write_loop _ bs5).
  destruct e1, e2, e3, e4, e6; cbn [fst snd];
    match goal with |- context [got =? ?c] => destruct (got =? c) end; reflexivity.
Qed.

Lemma ReadFull_app a b n :
  length a = n -> ReadFull (a ++ b) n = (a, b, None).
Proof.
  intros <-. unfold ReadFull. rewrite length_app.
  destruct (Nat.leb_spec (length a) (length a + length b)); [|lia].
  now rewrite take_app_length, drop_app_length.
Qed.

Lemma ReadFull_short r n :
  (length r < n)%nat ->
  ReadFull r n = (r, [], Some (match r with [] => EOF | _ => ErrUnexpectedEOF end)).
Proof. intros Hn. unfold ReadFull. now destruct (Nat.leb_spec n (length r)); [lia|]. Qed.

(** A frame by its fields. *)
Lemma decodeCadu_parts (w pid seq ctl dat payload crc tail : list byte) :
  length w = 4%nat -> length pid = 2%nat -> length seq = 4%nat -> length ctl = 2%nat ->
  length dat = 2%nat -> length payload = 1008%nat -> length crc = 2%nat ->
  let got := write_loop CCITT (pid ++ seq ++ ctl ++ dat ++ payload) in
  decodeCadu (w ++ pid ++ seq ++ ctl ++ dat ++ payload ++ crc ++ tail) =
    (Some {| header := {| Word := BigEndian w;
                          Version := u8 (Z.shiftr (Z.land (BigEndian pid) 0xC000) 14);
                          Space := u8 (Z.shiftr (Z.land (BigEndian pid) 0x3FC0) 6);
                          Channel := u8 (Z.land (BigEndian pid) 0x003F);
                          Sequence := Z.shiftr (BigEndian seq) 8;
                          Replay := Z.shiftr (BigEndian seq) 7 =? 1;
                          HControl := BigEndian ctl;
                          Data := BigEndian dat |};
             Payload := payload;
             Control := BigEndian crc;
             Error := if got =? BigEndian crc then None
                      else Some (ChecksumError (BigEndian crc) got) |},
     None, tail).
Proof.
  intros Hw Hpid Hseq Hctl Hdat Hpay Hcrc got.
  unfold decodeCadu. rewrite ReadFull_app by assumption.
  unfold decodeBody, binary_Read, read_rs, read_r, get_Sum32, mbind, M_bind, mret, M_ret,
    caduBodyLen.
  cbn [source tee].
  repeat (rewrite ReadFull_app by assumption; cbn [source tee fst snd Write sum]).
  rewrite <- !write_loop_app.
  change (sum Sum) with CCITT.
  rewrite u16_Sum32 by (unfold CCITT; lia). reflexivity.
Qed.

(** *** Big-endian writing and reading *)

Lemma byte_val_octet_of z : byte_val (Generator.octet_of z) = z mod 256.
Proof.
  unfold Generator.octet_of, byte_val.
  pose proof (Z.mod_pos_bound z 256 ltac:(lia)) as Hz.
  destruct (Byte.of_N (Z.to_N (z mod 256))) as [b|] eqn:Hb.
  - apply Byte.to_of_N in Hb. simpl. rewrite Hb. lia.
  - apply Byte.of_N_None_iff in Hb. lia.
Qed.

Lemma length_PutBigEndian n v : length (Generator.PutBigEndian n v) = n.
Proof.
  revert v. induction n as [|n IH]; intros v; cbn [Generator.PutBigEndian]; [reflexivity|].
  rewrite length_app, IH. cbn. lia.
Qed.

Lemma lor_shiftl_octet a b : 0 <= b < 256 -> Z.lor (Z.shiftl a 8) b = a * 256 + b.
Proof.
  intros Hb. rewrite Z.shiftl_mul_pow2 by lia. change (2 ^ 8) with 256.
  symmetry. apply Z.add_nocarry_lor.
  apply Z.bits_inj'. intros n Hn. rewrite Z.land_spec, Z.bits_0.
  destruct (Z.lt_ge_cases n 8).
  - change 256 with (2 ^ 8). rewrite Z.mul_pow2_bits_low by lia. reflexivity.
  - replace b with (b mod 2 ^ 8) by (apply Z.mod_small; lia).
    rewrite Z.mod_pow2_bits_high by lia. apply andb_false_r.
Qed.

Lemma BigEndian_snoc bs b :
  BigEndian (bs ++ [b]) = BigEndian bs * 256 + byte_val b.
Proof.
  unfold BigEndian. rewrite fold_left_app. cbn [fold_left].
  apply lor_shiftl_octet, byte_val_range.
Qed.

Lemma BigEndian_PutBigEndian n v :
  BigEndian (Generator.PutBigEndian n v) = v mod 2 ^ (8 * Z.of_nat n).
Proof.
  revert v. induction n as [|n IH]; intros v.
  - cbn. now rewrite Z.mod_1_r.
  - cbn [Generator.PutBigEndian]. rewrite BigEndian_snoc, IH, byte_val_octet_of.
    replace (8 * Z.of_nat (Datatypes.S n)) with (8 + 8 * Z.of_nat n) by lia.
    rewrite Z.pow_add_r by lia. change (2 ^ 8) with 256.
    rewrite Z.shiftr_div_pow2 by lia. change (2 ^ 8) with 256.
    rewrite (Z.rem_mul_r v 256 (2 ^ (8 * Z.of_nat n))) by lia. lia.
Qed.

Lemma generated_frame_decodes (counter : Z) (payload tail : list byte) :
  length payload = 1008%nat ->
  exists crc,
    decodeCadu (Generator.body counter payload ++ tail) =
      (Some {| header := {| Word := 0x1ACFFC1D; Version := 1; Space := 23; Channel := 7;
                            Sequence := counter mod 2 ^ 24; Replay := false;
                            HControl := 0xFDC3; Data := 0x3FFF |};
               Payload := payload; Control := crc; Error := None |},
       None, tail).
Proof.
  intros Hpay. unfold Generator.body.
  set (pid := u16 _). set (fragment := Z.lor _ _).
  eexists.
  rewrite <- !app_assoc.
  rewrite decodeCadu_parts by (rewrite ?length_PutBigEndian; auto).
  set (covered := _ ++ _ ++ _ ++ _ ++ payload).
  assert (0 <= write_loop CCITT covered < 2 ^ 16) as Hcrc
    by (apply write_loop_range; unfold CCITT; lia).
  rewrite !BigEndian_PutBigEndian, calculateCRC_write_loop.
  change (8 * Z.of_nat 2) with 16. change (8 * Z.of_nat 4) with 32.
  rewrite (Z.mod_small (write_loop CCITT covered)) by lia.
  rewrite Z.eqb_refl.
  assert (fragment mod 2 ^ 32 = (counter mod 2 ^ 24) * 256) as ->.
  { subst fragment. unfold Generator.MaxSequenceCounter, Generator.DefaultReplay, u32.
    pose proof (Z.mod_pos_bound counter (2 ^ 24) ltac:(lia)).
    rewrite Z.shiftl_mul_pow2 by lia. change (0 mod 2 ^ 32) with 0. rewrite Z.lor_0_r.
    rewrite Z.mod_mod by lia. apply Z.mod_small. lia. }
  pose proof (Z.mod_pos_bound counter (2 ^ 24) ltac:(lia)) as Hc.
  rewrite !Z.shiftr_div_pow2 by lia.
  replace (counter mod 2 ^ 24 * 256 / 2 ^ 8) with (counter mod 2 ^ 24)
    by (change (2 ^ 8) with 256; now rewrite Z.div_mul by lia).
  replace (counter mod 2 ^ 24 * 256 / 2 ^ 7) with (2 * (counter mod 2 ^ 24))
    by (change (2 ^ 7) with 128; replace (counter mod 2 ^ 24 * 256)
          with (2 * (counter mod 2 ^ 24) * 128) by lia; now rewrite Z.div_mul by lia).
  replace (2 * (counter mod 2 ^ 24) =? 1) with false
    by (symmetry; apply Z.eqb_neq; lia).
  reflexivity.
Qed.

Lemma length_body counter payload :
  length (Generator.body counter payload) = (length payload + 16)%nat.
Proof.
  unfold Generator.body. rewrite !length_app, !length_PutBigEndian. lia.
Qed.

(** X2. A frame that the generator builds for the counter [counter] and a
    payload of 1008 octets decodes, whatever follows it in the input, to the
    CADU with sequence [counter mod 2^24], replay off, the generator's
    version, spacecraft, channel, control and pointer, that payload, and no
    checksum error; the input left is what followed. *)
Theorem decodeCadu_of_generated_frame (counter : Z) (payload tail : list byte) :
  length payload = 1008%nat ->
  exists crc,
    decodeCadu (Generator.body counter payload ++ tail) =
      (Some {| header := {| Word := 0x1ACFFC1D; Version := 1; Space := 23; Channel := 7;
                            Sequence := counter mod 2 ^ 24; Replay := false;
                            HControl := 0xFDC3; Data := 0x3FFF |};
               Payload := payload; Control := crc; Error := None |},
       None, tail).
Proof. apply generated_frame_decodes. Qed.

Lemma decodeCadu_of_generated_frame_witness :
  exists crc,
    decodeCadu (Generator.body 5 (repeat x00 1008) ++ [x01; x02]) =
      (Some {| header := {| Word := 0x1ACFFC1D; Version := 1; Space := 23; Channel := 7;
                            Sequence := 5 mod 2 ^ 24; Replay := false;
                            HControl := 0xFDC3; Data := 0x3FFF |};
               Payload := repeat x00 1008; Control := crc; Error := None |},
       None, [x01; x02]).
Proof. apply (decodeCadu_of_generated_frame 5 (repeat x00 1008) [x01; x02]). reflexivity. Defined.

(** A read takes its octets or, falling short, all there is. *)
Lemma binary_Read_rs_source n old w :
  (length (source (binary_Read read_rs n old w).2) <= length (source w) - n)%nat.
Proof.
  unfold binary_Read, read_rs, mbind, M_bind, mret, M_ret, ReadFull.
  destruct (Nat.leb_spec n (length (source w))); cbn [source snd length].
  - rewrite length_drop. lia.
  - lia.
Qed.

Lemma decodeCadu_short (r : list byte) :
  (length r < 1022)%nat ->
  exists e, decodeCadu r = (None, Some e, []) /\ (e = EOF \/ e = ErrUnexpectedEOF).
Proof.
  intros Hlen. unfold decodeCadu, ReadFull at 1.
  destruct (Nat.leb_spec 4 (length r)).
  2:{ destruct r; eexists; split; eauto. }
  unfold decodeBody, mbind, M_bind.
  set (w0 := {| source := drop 4 r; tee := Sum |}).
  pose proof (binary_Read_rs_source 2 0 w0) as H1.
  destruct (binary_Read read_rs 2 0 w0) as [[pid e1] w1].
  pose proof (binary_Read_rs_source 4 0 w1) as H2.
  destruct (binary_Read read_rs 4 0 w1) as [[seq e2] w2].
  pose proof (binary_Read_rs_source 2 0 w2) as H3.
  destruct (binary_Read read_rs 2 0 w2) as [[ctl e3] w3].
  pose proof (binary_Read_rs_source 2 0 w3) as H4.
  destruct (binary_Read read_rs 2 0 w3) as [[dat e4] w4].
  subst w0. cbn [source snd] in *. rewrite length_drop in H1.
  unfold read_rs, caduBodyLen. rewrite ReadFull_short by lia.
  cbn [mret M_ret fst snd source].
  destruct (source w4); eexists; split; eauto.
Qed.

(** X3. Input that ends before the payload is complete, that is with fewer
    than 1022 octets, gives an error, [EOF] or [ErrUnexpectedEOF], and no
    CADU, and is used up: the errors of the header reads are not looked at,
    that of the payload read is. *)
Theorem decodeCadu_of_short_input (r : list byte) :
  (length r < 1022)%nat ->
  exists e, decodeCadu r = (None, Some e, []) /\ (e = EOF \/ e = ErrUnexpectedEOF).
Proof. apply decodeCadu_short. Qed.

Lemma decodeCadu_of_short_input_witness :
  exists e, decodeCadu [x1a; xcf; xfc; x1d; x45] = (None, Some e, []) /\
            (e = EOF \/ e = ErrUnexpectedEOF).
Proof. apply (decodeCadu_of_short_input [x1a; xcf; xfc; x1d; x45]). cbn. lia. Defined.

Lemma decodeCadu_parts_cut (w pid seq ctl dat payload crc : list byte) :
  length w = 4%nat -> length pid = 2%nat -> length seq = 4%nat -> length ctl = 2%nat ->
  length dat = 2%nat -> length payload = 1008%nat -> (length crc < 2)%nat ->
  let got := write_loop CCITT (pid ++ seq ++ ctl ++ dat ++ payload) in
  decodeCadu (w ++ pid ++ seq ++ ctl ++ dat ++ payload ++ crc) =
    (Some {| header := {| Word := BigEndian w;
                          Version := u8 (Z.shiftr (Z.land (BigEndian pid) 0xC000) 14);
                          Space := u8 (Z.shiftr (Z.land (BigEndian pid) 0x3FC0) 6);
                          Channel := u8 (Z.land (BigEndian pid) 0x003F);
                          Sequence := Z.shiftr (BigEndian seq) 8;
                          Replay := Z.shiftr (BigEndian seq) 7 =? 1;
                          HControl := BigEndian ctl;
                          Data := BigEndian dat |};
             Payload := payload;
             Control := 0;
             Error := if got =? 0 then None else Some (ChecksumError 0 got) |},
     None, []).
Proof.
  intros Hw Hpid Hseq Hctl Hdat Hpay Hcrc got.
  unfold decodeCadu. rewrite ReadFull_app by assumption.
  unfold decodeBody, binary_Read, read_rs, read_r, get_Sum32, mbind, M_bind, mret, M_ret,
    caduBodyLen.
  cbn [source tee].
  repeat (rewrite ReadFull_app by assumption; cbn [source tee fst snd Write sum]).
  rewrite ReadFull_short by assumption. cbn [source tee fst snd Write sum].
  rewrite <- !write_loop_app.
  change (sum Sum) with CCITT.
  rewrite u16_Sum32 by (unfold CCITT; lia). reflexivity.
Qed.

Lemma decodeCadu_cut (r : list byte) :
  (1022 <= length r < 1024)%nat ->
  let got := sum (feed Sum [slice r 4 1022]) in
  exists c,
    decodeCadu r = (Some c, None, []) /\
    Sequence (header c) = Z.shiftr (BigEndian (slice r 6 10)) 8 /\
    Payload c = slice r 14 1022 /\
    Control c = 0 /\
    Error c = if got =? 0 then None else Some (ChecksumError 0 got).
Proof.
  intros Hlen got.
  assert (r = slice r 0 4 ++ slice r 4 6 ++ slice r 6 10 ++ slice r 10 12
              ++ slice r 12 14 ++ slice r 14 1022 ++ drop 1022 r) as Hr.
  { rewrite !app_assoc. rewrite !slice_next by lia. unfold slice.
    rewrite drop_0. change (1022 - 0)%nat with 1022%nat. now rewrite take_drop. }
  assert (forall a b, (a <= b)%nat -> (b <= 1022)%nat -> length (slice r a b) = (b - a)%nat)
    as Hs by (intros a b ? ?; unfold slice; rewrite length_take, length_drop; lia).
  eexists. split.
  { etransitivity; [apply (f_equal decodeCadu Hr)|].
    apply decodeCadu_parts_cut; rewrite ?Hs, ?length_drop; lia. }
  cbn [header Sequence Payload Control Error].
  rewrite !app_assoc, !slice_next by lia.
  repeat split.
Qed.

(** X4. Input that ends inside the CRC field, with 1022 or 1023 octets, still
    gives a CADU and no error: the failed read of the CRC is not looked at, so
    that the CADU has control 0 and is compared with the sum as if 0 were the
    CRC of the frame; the input is used up. *)
Theorem decodeCadu_of_input_cut_in_CRC (r : list byte) :
  (1022 <= length r < 1024)%nat ->
  let got := sum (feed Sum [slice r 4 1022]) in
  exists c,
    decodeCadu r = (Some c, None, []) /\
    Sequence (header c) = Z.shiftr (BigEndian (slice r 6 10)) 8 /\
    Payload c = slice r 14 1022 /\
    Control c = 0 /\
    Error c = if got =? 0 then None else Some (ChecksumError 0 got).
Proof. apply decodeCadu_cut. Qed.

Lemma decodeCadu_of_input_cut_in_CRC_witness :
  exists c,
    decodeCadu (firstn 1023 Samples.clean_frame) = (Some c, None, []) /\
    Control c = 0.
Proof.
  destruct (decodeCadu_of_input_cut_in_CRC (firstn 1023 Samples.clean_frame))
    as (c & Hc & _ & _ & Hctl & _).
  - vm_compute. lia.
  - exists c. split; assumption.
Defined.

Lemma length_body_1024 counter payload :
  length payload = 1008%nat -> length (Generator.body counter payload) = 1024%nat.
Proof. intros H. rewrite length_body, H. reflexivity. Qed.

(** X5. When [Builder.Read] succeeds it has taken 1008 octets from its input,
    put 1024 octets into the buffer and stepped its counter; the octets are a
    frame that the decoder reads back, whatever follows, as the CADU with
    sequence [counter mod 2^24], the 1008 octets taken, and no checksum
    error. *)
Theorem Builder_Read_gives_a_frame (b b' : Builder.Builder) (len_bs n : Z)
    (out tail : list byte) :
  Builder.Read b len_bs = (n, out, None, b') ->
  n = 1024 /\ length out = 1024%nat /\
  Builder.inner b = firstn 1008 (Builder.inner b) ++ Builder.inner b' /\
  length (firstn 1008 (Builder.inner b)) = 1008%nat /\
  Builder.counter b' = u32 (Builder.counter b + 1) /\
  Builder.limit b' = Builder.limit b /\
  exists c,
    decodeCadu (out ++ tail) = (Some c, None, tail) /\
    Sequence (header c) = Builder.counter b mod 2 ^ 24 /\
    Payload c = firstn 1008 (Builder.inner b) /\
    Error c = None.
Proof.
  unfold Builder.Read, Builder.CopyN, Builder.CaduLen, Generator.DefaultLength.
  destruct (_ && _); [discriminate|].
  destruct (Z.ltb_spec len_bs (14 + 2 + Z.of_nat 1008)); [discriminate|].
  destruct (Nat.ltb_spec (length (firstn 1008 (Builder.inner b))) 1008); [discriminate|].
  destruct (Z.ltb_spec (Z.of_nat (length (firstn 1008 (Builder.inner b)))) (Z.of_nat 1008));
    [discriminate|].
  assert (length (firstn 1008 (Builder.inner b)) = 1008%nat) as Hpay
    by (pose proof (firstn_le_length 1008 (Builder.inner b)); lia).
  rewrite copy_all by (rewrite length_body, Hpay; lia).
  rewrite length_body, Hpay.
  intros [= <- <- <-]. cbn [Builder.inner Builder.counter Builder.limit].
  split; [reflexivity|].
  split; [now apply length_body_1024|].
  split; [now rewrite take_drop|].
  split; [reflexivity|].
  split; [reflexivity|]. split; [reflexivity|].
  destruct (generated_frame_decodes (Builder.counter b) _ tail Hpay) as [crc Hdec].
  eexists. split; [exact Hdec|]. repeat split.
Qed.

Lemma Builder_Read_gives_a_frame_witness :
  let b := Builder.Build (repeat x2a 1008 ++ [x07]) 0 in
  exists c,
    decodeCadu (Generator.body 0 (repeat x2a 1008) ++ [x09]) = (Some c, None, [x09]) /\
    Sequence (header c) = Builder.counter b mod 2 ^ 24 /\
    Payload c = firstn 1008 (Builder.inner b) /\
    Error c = None.
Proof.
  intros b.
  apply (Builder_Read_gives_a_frame b
           {| Builder.inner := [x07]; Builder.limit := 0; Builder.counter := 1 |}
           32768 1024 (Generator.body 0 (repeat x2a 1008)) [x09]).
  vm_compute. reflexivity.
Defined.

(** X6. When [Builder.Read] fails it has put nothing into the buffer.  The
    error is never [ErrShortWrite]; with [ErrShortBuffer] nothing has
    happened; with [EOF] either the limit was reached and nothing has
    happened, or the input held fewer than 1008 octets: it is then used up and
    the count returned is the number of octets it held, none of which is in
    the buffer. *)
Theorem Builder_Read_errors (b b' : Builder.Builder) (len_bs n : Z) (out : list byte)
    (e : Builder.io_error) :
  Builder.Read b len_bs = (n, out, Some e, b') ->
  out = [] /\ e <> Builder.ErrShortWrite /\
  (e = Builder.ErrShortBuffer -> n = 0 /\ b' = b /\ len_bs < 1024) /\
  (e = Builder.EOF ->
   (n = 0 /\ b' = b /\ 0 < Builder.limit b <= Builder.counter b) \/
   (n = Z.of_nat (length (Builder.inner b)) /\ n < 1008 /\ Builder.inner b' = [] /\
    Builder.counter b' = Builder.counter b)).
Proof.
  unfold Builder.Read, Builder.CopyN, Builder.CaduLen, Generator.DefaultLength.
  assert (forall n0 b0,
            (n0, ([] : list byte), Some Builder.ErrShortBuffer, b0) = (n, out, Some e, b') ->
            n0 = 0 -> b0 = b -> len_bs < 1024 ->
            out = [] /\ e <> Builder.ErrShortWrite /\
            (e = Builder.ErrShortBuffer -> n = 0 /\ b' = b /\ len_bs < 1024) /\
            (e = Builder.EOF ->
             (n = 0 /\ b' = b /\ 0 < Builder.limit b <= Builder.counter b) \/
             (n = Z.of_nat (length (Builder.inner b)) /\ n < 1008 /\ Builder.inner b' = [] /\
              Builder.counter b' = Builder.counter b))) as Hshort.
  { intros n0 b0 [= <- <- <- <-] -> -> Hlt.
    split; [reflexivity|]. split; [discriminate|]. split; [auto|discriminate]. }
  destruct (Z.gtb_spec (Builder.limit b) 0), (Z.geb_spec (Builder.counter b) (Builder.limit b));
    cbn [andb].
  1:{ intros [= <- <- <- <-].
      split; [reflexivity|]. split; [discriminate|]. split; [discriminate|].
      intros _. left. repeat split; lia. }
  all: destruct (Z.ltb_spec len_bs (14 + 2 + Z.of_nat 1008));
    [intros Heq; apply (Hshort _ _ Heq); [reflexivity|reflexivity|lia]|].
  all: destruct (Nat.ltb_spec (length (firstn 1008 (Builder.inner b))) 1008) as [Hlt|Hge];
    [|destruct (Z.ltb_spec (Z.of_nat (length (firstn 1008 (Builder.inner b)))) (Z.of_nat 1008));
      [lia|discriminate]].
  all: intros [= <- <- <- <-]; rewrite length_take in Hlt |- *.
  all: split; [reflexivity|]; split; [discriminate|]; split; [discriminate|].
  all: intros _; right; cbn [Builder.inner Builder.counter].
  all: rewrite drop_ge by lia; repeat split; lia.
Qed.

Lemma Builder_Read_errors_witness :
  let b := Builder.Build (repeat x2a 1000) 0 in
  Builder.Read b 32768 = (1000, [], Some Builder.EOF,
                         {| Builder.inner := []; Builder.limit := 0; Builder.counter := 0 |}) /\
  ([] : list byte) = [] /\ Builder.EOF <> Builder.ErrShortWrite.
Proof.
  intros b. split; [vm_compute; reflexivity|].
  refine (let H := Builder_Read_errors b _ 32768 1000 [] Builder.EOF _ in
          conj (proj1 H) (proj1 (proj2 H))).
  vm_compute. reflexivity.
Defined.

(** X7. The frames that the generator builds for a counter and for the next
    one decode to CADUs between which the lister counts no missing CADU,
    unless the sequence wraps: from 0xFFFFFF to 0 it counts 16777215. *)
Theorem Missing_between_generated_frames (k : Z) (p1 p2 t1 t2 : list byte) (c1 c2 : Cadu) :
  length p1 = 1008%nat -> length p2 = 1008%nat ->
  decodeCadu (Generator.body k p1) = (Some c1, None, t1) ->
  decodeCadu (Generator.body (k + 1) p2) = (Some c2, None, t2) ->
  Missing c2 (Some c1) = if (k + 1) mod 2 ^ 24 =? 0 then 2 ^ 24 - 1 else 0.
Proof.
  intros Hp1 Hp2 H1 H2.
  destruct (generated_frame_decodes k p1 [] Hp1) as [crc1 D1].
  destruct (generated_frame_decodes (k + 1) p2 [] Hp2) as [crc2 D2].
  rewrite app_nil_r in D1, D2. rewrite D1 in H1. rewrite D2 in H2.
  injection H1 as <- _. injection H2 as <- _.
  pose proof (Z.mod_pos_bound k (2 ^ 24) ltac:(lia)) as Hk.
  pose proof (Z.mod_pos_bound (k + 1) (2 ^ 24) ltac:(lia)) as Hk1.
  rewrite Missing_distance by (unfold seq_of; cbn [header Sequence]; lia).
  unfold seq_of. cbn [header Sequence].
  assert ((k + 1) mod 2 ^ 24 = (k mod 2 ^ 24 + 1) mod 2 ^ 24) as Hstep
    by (rewrite Z.add_mod_idemp_l by lia; reflexivity).
  destruct (Z.eqb_spec ((k + 1) mod 2 ^ 24) 0) as [Hz|Hnz].
  - assert (k mod 2 ^ 24 = 2 ^ 24 - 1) as Hmax.
    { destruct (Z.eq_dec (k mod 2 ^ 24) (2 ^ 24 - 1)); [assumption|].
      rewrite (Z.mod_small (k mod 2 ^ 24 + 1)) in Hstep by lia. lia. }
    rewrite Hz, Hmax. reflexivity.
  - assert ((k + 1) mod 2 ^ 24 = k mod 2 ^ 24 + 1) as ->.
    { destruct (Z.eq_dec (k mod 2 ^ 24) (2 ^ 24 - 1)) as [Hmax|Hne].
      - rewrite Hmax in Hstep. change ((2 ^ 24 - 1 + 1) mod 2 ^ 24) with 0 in Hstep. lia.
      - rewrite Hstep. apply Z.mod_small. lia. }
    replace (k mod 2 ^ 24 + 1 - k mod 2 ^ 24) with 1 by lia. reflexivity.
Qed.

Lemma Missing_between_generated_frames_witness :
  exists c1 c2,
    decodeCadu (Generator.body (2 ^ 24 - 1) (repeat x00 1008)) = (Some c1, None, []) /\
    decodeCadu (Generator.body (2 ^ 24 - 1 + 1) (repeat x00 1008)) = (Some c2, None, []) /\
    Missing c2 (Some c1) = 2 ^ 24 - 1.
Proof.
  destruct (generated_frame_decodes (2 ^ 24 - 1) (repeat x00 1008) [] eq_refl) as [crc1 D1].
  destruct (generated_frame_decodes (2 ^ 24 - 1 + 1) (repeat x00 1008) [] eq_refl)
    as [crc2 D2].
  rewrite app_nil_r in D1, D2.
  eexists. eexists. split; [exact D1|]. split; [exact D2|].
  rewrite (Missing_between_generated_frames (2 ^ 24 - 1) (repeat x00 1008) (repeat x00 1008)
             [] [] _ _ eq_refl eq_refl D1 D2).
  reflexivity.
Defined.

End Frames.

(** ** The gap tracker, whatever the order of arrival *)

Section Distance.

Import Lister.

(** X8. The count between two CADUs does not depend on which of the two is
    taken as the previous one. *)
Theorem Missing_is_symmetric (c p : Cadu) :
  Missing c (Some p) = Missing p (Some c).
Proof.
  destruct (Z.lt_trichotomy (seq_of p) (seq_of c)) as [Hlt|[Heq|Hgt]].
  - symmetry. apply Missing_swapped. lia.
  - rewrite !Missing_ordered by lia. now rewrite Heq.
  - apply Missing_swapped. lia.
Qed.

(** X9. On the sequences that the decoder produces, which have 24 bits, the
    count is the distance between the two sequences when that is 2 or more,
    and 0 when it is 0 or 1: a repeated CADU and the next CADU count nothing,
    and the count is 0 in these two cases only. *)
Theorem Missing_counts_the_distance (c p : Cadu) :
  0 <= seq_of c < 2 ^ 24 -> 0 <= seq_of p < 2 ^ 24 ->
  let d := Z.abs (seq_of c - seq_of p) in
  (2 <= d -> Missing c (Some p) = d) /\
  (d <= 1 -> Missing c (Some p) = 0) /\
  (Missing c (Some p) = 0 -> d <= 1) /\
  0 <= Missing c (Some p) < 2 ^ 24.
Proof.
  intros Hc Hp d. rewrite Missing_distance by assumption. fold d.
  destruct (Z.gtb_spec d 1); repeat split; intros; lia.
Qed.

Lemma Missing_counts_the_distance_witness :
  let cadu s := {| header := {| Word := 0x1ACFFC1D; Version := 1; Space := 23; Channel := 7;
                               Sequence := s; Replay := false; HControl := 0xFDC3;
                               Data := 0x3FFF |};
                   Payload := repeat x00 1008; Control := 0; Error := None |} in
  Missing (cadu 10) (Some (cadu 14)) = 4.
Proof.
  intros cadu.
  apply (Missing_counts_the_distance (cadu 10) (cadu 14)); cbn; lia.
Defined.

(** X10. On 24-bit sequences the mask changes nothing: the method of the
    lister and the one of the UDP reassembler, which has no mask, count the
    same. *)
Theorem Missing_mask_changes_nothing (c : Cadu) (p : option Cadu) :
  0 <= seq_of c < 2 ^ 24 ->
  (forall q, p = Some q -> 0 <= seq_of q < 2 ^ 24) ->
  Assembler.Missing c p = Missing c p.
Proof.
  intros Hc Hp. destruct p as [p|]; [|now simp Missing].
  specialize (Hp p eq_refl).
  rewrite first_Missing_pair, Missing_pair.
  destruct (Z.gtb_spec (seq_of p) (seq_of c)); cbv zeta.
  - rewrite mask24_small by lia. unfold u32.
    rewrite (Z.mod_small (seq_of c + 1)), (Z.mod_small (seq_of p - seq_of c)) by lia.
    destruct (Z.eqb_spec (seq_of c + 1) (seq_of p)), (Z.gtb_spec (seq_of p - seq_of c) 1);
      cbn [negb]; lia.
  - rewrite mask24_small by lia. unfold u32.
    rewrite (Z.mod_small (seq_of p + 1)), (Z.mod_small (seq_of c - seq_of p)) by lia.
    destruct (Z.eqb_spec (seq_of p + 1) (seq_of c)), (Z.gtb_spec (seq_of c - seq_of p) 1);
      cbn [negb]; lia.
Qed.

Lemma Missing_mask_changes_nothing_witness :
  let cadu s := {| header := {| Word := 0x1ACFFC1D; Version := 1; Space := 23; Channel := 7;
                               Sequence := s; Replay := false; HControl := 0xFDC3;
                               Data := 0x3FFF |};
                   Payload := repeat x00 1008; Control := 0; Error := None |} in
  Assembler.Missing (cadu 1) (Some (cadu 0xFFFFFE)) = Missing (cadu 1) (Some (cadu 0xFFFFFE)).
Proof.
  intros cadu.
  apply (Missing_mask_changes_nothing (cadu 1) (Some (cadu 0xFFFFFE))).
  - cbn. lia.
  - intros q [= <-]. cbn. lia.
Defined.

End Distance.

(** ** The reader of the reassembler: when it emits, what it keeps *)

Section CopyOut.

Import Reassembler.

(** X11. With room in the destination, [copyHRDL] copies something out
    exactly when the buffer has 8 octets or more, begins with the sync word
    and holds another sync word from the offset where the search starts; when
    it copies nothing it leaves the reader as it was. *)
Theorem copyHRDL_emits_exactly_when (r : reader) (xs : list byte) (len_bs : Z) :
  0 < len_bs ->
  let offset := Z.of_nat (length xs) - defaultOffset in
  let offset := if offset <=? 0 then 4 else offset in
  let found := 0 <=? Index (skipn (Z.to_nat offset) xs) Word in
  ((0 < length (copyHRDL r xs len_bs).1)%nat <->
   (8 <= length xs)%nat /\ firstn 4 xs = Word /\ found = true) /\
  ((copyHRDL r xs len_bs).1 = [] -> (copyHRDL r xs len_bs).2 = r).
Proof.
  intros Hbs offset0 offset found.
  destruct (Nat.ltb_spec (length xs) 8) as [Hshort|Hlen].
  { unfold copyHRDL. destruct (Nat.ltb_spec (length xs) 8); [|lia]. cbn [orb fst snd length].
    split; [split; [lia|intros (? & _); lia]|reflexivity]. }
  destruct (Equal (firstn (length Word) xs) Word) eqn:Heq.
  2:{ unfold copyHRDL. rewrite Heq, orb_true_r. cbn [fst snd length].
      split; [split; [lia|]|reflexivity].
      intros (_ & Hw & _). change (length Word) with 4%nat in Heq.
      rewrite Hw, Equal_refl in Heq. discriminate. }
  apply Equal_true in Heq. change (length Word) with 4%nat in Heq.
  destruct (Z.leb_spec 0 (Index (skipn (Z.to_nat offset) xs) Word)) as [Hix|Hno];
    subst found.
  - destruct (copyHRDL_found r xs len_bs Hlen Heq Hix) as (Hc & Hz & _).
    fold offset0 offset in Hc, Hz. rewrite Hc. cbn [fst snd].
    pose proof (LittleEndian_nonneg (slice xs 4 8)).
    assert (0 < length (copy len_bs (firstn (Z.to_nat
              (if LittleEndian (slice xs 4 8) + 12 >? Index (skipn (Z.to_nat offset) xs) Word + offset
               then Index (skipn (Z.to_nat offset) xs) Word + offset
               else LittleEndian (slice xs 4 8) + 12)) xs)))%nat as Hout.
    { unfold copy. rewrite !length_take.
      destruct (Z.gtb_spec (LittleEndian (slice xs 4 8) + 12)
                  (Index (skipn (Z.to_nat offset) xs) Word + offset)); lia. }
    split; [split; [intros _; repeat split; [lia|assumption]|intros _; exact Hout]|].
    intros Hnil. rewrite Hnil in Hout. cbn in Hout. lia.
  - unfold copyHRDL. destruct (Nat.ltb_spec (length xs) 8); [lia|].
    change (length Word) with 4%nat. rewrite Heq, Equal_refl. cbn [negb orb].
    fold offset0. change (Z.of_nat 4) with 4. fold offset.
    destruct (Z.ltb_spec (Index (skipn (Z.to_nat offset) xs) Word) 0); [|lia].
    cbn [fst snd length].
    split; [split; [lia|intros (_ & _ & ?); discriminate]|reflexivity].
Qed.

Lemma copyHRDL_emits_exactly_when_witness :
  (0 < length (copyHRDL (NewReader [] false) Samples.short_packet_buffer bufLen).1)%nat.
Proof.
  apply (copyHRDL_emits_exactly_when (NewReader [] false) Samples.short_packet_buffer bufLen).
  - reflexivity.
  - split; [vm_compute; lia|]. split; reflexivity.
Defined.

(** X12. Let [z] be where the search of [copyHRDL] finds a sync word: the
    first one from [len(xs) - 1012] on, or from 4 on when that is not
    positive; sync words before that place are not looked at.  When the
    declared length [size + 12] is not smaller than [z] (and [z] octets fit
    the destination), [copyHRDL] copies out the [z] octets before that sync
    word and writes the others to [rest]: no octet of the buffer is lost by
    this call, and what is retained begins with the sync word. *)
Theorem copyHRDL_keeps_all_up_to_sync (r : reader) (xs : list byte) (len_bs : Z) :
  (8 <= length xs)%nat -> firstn 4 xs = Word ->
  let offset := Z.of_nat (length xs) - defaultOffset in
  let offset := if offset <=? 0 then 4 else offset in
  let ix := Index (skipn (Z.to_nat offset) xs) Word in
  0 <= ix ->
  let z := Z.to_nat (ix + offset) in
  (z <= Z.to_nat (LittleEndian (slice xs 4 8) + 12))%nat -> Z.of_nat z <= len_bs ->
  exists out r',
    copyHRDL r xs len_bs = (out, r') /\
    out ++ skipn z xs = xs /\
    length out = z /\
    rest r' = rest r ++ skipn z xs /\
    firstn 4 (skipn z xs) = Word.
Proof.
  intros Hlen Hw offset0 offset ix Hix z Hdecl Hfit.
  destruct (copyHRDL_found r xs len_bs Hlen Hw Hix) as (Hc & Hz & Hp).
  fold offset0 offset ix in Hc, Hz, Hp. fold z in Hp.
  pose proof (LittleEndian_nonneg (slice xs 4 8)) as Hle.
  eexists. eexists. split; [exact Hc|].
  assert ((if LittleEndian (slice xs 4 8) + 12 >? ix + offset then ix + offset
           else LittleEndian (slice xs 4 8) + 12) = ix + offset) as ->
    by (destruct (Z.gtb_spec (LittleEndian (slice xs 4 8) + 12) (ix + offset)); lia).
  fold z. rewrite copy_all by (rewrite length_take; lia).
  cbn [rest]. split; [apply take_drop|]. split; [rewrite length_take; lia|].
  split; [reflexivity|]. now apply HasPrefix_take in Hp.
Qed.

Lemma copyHRDL_keeps_all_up_to_sync_witness :
  let xs := Word ++ [x10; x00; x00; x00; x05; x61] ++ Word ++ [x00; x00; x00; x00] in
  exists out r',
    copyHRDL (NewReader [] false) xs bufLen = (out, r') /\
    out ++ skipn 10 xs = xs /\
    length out = 10%nat /\
    rest r' = [] ++ skipn 10 xs /\
    firstn 4 (skipn 10 xs) = Word.
Proof.
  intros xs.
  apply (copyHRDL_keeps_all_up_to_sync (NewReader [] false) xs bufLen).
  - vm_compute. lia.
  - reflexivity.
  - vm_compute. discriminate.
  - vm_compute. lia.
  - vm_compute. discriminate.
Defined.

(** X13. A [Read] that emits a slice leaves at least four octets fewer,
    retained and still to be read, than it found: no slice comes for free. *)
Theorem Read_takes_four_octets_or_more (r r' : reader) (len_bs : Z) (out : list byte) :
  0 < len_bs ->
  Read r len_bs = (inl out, r') ->
  (length (rest r') + length (inner r') + 4 <= length (rest r) + length (inner r))%nat.
Proof.
  intros room. unfold Read.
  set (r0 := {| inner := inner r; rest := []; skip := skip r |}).
  destruct (copyHRDL r0 (rest r) len_bs) as [out1 r1] eqn:Hcopy.
  destruct (copyHRDL_progress r0 (rest r) len_bs out1 r1 room eq_refl Hcopy)
    as [[-> ->]|(Hout & Hin & Hlen)].
  - cbn [length Nat.ltb Nat.leb]. intros Hloop.
    apply (seek_loop_progress len_bs room (Datatypes.S (length (inner r0)))) in Hloop;
      [|lia|reflexivity].
    subst r0. cbn [inner] in Hloop. lia.
  - destruct (Nat.ltb_spec 0 (length out1)); [|lia].
    intros [= <- <-]. rewrite Hin. subst r0. cbn [inner]. lia.
Qed.

Lemma Read_takes_four_octets_or_more_witness :
  (1004 + 0 + 4 <= 0 + length Samples.twin_sync_stream)%nat.
Proof.
  refine (Read_takes_four_octets_or_more (NewReader Samples.twin_sync_stream false)
            {| inner := []; rest := skipn 4 (Samples.pad 1008 (Word ++ Word)); skip := 0 |}
            bufLen Word _ _).
  - reflexivity.
  - vm_compute. reflexivity.
Defined.



Section AtTheEnd.

Variable len_bs : Z.
Hypothesis room : 0 < len_bs.



End AtTheEnd.



(** X15. The stuffing reversal of the second loop leaves the length of the
    buffer and the octets before the last [caduPacketLen] as they are. *)
Theorem unstuff_keeps_length_and_head (xs : list byte) :
  length (unstuff xs) = length xs /\
  firstn (length xs - caduPacketLen) (unstuff xs) = firstn (length xs - caduPacketLen) xs.
Proof.
  split; [apply unstuff_length|].
  unfold unstuff.
  set (offset := if Z.of_nat (length xs) - Z.of_nat caduPacketLen <? 0 then 0
                 else Z.of_nat (length xs) - Z.of_nat caduPacketLen).
  assert (Z.to_nat offset = (length xs - caduPacketLen)%nat) as ->.
  { subst offset. destruct (Z.ltb_spec (Z.of_nat (length xs) - Z.of_nat caduPacketLen) 0); lia. }
  rewrite take_app_le by (rewrite length_take; lia).
  rewrite take_take. f_equal. lia.
Qed.


End CopyOut.

(** ** The accounting of reassemble *)

Section Accounting.

Import Reassembler.

Lemma from_Some vs lo :
  0 <= lo <= Z.of_nat (length vs) -> from vs lo = Some (skipn (Z.to_nat lo) vs).
Proof.
  intros H. unfold from.
  destruct (Z.ltb_spec lo 0); [lia|]. destruct (Z.ltb_spec (Z.of_nat (length vs)) lo); [lia|].
  reflexivity.
Qed.

Lemma from_None vs lo : Z.of_nat (length vs) < lo -> from vs lo = None.
Proof.
  intros H. unfold from.
  destruct (Z.ltb_spec lo 0); [reflexivity|].
  now destruct (Z.ltb_spec (Z.of_nat (length vs)) lo); [|lia].
Qed.

Lemma Uint32_Some b : (4 <= length b)%nat -> Uint32 b = Some (LittleEndian (firstn 4 b)).
Proof. intros H. unfold Uint32. now destruct (Nat.ltb_spec (length b) 4); [lia|]. Qed.

Lemma Uint32_None b : (length b < 4)%nat -> Uint32 b = None.
Proof. intros H. unfold Uint32. now destruct (Nat.ltb_spec (length b) 4); [|lia]. Qed.

(** Past the key, the body of the loop panics exactly on a slice that ends
    before the sequence counter does. *)
Lemma account_panics (by_ : byFunc) vs status reports k six :
  by_ vs = Some (k, six) -> (8 <= length vs)%nat ->
  account by_ vs status reports = None <-> (length vs < six + 4)%nat.
Proof.
  intros Hby Hlen. unfold account. rewrite Hby. cbn [mbind option_bind].
  rewrite (from_Some vs (Z.of_nat (length vs) - 4)) by lia. cbn [mbind option_bind].
  rewrite Uint32_Some by (rewrite length_drop; lia). cbn [mbind option_bind].
  rewrite (from_Some vs 4) by lia. cbn [mbind option_bind].
  rewrite Uint32_Some by (rewrite length_drop; lia). cbn [mbind option_bind].
  destruct (Nat.lt_ge_cases (length vs) (six + 4)) as [Hshort|Hlong].
  - split; [intros _; assumption|intros _].
    destruct (Nat.lt_ge_cases (length vs) six).
    + now rewrite from_None by lia.
    + rewrite from_Some by lia. cbn [mbind option_bind].
      now rewrite Uint32_None by (rewrite length_drop; lia).
  - rewrite from_Some by lia. cbn [mbind option_bind].
    rewrite Uint32_Some by (rewrite length_drop; lia). cbn [mbind option_bind].
    split; [discriminate|lia].
Qed.

(** X17. The body of the loop of [reassemble] panics, on an index out of
    range, exactly when the slice has fewer than 16 octets under the selector
    by channel, and fewer than 48 under the selector by origin. *)
Theorem account_panics_on_short_slices (vs : list byte)
    (status : gmap Z Coze) (reports : gmap Z Counter) :
  (account by_channel vs status reports = None <-> (length vs < 16)%nat) /\
  (account by_origin vs status reports = None <-> (length vs < 48)%nat).
Proof.
  split.
  - destruct (vs !! 8%nat) as [b|] eqn:Hb.
    + pose proof (lookup_lt_Some _ _ _ Hb).
      rewrite (account_panics by_channel vs status reports (u16 (byte_val b)) 12);
        [lia| |lia].
      unfold by_channel. now rewrite Hb.
    + pose proof (lookup_ge_None_1 _ _ Hb).
      split; [lia|intros _]. unfold account, by_channel. now rewrite Hb.
  - destruct (vs !! 47%nat) as [o|] eqn:Ho.
    + pose proof (lookup_lt_Some _ _ _ Ho).
      destruct (vs !! 9%nat) as [s|] eqn:Hs;
        [|apply lookup_ge_None_1 in Hs; lia].
      rewrite (account_panics by_origin vs status reports
                 (Z.lor (u16 (Z.shiftl (u16 (byte_val s)) 8)) (u16 (byte_val o))) 27);
        [lia| |lia].
      unfold by_origin. now rewrite Hs, Ho.
    + pose proof (lookup_ge_None_1 _ _ Ho).
      split; [lia|intros _]. unfold account, by_origin. rewrite Ho.
      now destruct (vs !! 9%nat).
Qed.

(** The key of a slice enters both maps. *)
Lemma account_dom (by_ : byFunc) vs (status status' : gmap Z Coze)
    (reports reports' : gmap Z Counter) :
  account by_ vs status reports = Some (status', reports') ->
  exists k six, by_ vs = Some (k, six) /\
    dom status' = {[k]} ∪ dom status /\ dom reports' = {[k]} ∪ dom reports.
Proof.
  unfold account. destruct (by_ vs) as [[k six]|]; [|discriminate]. cbn [mbind option_bind].
  destruct (from vs (Z.of_nat (length vs) - 4)) as [tail|]; [|discriminate].
  cbn [mbind option_bind].
  destruct (Uint32 tail) as [want|]; [|discriminate]. cbn [mbind option_bind].
  destruct (from vs 4) as [b4|]; [|discriminate]. cbn [mbind option_bind].
  destruct (Uint32 b4) as [z|]; [|discriminate]. cbn [mbind option_bind].
  destruct (from vs (Z.of_nat six)) as [b6|]; [|discriminate]. cbn [mbind option_bind].
  destruct (Uint32 b6) as [seq|]; [|discriminate]. cbn [mbind option_bind].
  intros [= <- <-]. exists k, six. split; [reflexivity|].
  now rewrite !dom_insert_L.
Qed.

Section AnyReader.

Context {R : Type} `{Reader R}.

(** X18. Whatever the reader and the selector, the two maps that [reassemble]
    returns have the same keys: a key that has a status has a report, and the
    other way round. *)
Theorem reassemble_loop_keeps_the_keys (turns : nat) :
  forall (by_ : byFunc) (rs : R) (xs : list byte)
         (status status' : gmap Z Coze) (reports reports' : gmap Z Counter),
  dom status = dom reports ->
  reassemble_loop turns by_ rs xs status reports = Returned status' reports' ->
  dom status' = dom reports'.
Proof.
  induction turns as [|turns IH]; intros by_ rs xs status status' reports reports' Hdom;
    [discriminate|].
  cbn [reassemble_loop].
  destruct (io_Read rs bufLen) as [[out err] rs'].
  destruct err as [[]|].
  1-5: try discriminate; intros [= <- <-]; assumption.
  destruct (length out =? 0)%nat; [intros [= <- <-]; assumption|].
  destruct (negb _); [discriminate|].
  destruct (_ >=? _); [discriminate|].
  destruct (account by_ out status reports) as [[status1 reports1]|] eqn:Hacc; [|discriminate].
  apply account_dom in Hacc as (k & six & _ & Hs & Hr).
  apply IH. rewrite Hs, Hr, Hdom. reflexivity.
Qed.

End AnyReader.

Lemma reassemble_loop_keeps_the_keys_witness :
  exists status' reports',
    reassemble Samples.twice_stuffed_stream false by_channel = Returned status' reports' /\
    dom status' = dom reports'.
Proof.
  unfold reassemble.
  destruct (reassemble_loop (Datatypes.S (length Samples.twice_stuffed_stream)) by_channel
              (NewReader Samples.twice_stuffed_stream false) [] ∅ ∅)
    as [status' reports'| | |] eqn:Hrun; try (vm_compute in Hrun; discriminate).
  exists status', reports'. split; [reflexivity|].
  assert (dom (∅ : gmap Z Coze) = dom (∅ : gmap Z Counter)) as Hdom
    by now rewrite !dom_empty_L.
  apply (reassemble_loop_keeps_the_keys (Datatypes.S (length Samples.twice_stuffed_stream))
           by_channel (NewReader Samples.twice_stuffed_stream false) [] ∅ status' ∅
           reports' Hdom Hrun).
Defined.

End Accounting.

(** ** The HRDL checksum and the headers of the UDP reassembler *)

Section Hrdl.

Import UdpReassembler.

Lemma add_octets_total s bs :
  0 <= s < 2 ^ 32 ->
  add_octets s bs = (s + fold_right Z.add 0 (map byte_val bs)) mod 2 ^ 32.
Proof.
  revert s. induction bs as [|b bs IH]; intros s Hs; cbn [add_octets map fold_right].
  - rewrite Z.add_0_r. symmetry. now apply Z.mod_small.
  - pose proof (byte_val_range b).
    unfold u32 at 2. rewrite (Z.mod_small (byte_val b)) by lia.
    rewrite IH by (apply Z.mod_pos_bound; lia).
    unfold u32. rewrite Z.add_mod_idemp_l by lia. f_equal. lia.
Qed.

Lemma add_octets_app s bs cs : add_octets s (bs ++ cs) = add_octets (add_octets s bs) cs.
Proof. revert s. induction bs as [|b bs IH]; intros s; cbn [add_octets app]; auto. Qed.

Lemma Write_chunks v chunks :
  sum (fold_left (fun v bs => fst (Write v bs)) chunks v) = add_octets (sum v) (concat chunks).
Proof.
  revert v. induction chunks as [|c chunks IH]; intros v; cbn [fold_left concat]; [reflexivity|].
  rewrite IH. cbn [Write fst sum]. now rewrite add_octets_app.
Qed.

Lemma total_Permutation (bs cs : list byte) :
  Permutation bs cs -> fold_right Z.add 0 (map byte_val bs) = fold_right Z.add 0 (map byte_val cs).
Proof. induction 1; cbn [map fold_right]; lia. Qed.

(** X19. However the octets are cut into the slices given to [Write], [Sum32]
    is the sum of all of them as numbers, modulo 2^32; so that it is the same
    for the same octets in any order. *)
Theorem vmuSum_adds_the_octets (chunks : list (list byte)) :
  Sum32 (fold_left (fun v bs => fst (Write v bs)) chunks Sum)
  = fold_right Z.add 0 (map byte_val (concat chunks)) mod 2 ^ 32
  /\ forall bs, Permutation (concat chunks) bs ->
       Sum32 (fold_left (fun v bs => fst (Write v bs)) chunks Sum) = Sum32 (fst (Write Sum bs)).
Proof.
  unfold Sum32. rewrite Write_chunks. cbn [Sum sum Write fst].
  split; [now rewrite add_octets_total by lia|].
  intros bs Hp. rewrite !add_octets_total by lia. now rewrite (total_Permutation _ _ Hp).
Qed.

Lemma vmu_sum_add_octets bs s :
  fold_left (fun sum b => u32 (sum + byte_val b)) bs s = add_octets s bs.
Proof.
  revert s. induction bs as [|b bs IH]; intros s; cbn [fold_left add_octets]; [reflexivity|].
  rewrite IH. pose proof (byte_val_range b).
  unfold u32 at 3. now rewrite (Z.mod_small (byte_val b)) by lia.
Qed.

(** *** The reads of [debugHRDLHeaders] *)

Lemma read_r_app a rest d n :
  length a = n ->
  read_r n {| input := a ++ rest; digest := d |}
  = ((a, None), {| input := rest; digest := d |}).
Proof. intros Hn. unfold read_r. cbn [input digest]. now rewrite (ReadFull_app a rest n Hn). Qed.

Lemma read_rs_app a rest d n :
  length a = n ->
  read_rs n {| input := a ++ rest; digest := d |}
  = ((a, None), {| input := rest; digest := {| sum := add_octets (sum d) a |} |}).
Proof. intros Hn. unfold read_rs. cbn [input digest]. now rewrite (ReadFull_app a rest n Hn). Qed.

Lemma CopyN_app a rest d :
  CopyN (Z.of_nat (length a)) {| input := a ++ rest; digest := d |}
  = ((Z.of_nat (length a), None),
     {| input := rest; digest := {| sum := add_octets (sum d) a |} |}).
Proof.
  unfold CopyN. cbn [input digest].
  rewrite length_app.
  replace (Z.to_nat (Z.min _ _)) with (length a) by lia.
  rewrite take_app_length, drop_app_length, Z.ltb_irrefl. reflexivity.
Qed.

(** A packet by its fields. *)
Lemma scanHeaders_parts n (lenb ch og sp1 cnt coarse fine sp2 data dig tail : list byte) :
  length lenb = 4%nat -> length ch = 1%nat -> length og = 1%nat -> length sp1 = 2%nat ->
  length cnt = 4%nat -> length coarse = 4%nat -> length fine = 2%nat -> length sp2 = 2%nat ->
  u32 (Reassembler.LittleEndian lenb - 16) = Z.of_nat (length data) ->
  length dig = 4%nat ->
  fst (scanHeaders n {| input := HRDLMagic ++ lenb ++ ch ++ og ++ sp1 ++ cnt ++ coarse ++ fine
                                  ++ sp2 ++ data ++ dig ++ tail;
                        digest := Sum |})
  = (Some {| row_len := n; row_sync := BigEndian HRDLMagic;
             row_length := Reassembler.LittleEndian lenb;
             row_channel := Reassembler.LittleEndian ch;
             row_origin := Reassembler.LittleEndian og;
             row_counter := Reassembler.LittleEndian cnt;
             row_valid := add_octets 0 (ch ++ og ++ sp1 ++ cnt ++ coarse ++ fine ++ sp2 ++ data)
                          =? Reassembler.LittleEndian dig |},
     tail, None).
Proof.
  intros Hl Hch Hog Hs1 Hcnt Hco Hfi Hs2 Hdata Hdig.
  unfold scanHeaders, binary_Read_as, mbind, OnScan_bind, mret, OnScan_ret.
  rewrite (read_r_app HRDLMagic _ _ 4 eq_refl).
  rewrite Z.eqb_refl. cbn [negb].
  rewrite (read_r_app lenb _ _ 4 Hl).
  rewrite (read_rs_app ch _ _ 1 Hch).
  rewrite (read_rs_app og _ _ 1 Hog).
  rewrite (read_rs_app sp1 _ _ 2 Hs1).
  rewrite (read_rs_app cnt _ _ 4 Hcnt).
  rewrite (read_rs_app coarse _ _ 4 Hco).
  rewrite (read_rs_app fine _ _ 2 Hfi).
  rewrite (read_rs_app sp2 _ _ 2 Hs2).
  rewrite Hdata, CopyN_app.
  rewrite (read_r_app dig _ _ 4 Hdig).
  unfold get_Sum32, read_rest, Sum32. cbn [input digest sum fst Sum].
  rewrite !add_octets_app. reflexivity.
Qed.

Lemma LittleEndian_range bs :
  0 <= Reassembler.LittleEndian bs < 2 ^ (8 * Z.of_nat (length bs)).
Proof.
  induction bs as [|b bs IH]; cbn [Reassembler.LittleEndian fold_right length].
  - cbn. lia.
  - fold (Reassembler.LittleEndian bs). pose proof (byte_val_range b) as Hb.
    rewrite Z.lor_comm, lor_shiftl_octet by lia.
    replace (8 * Z.of_nat (S (length bs))) with (8 * Z.of_nat (length bs) + 8) by lia.
    rewrite Z.pow_add_r by lia. lia.
Qed.

Lemma LittleEndian_one b : Reassembler.LittleEndian [b] = byte_val b.
Proof. cbn [Reassembler.LittleEndian fold_right]. now rewrite Z.shiftl_0_l, Z.lor_0_r. Qed.

Lemma split_header (b : list byte) :
  (16 <= length b)%nat ->
  b = slice b 0 1 ++ slice b 1 2 ++ slice b 2 4 ++ slice b 4 8 ++ slice b 8 12
      ++ slice b 12 14 ++ slice b 14 16 ++ skipn 16 b.
Proof.
  intros Hb.
  rewrite !app_assoc.
  rewrite !slice_next by lia.
  unfold slice. rewrite Nat.sub_0_r. cbn [skipn]. now rewrite take_drop.
Qed.

Lemma length_slice (b : list byte) lo hi :
  (lo <= hi)%nat -> (hi <= length b)%nat -> length (slice b lo hi) = (hi - lo)%nat.
Proof. intros H1 H2. unfold slice. rewrite length_take, length_drop. lia. Qed.

Lemma slice_one (b : list byte) i :
  (i < length b)%nat -> slice b i (S i) = [nth i b x00].
Proof.
  revert i. induction b as [|a b IH]; intros i Hi; cbn [length] in Hi; [lia|].
  destruct i as [|i].
  - reflexivity.
  - unfold slice in *. cbn [skipn nth]. replace (S (S i) - S i)%nat with (S i - i)%nat by lia.
    apply IH. lia.
Qed.

Lemma packet_row n (lenb body dig tail : list byte) :
  length lenb = 4%nat -> Reassembler.LittleEndian lenb = Z.of_nat (length body) ->
  (16 <= length body)%nat -> length dig = 4%nat ->
  fst (scanHeaders n {| input := HRDLMagic ++ lenb ++ body ++ dig ++ tail; digest := Sum |})
  = (Some {| row_len := n; row_sync := 0xf82e3553;
             row_length := Z.of_nat (length body);
             row_channel := byte_val (nth 0 body x00);
             row_origin := byte_val (nth 1 body x00);
             row_counter := Reassembler.LittleEndian (slice body 4 8);
             row_valid := add_octets 0 body =? Reassembler.LittleEndian dig |},
     tail, None).
Proof.
  intros Hl Hlen Hb Hdig.
  pose proof (LittleEndian_range lenb) as Hr. rewrite Hl in Hr.
  rewrite (split_header body Hb) at 1.
  rewrite <- !app_assoc.
  rewrite scanHeaders_parts; try (rewrite length_slice; lia); try assumption.
  - rewrite <- (split_header body Hb).
    rewrite !slice_one by lia. rewrite !LittleEndian_one, Hlen. reflexivity.
  - rewrite length_drop, Hlen. unfold u32. rewrite Z.mod_small; lia.
Qed.

(** X20. A slice that begins with a well-formed packet: sync word, the length
    of the body in four octets, least significant first, a body of 16 octets or
    more, four octets of checksum.  The row logged has the channel and the origin
    from the first two octets of the body and the counter from octets 4 to 7;
    the verdict compares the sum of the octets of the body, modulo 2^32, with
    the checksum; what follows the packet is returned, without an error. *)
Theorem debugHRDLHeaders_of_a_packet (lenb body dig tail : list byte) :
  length lenb = 4%nat -> Reassembler.LittleEndian lenb = Z.of_nat (length body) ->
  (16 <= length body)%nat -> length dig = 4%nat ->
  debugHRDLHeaders (HRDLMagic ++ lenb ++ body ++ dig ++ tail)
  = (Some {| row_len := Z.of_nat (length body) + 12 + Z.of_nat (length tail);
             row_sync := 0xf82e3553;
             row_length := Z.of_nat (length body);
             row_channel := byte_val (nth 0 body x00);
             row_origin := byte_val (nth 1 body x00);
             row_counter := Reassembler.LittleEndian (slice body 4 8);
             row_valid := fold_right Z.add 0 (map byte_val body) mod 2 ^ 32
                          =? Reassembler.LittleEndian dig |},
     tail, None).
Proof.
  intros Hl Hlen Hb Hdig. unfold debugHRDLHeaders.
  rewrite packet_row by assumption.
  rewrite add_octets_total by lia. cbn [Z.add].
  repeat f_equal.
  rewrite !length_app, Hl, Hdig. cbn [length HRDLMagic]. lia.
Qed.

Lemma debugHRDLHeaders_of_a_packet_witness :
  debugHRDLHeaders (HRDLMagic ++ [x10; x00; x00; x00] ++ repeat x01 16 ++ [x10; x00; x00; x00]
                    ++ [xf8])
  = (Some {| row_len := 29; row_sync := 0xf82e3553; row_length := 16; row_channel := 1;
             row_origin := 1; row_counter := 0x01010101; row_valid := true |},
     [xf8], None).
Proof.
  exact (debugHRDLHeaders_of_a_packet [x10; x00; x00; x00] (repeat x01 16) [x10; x00; x00; x00]
           [xf8] eq_refl eq_refl (le_n 16) eq_refl).
Defined.

(** *** The same packet in the file reassembler *)

Lemma vmu_sum_of_packet (lenb body dig : list byte) :
  length lenb = 4%nat -> length dig = 4%nat ->
  Reassembler.vmu_sum (HRDLMagic ++ lenb ++ body ++ dig) = add_octets 0 body.
Proof.
  intros Hl Hd. unfold Reassembler.vmu_sum. rewrite vmu_sum_add_octets. f_equal.
  unfold slice.
  replace (HRDLMagic ++ lenb ++ body ++ dig) with ((HRDLMagic ++ lenb) ++ body ++ dig)
    by now rewrite <- app_assoc.
  rewrite drop_app_length' by (rewrite length_app, Hl; reflexivity).
  rewrite !length_app, Hl, Hd. cbn [length HRDLMagic].
  replace (4 + 4 + (length body + 4) - 4 - 8)%nat with (length body) by lia.
  now rewrite take_app_length.
Qed.

End Hrdl.

(** ** One packet, two programs; slices that are refused *)

Section Verdicts.

Import UdpReassembler.

(** X21. The two programs judge the checksum of a packet alike.  For a slice
    that is one well-formed packet, the verdict logged by [debugHRDLHeaders]
    is false exactly when the file reassembler counts the packet as bad under
    its key; the file reassembler counts such a packet neither as bigger nor
    as smaller than declared. *)
Theorem checksum_verdicts_agree (by_ : Reassembler.byFunc) (lenb body dig : list byte)
    (status status' : gmap Z Reassembler.Coze) (reports reports' : gmap Z Reassembler.Counter)
    (k : Z) (six : nat) :
  length lenb = 4%nat -> Reassembler.LittleEndian lenb = Z.of_nat (length body) ->
  (16 <= length body)%nat -> length dig = 4%nat ->
  by_ (HRDLMagic ++ lenb ++ body ++ dig) = Some (k, six) ->
  Reassembler.account by_ (HRDLMagic ++ lenb ++ body ++ dig) status reports
    = Some (status', reports') ->
  exists r c',
    debugHRDLHeaders (HRDLMagic ++ lenb ++ body ++ dig) = (Some r, [], None) /\
    status' !! k = Some c' /\
    let c := default {| Reassembler.Count := 0; Reassembler.Size := 0; Reassembler.Bad := 0;
                        Reassembler.Bigger := 0; Reassembler.Smaller := 0 |} (status !! k) in
    Reassembler.Bad c' = (if row_valid r then Reassembler.Bad c
                          else Reassembler.int (Reassembler.Bad c + 1)) /\
    Reassembler.Bigger c' = Reassembler.Bigger c /\
    Reassembler.Smaller c' = Reassembler.Smaller c.
Proof.
  intros Hl Hlen Hb Hdig Hby Hacc.
  pose proof (packet_row (Z.of_nat (length (HRDLMagic ++ lenb ++ body ++ dig)))
                lenb body dig [] Hl Hlen Hb Hdig) as Hrow.
  rewrite app_nil_r in Hrow.
  unfold debugHRDLHeaders. rewrite Hrow. clear Hrow.
  pose proof (vmu_sum_of_packet lenb body dig Hl Hdig) as Hsum.
  set (vs := HRDLMagic ++ lenb ++ body ++ dig) in *.
  assert (length vs = (length body + 12)%nat) as Hvs
    by (unfold vs; rewrite !length_app, Hl, Hdig; cbn [length HRDLMagic]; lia).
  unfold Reassembler.account in Hacc. rewrite Hby in Hacc. cbn [mbind option_bind] in Hacc.
  rewrite (from_Some vs (Z.of_nat (length vs) - 4)) in Hacc by lia.
  cbn [mbind option_bind] in Hacc.
  rewrite Uint32_Some in Hacc by (rewrite length_drop; lia). cbn [mbind option_bind] in Hacc.
  rewrite (from_Some vs 4) in Hacc by lia. cbn [mbind option_bind] in Hacc.
  rewrite Uint32_Some in Hacc by (rewrite length_drop; lia). cbn [mbind option_bind] in Hacc.
  assert (firstn 4 (skipn (Z.to_nat (Z.of_nat (length vs) - 4)) vs) = dig) as Htail.
  { replace (Z.to_nat (Z.of_nat (length vs) - 4)) with (length (HRDLMagic ++ lenb ++ body))
      by (rewrite !length_app, Hl; cbn [length HRDLMagic]; lia).
    unfold vs. replace (HRDLMagic ++ lenb ++ body ++ dig) with ((HRDLMagic ++ lenb ++ body) ++ dig)
      by now rewrite <- !app_assoc.
    rewrite drop_app_length. apply firstn_all2. lia. }
  assert (firstn 4 (skipn (Z.to_nat 4) vs) = lenb) as Hdecl.
  { unfold vs. change (Z.to_nat 4) with (length HRDLMagic). rewrite drop_app_length.
    rewrite <- Hl. apply take_app_length. }
  rewrite Htail, Hdecl, Hlen in Hacc.
  rewrite Hsum, Hvs in Hacc.
  replace (Z.of_nat (length body + 12) - 12) with (Z.of_nat (length body)) in Hacc by lia.
  rewrite Z.gtb_ltb, Z.ltb_irrefl in Hacc.
  destruct (Reassembler.from vs (Z.of_nat six) ≫= Reassembler.Uint32) as [seq|];
    [|discriminate].
  cbn [mbind option_bind] in Hacc. injection Hacc as <- _.
  eexists _, _. split; [reflexivity|]. split; [apply lookup_insert_eq|].
  cbn [row_valid].
  destruct (add_octets 0 body =? Reassembler.LittleEndian dig); cbn [negb]; auto.
Qed.

Lemma checksum_verdicts_agree_witness :
  exists status' reports' r c',
    Reassembler.account Reassembler.by_channel
      (HRDLMagic ++ [x10; x00; x00; x00] ++ repeat x01 16 ++ [x11; x00; x00; x00]) ∅ ∅
      = Some (status', reports') /\
    debugHRDLHeaders (HRDLMagic ++ [x10; x00; x00; x00] ++ repeat x01 16 ++ [x11; x00; x00; x00])
      = (Some r, [], None) /\
    status' !! 1 = Some c' /\
    Reassembler.Bad c' = (if row_valid r then 0 else Reassembler.int (0 + 1)) /\
    Reassembler.Bigger c' = 0 /\ Reassembler.Smaller c' = 0.
Proof.
  destruct (Reassembler.account Reassembler.by_channel
              (HRDLMagic ++ [x10; x00; x00; x00] ++ repeat x01 16 ++ [x11; x00; x00; x00]) ∅ ∅)
    as [[status' reports']|] eqn:Hacc; [|vm_compute in Hacc; discriminate].
  destruct (checksum_verdicts_agree Reassembler.by_channel [x10; x00; x00; x00] (repeat x01 16)
              [x11; x00; x00; x00] ∅ status' ∅ reports' 1 12
              eq_refl eq_refl (le_n 16) eq_refl eq_refl Hacc) as (r & c' & Hd & Hk & Hc).
  exists status', reports', r, c'. repeat split; try assumption; apply Hc.
Defined.

(** *** Slices that are refused *)

Lemma binary_Read_as_r_app order a rest d n old :
  length a = n ->
  binary_Read_as order read_r n old {| input := a ++ rest; digest := d |}
  = (order a, {| input := rest; digest := d |}).
Proof.
  intros Hn. unfold binary_Read_as, mbind, OnScan_bind. now rewrite read_r_app.
Qed.

Lemma ReadFull_rest (r : list byte) n : snd (fst (ReadFull r n)) = skipn n r.
Proof.
  unfold ReadFull. destruct (Nat.leb_spec n (length r)); cbn [fst snd]; [reflexivity|].
  symmetry. apply drop_ge. lia.
Qed.

Lemma binary_Read_as_rs_input order n old s v s' :
  binary_Read_as order read_rs n old s = (v, s') -> input s' = skipn n (input s).
Proof.
  unfold binary_Read_as, mbind, OnScan_bind, read_rs, mret, OnScan_ret.
  pose proof (ReadFull_rest (input s) n) as Hr.
  destruct (ReadFull (input s) n) as [[bs r'] e]. cbn [fst snd] in Hr.
  intros [= _ <-]. exact Hr.
Qed.

Lemma CopyN_outcome n s :
  0 <= n ->
  fst (CopyN n s)
  = (Z.min n (Z.of_nat (length (input s))),
     if Z.of_nat (length (input s)) <? n then Some EOF else None).
Proof.
  intros Hn. unfold CopyN. cbn [fst]. rewrite length_take.
  replace (Z.of_nat (Z.to_nat (Z.min n (Z.of_nat (length (input s)))) `min` length (input s)))
    with (Z.min n (Z.of_nat (length (input s)))) by lia.
  f_equal.
  destruct (Z.ltb_spec (Z.min n (Z.of_nat (length (input s)))) n),
           (Z.ltb_spec (Z.of_nat (length (input s))) n); try reflexivity; lia.
Qed.

(** Past the sync word and the length: the copy sees what is left of the
    slice after sixteen octets. *)
Lemma scanHeaders_copies n (lenb rest : list byte) :
  length lenb = 4%nat ->
  snd (fst (scanHeaders n {| input := HRDLMagic ++ lenb ++ rest; digest := Sum |}))
  = (if Z.of_nat (length rest - 16) <? u32 (Reassembler.LittleEndian lenb - 16)
     then Some (LengthError (Reassembler.LittleEndian lenb) (Z.of_nat (length rest - 16)))
     else None)
  /\ (Z.of_nat (length rest - 16) < u32 (Reassembler.LittleEndian lenb - 16) ->
      fst (fst (scanHeaders n {| input := HRDLMagic ++ lenb ++ rest; digest := Sum |}))
      = (None, [])).
Proof.
  intros Hl. unfold scanHeaders, mbind, OnScan_bind.
  rewrite (binary_Read_as_r_app BigEndian HRDLMagic _ _ 4 0 eq_refl).
  rewrite Z.eqb_refl. cbn [negb].
  rewrite (binary_Read_as_r_app Reassembler.LittleEndian lenb _ _ 4 0 Hl).
  destruct (binary_Read_as _ read_rs 1 0 _) as [v1 s1] eqn:E1.
  apply binary_Read_as_rs_input in E1. cbn [input] in E1.
  destruct (binary_Read_as _ read_rs 1 0 _) as [v2 s2] eqn:E2.
  apply binary_Read_as_rs_input in E2.
  destruct (binary_Read_as _ read_rs 2 0 _) as [v3 s3] eqn:E3.
  apply binary_Read_as_rs_input in E3.
  destruct (binary_Read_as _ read_rs 4 0 _) as [v4 s4] eqn:E4.
  apply binary_Read_as_rs_input in E4.
  destruct (binary_Read_as _ read_rs 4 0 _) as [v5 s5] eqn:E5.
  apply binary_Read_as_rs_input in E5.
  destruct (binary_Read_as _ read_rs 2 0 _) as [v6 s6] eqn:E6.
  apply binary_Read_as_rs_input in E6.
  destruct (binary_Read_as _ read_rs 2 v3 _) as [v7 s7] eqn:E7.
  apply binary_Read_as_rs_input in E7.
  rewrite E6, E5, E4, E3, E2, E1, !drop_drop in E7. cbn [Nat.add] in E7.
  assert (0 <= u32 (Reassembler.LittleEndian lenb - 16)) as Hn
    by (apply Z.mod_pos_bound; lia).
  pose proof (CopyN_outcome _ s7 Hn) as Hc.
  rewrite E7, length_drop in Hc.
  destruct (CopyN _ s7) as [[got err] s8]. cbn [fst] in Hc. injection Hc as -> ->.
  destruct (Z.ltb_spec (Z.of_nat (length rest - 16)) (u32 (Reassembler.LittleEndian lenb - 16)))
    as [Hlt|Hge].
  - unfold mret, OnScan_ret. cbn [fst snd].
    replace (Z.min _ _) with (Z.of_nat (length rest - 16)) by lia.
    split; [reflexivity|]. intros _. reflexivity.
  - destruct (binary_Read_as _ read_r 4 0 s8) as [v9 s9].
    unfold get_Sum32, read_rest, mret, OnScan_ret. cbn [fst snd].
    split; [reflexivity|]. lia.
Qed.

(** X22. Past a sync word and a length of four octets, the only error is the
    one on the length, and it is raised exactly when the declared length is
    under 16, where [length-16] wraps around, or exceeds what follows the
    length in the slice, unless it is 16.  The error names the declared
    length and the octets that were left after the sixteen of the header;
    no slice is returned with it. *)
Theorem debugHRDLHeaders_length_errors (lenb rest : list byte) :
  length lenb = 4%nat -> Z.of_nat (length rest) < 2 ^ 32 - 16 ->
  if (Reassembler.LittleEndian lenb <? 16)
     || (Z.max 16 (Z.of_nat (length rest)) <? Reassembler.LittleEndian lenb)
  then debugHRDLHeaders (HRDLMagic ++ lenb ++ rest)
       = (None, [], Some (LengthError (Reassembler.LittleEndian lenb)
                                      (Z.max 0 (Z.of_nat (length rest) - 16))))
  else snd (debugHRDLHeaders (HRDLMagic ++ lenb ++ rest)) = None.
Proof.
  intros Hl Hrest. unfold debugHRDLHeaders.
  destruct (scanHeaders_copies (Z.of_nat (length (HRDLMagic ++ lenb ++ rest))) lenb rest Hl)
    as [Herr Hnil].
  pose proof (LittleEndian_range lenb) as Hr. rewrite Hl in Hr.
  change (2 ^ (8 * Z.of_nat 4)) with (2 ^ 32) in Hr.
  set (declared := Reassembler.LittleEndian lenb) in *.
  destruct (scanHeaders _ _) as [[[r vs] err] s']. cbn [fst snd] in *.
  assert (u32 (declared - 16) = if declared <? 16 then declared - 16 + 2 ^ 32 else declared - 16)
    as Hn.
  { unfold u32. destruct (Z.ltb_spec declared 16).
    - rewrite <- (Z.mod_add _ 1) by lia. rewrite Z.mod_small; lia.
    - rewrite Z.mod_small; lia. }
  rewrite Hn in Herr, Hnil.
  destruct (Z.ltb_spec declared 16) as [Hlow|Hhigh]; cbn [orb].
  - destruct (Z.ltb_spec (Z.of_nat (length rest - 16)) (declared - 16 + 2 ^ 32)); [|lia].
    rewrite Herr. injection (Hnil ltac:(lia)) as -> ->.
    repeat f_equal. lia.
  - destruct (Z.ltb_spec (Z.max 16 (Z.of_nat (length rest))) declared).
    + destruct (Z.ltb_spec (Z.of_nat (length rest - 16)) (declared - 16)); [|lia].
      rewrite Herr. injection (Hnil ltac:(lia)) as -> ->.
      repeat f_equal. lia.
    + destruct (Z.ltb_spec (Z.of_nat (length rest - 16)) (declared - 16)); [lia|].
      exact Herr.
Qed.

Lemma debugHRDLHeaders_length_errors_witness :
  debugHRDLHeaders (HRDLMagic ++ [x0f; x00; x00; x00] ++ repeat x00 20)
  = (None, [], Some (LengthError 15 4)).
Proof.
  exact (debugHRDLHeaders_length_errors [x0f; x00; x00; x00] (repeat x00 20) eq_refl eq_refl).
Defined.

Lemma byte_val_inj a b : byte_val a = byte_val b -> a = b.
Proof.
  unfold byte_val. intros H. apply N2Z.inj in H.
  apply (f_equal Byte.of_N) in H. rewrite !Byte.of_to_N in H. now injection H.
Qed.

Lemma BigEndian_sync (a : list byte) :
  length a = 4%nat -> BigEndian a = BigEndian HRDLMagic -> a = HRDLMagic.
Proof.
  intros Hl He.
  destruct a as [|a0 [|a1 [|a2 [|a3 [|]]]]]; try discriminate.
  change [a0; a1; a2; a3] with ((([a0] ++ [a1]) ++ [a2]) ++ [a3]) in He.
  rewrite !BigEndian_snoc in He.
  change (BigEndian [a0]) with (Z.lor (Z.shiftl 0 8) (byte_val a0)) in He.
  rewrite Z.shiftl_0_l, Z.lor_0_l in He.
  change (BigEndian HRDLMagic) with (((byte_val xf8 * 256 + byte_val x2e) * 256 + byte_val x35)
                                     * 256 + byte_val x53) in He.
  pose proof (byte_val_range a0). pose proof (byte_val_range a1).
  pose proof (byte_val_range a2). pose proof (byte_val_range a3).
  pose proof (byte_val_range xf8). pose proof (byte_val_range x2e).
  pose proof (byte_val_range x35). pose proof (byte_val_range x53).
  assert (byte_val a0 = byte_val xf8 /\ byte_val a1 = byte_val x2e
          /\ byte_val a2 = byte_val x35 /\ byte_val a3 = byte_val x53) as (E0 & E1 & E2 & E3)
    by lia.
  apply byte_val_inj in E0, E1, E2, E3. now subst.
Qed.

(** X23. The error on the sync word is raised exactly for the slices that do
    not begin with the four octets of the sync word.  It names the first four
    octets as a number, and 0 for a slice of fewer than four octets, the
    empty one included: the failure of the read is not looked at. *)
Theorem debugHRDLHeaders_sync_errors (bs : list byte) :
  if Reassembler.HasPrefix bs HRDLMagic
  then forall sync, snd (debugHRDLHeaders bs) <> Some (InvalidSync sync)
  else debugHRDLHeaders bs
       = (None, [], Some (InvalidSync (if (4 <=? length bs)%nat then BigEndian (firstn 4 bs)
                                       else 0))).
Proof.
  destruct (Reassembler.HasPrefix bs HRDLMagic) eqn:Hp.
  - apply HasPrefix_take in Hp. cbn [length HRDLMagic] in Hp.
    rewrite <- (take_drop 4 bs), Hp. intros sync.
    unfold debugHRDLHeaders, scanHeaders, mbind, OnScan_bind.
    rewrite (binary_Read_as_r_app BigEndian HRDLMagic _ _ 4 0 eq_refl).
    rewrite Z.eqb_refl. cbn [negb].
    repeat match goal with
           | |- context [binary_Read_as ?o ?rd ?n ?old ?s] =>
               destruct (binary_Read_as o rd n old s) as [? ?]
           end.
    destruct (CopyN _ _) as [[got [e|]] s8]; unfold mret, OnScan_ret; cbn [fst snd];
      [discriminate|].
    destruct (binary_Read_as _ _ _ _ _) as [? ?].
    unfold get_Sum32, read_rest. cbn [fst snd]. discriminate.
  - unfold debugHRDLHeaders, scanHeaders, mbind, OnScan_bind, binary_Read_as at 1, mbind,
      OnScan_bind, read_r. cbn [input digest].
    unfold ReadFull. destruct (Nat.leb_spec 4 (length bs)) as [Hlen|Hlen].
    + unfold mret, OnScan_ret.
      destruct (Z.eqb_spec (BigEndian (firstn 4 bs)) (BigEndian HRDLMagic)) as [He|Hne];
        cbn [negb fst]; [|reflexivity].
      apply BigEndian_sync in He; [|rewrite length_take; lia].
      rewrite (HasPrefix_of_take bs HRDLMagic He) in Hp. discriminate.
    + unfold mret, OnScan_ret. reflexivity.
Qed.

End Verdicts.

(** ** The UDP reassembler: payloads laid out by sequence *)

Section Layout.

Import UdpReassembler LayoutSpec.

Lemma first_Missing_range c p : 0 <= Assembler.Missing c p < 2 ^ 32.
Proof.
  destruct p as [p|]; [|simp Missing; lia].
  rewrite first_Missing_pair.
  destruct (Lister.seq_of p >? Lister.seq_of c); cbv zeta;
    match goal with |- context [negb ?b] => destruct b end; cbn [negb];
    try lia; apply Z.mod_pos_bound; lia.
Qed.

(** The frames that [place] steps over: one, or the count of [Missing]. *)
#[local] Abbreviation frames st c := (Z.max 1 (Assembler.Missing c (prev st))).

Lemma place_appends st c :
  pos st = Z.of_nat (length (bs st)) ->
  place st c
  = Some (pos st + 1008 * frames st c,
          bs st ++ repeat x00 (Z.to_nat (1008 * (frames st c - 1))) ++ Lister.Payload c).
Proof.
  intros Hpos. unfold place.
  pose proof (first_Missing_range c (prev st)) as Hm.
  set (delta := Assembler.Missing c (prev st)) in *.
  change (Z.of_nat caduBodyLen) with 1008.
  destruct (Z.gtb_spec delta 0) as [Hgt|Hle].
  - destruct (Z.eqb_spec (pos st + delta * 1008 - 1008) (Z.of_nat (length (bs st)))) as [He|Hne].
    + assert (delta = 1) as -> by lia.
      change (Z.to_nat (1008 * (Z.max 1 1 - 1))) with 0%nat. cbn [repeat app].
      apply f_equal, (f_equal2 pair); [lia|reflexivity].
    + destruct (Z.gtb_spec (pos st + delta * 1008 - 1008) (Z.of_nat (length (bs st))));
        [|lia].
      replace (Z.max 1 delta) with delta by lia.
      apply f_equal, (f_equal2 pair); [lia|].
      apply f_equal, (f_equal2 (@app byte)); [|reflexivity]. apply f_equal. lia.
  - assert (delta = 0) as -> by lia. cbn [Z.ltb Z.compare].
    destruct (Z.eqb_spec (pos st + 1008 - 1008) (Z.of_nat (length (bs st)))); [|lia].
    change (Z.to_nat (1008 * (Z.max 1 0 - 1))) with 0%nat. cbn [repeat app].
    apply f_equal, (f_equal2 pair); [lia|reflexivity].
Qed.

Lemma HasPrefix_app s t p :
  Reassembler.HasPrefix s p = true -> Reassembler.HasPrefix (s ++ t) p = true.
Proof.
  revert s. induction p as [|a p IH]; intros s; [intros _; now destruct (s ++ t)|].
  destruct s as [|b s]; cbn [Reassembler.HasPrefix app]; [discriminate|].
  intros [-> H]%andb_prop. cbn [andb]. now apply IH.
Qed.

Lemma HasPrefix_app_long s t p :
  (length p <= length s)%nat ->
  Reassembler.HasPrefix (s ++ t) p = Reassembler.HasPrefix s p.
Proof.
  revert s. induction p as [|a p IH]; intros s Hl.
  - now destruct s, t.
  - destruct s as [|b s]; cbn [length] in Hl; [lia|].
    cbn [Reassembler.HasPrefix app]. rewrite IH by lia. reflexivity.
Qed.

Lemma HasPrefix_firstn s p n :
  Reassembler.HasPrefix s p = true -> (length p <= n)%nat ->
  Reassembler.HasPrefix (firstn n s) p = true.
Proof.
  revert s n. induction p as [|a p IH]; intros s n; [intros _ _; now destruct (firstn n s)|].
  destruct s as [|b s]; cbn [Reassembler.HasPrefix length]; [discriminate|].
  intros [Hb H]%andb_prop Hn. destruct n as [|n]; [lia|].
  cbn [firstn Reassembler.HasPrefix]. rewrite Hb. cbn [andb]. apply IH; [assumption|lia].
Qed.

(** Where [Index] finds nothing there is nothing, and before the place that
    it gives there is nothing either. *)
Lemma Index_none s sep p :
  Reassembler.Index s sep < 0 -> Reassembler.HasPrefix (skipn p s) sep = false.
Proof.
  revert p. induction s as [|a s IH]; intros p; cbn [Reassembler.Index].
  - destruct (Reassembler.HasPrefix [] sep) eqn:Hp; [lia|]. intros _.
    now destruct p.
  - destruct (Reassembler.HasPrefix (a :: s) sep) eqn:Hp; [lia|].
    destruct (Z.ltb_spec (Reassembler.Index s sep) 0) as [Hno|]; [|lia]. intros _.
    destruct p as [|p]; [exact Hp|]. cbn [skipn]. now apply IH.
Qed.

Lemma Index_first s sep p :
  Z.of_nat p < Reassembler.Index s sep -> Reassembler.HasPrefix (skipn p s) sep = false.
Proof.
  revert p. induction s as [|a s IH]; intros p; cbn [Reassembler.Index].
  - destruct (Reassembler.HasPrefix [] sep); lia.
  - destruct (Reassembler.HasPrefix (a :: s) sep) eqn:Hp; [lia|].
    destruct (Z.ltb_spec (Reassembler.Index s sep) 0) as [Hno|]; [lia|]. intros Hlt.
    destruct p as [|p]; [exact Hp|]. cbn [skipn]. apply IH. lia.
Qed.

(** The sync word has no zero in it. *)
Lemma sync_last_octet (l : list byte) p :
  Reassembler.HasPrefix (skipn p l) HRDLMagic = true -> l !! (p + 3)%nat = Some x53.
Proof.
  intros H. apply HasPrefix_take in H. cbn [length HRDLMagic] in H.
  rewrite <- (take_drop p l), lookup_app_r by (rewrite length_take; lia).
  assert (p <= length l)%nat as Hp.
  { destruct (Nat.le_gt_cases p (length l)); [assumption|].
    rewrite drop_ge in H by lia. discriminate. }
  rewrite length_take. replace (p + 3 - p `min` length l)%nat with 3%nat by lia.
  rewrite <- (take_drop 4 (skipn p l)), H. reflexivity.
Qed.

Lemma lookup_repeat {A : Type} (x y : A) n i : repeat x n !! i = Some y -> y = x.
Proof.
  revert i. induction n as [|n IH]; intros i; cbn [repeat]; [now destruct i|].
  destruct i as [|i]; [now intros [= <-]|]. apply IH.
Qed.

Lemma no_sync_in_zeros (s t : list byte) n p :
  (length s <= p + 3)%nat -> (p + 3 < length s + n)%nat ->
  Reassembler.HasPrefix (skipn p (s ++ repeat x00 n ++ t)) HRDLMagic = false.
Proof.
  intros Hlo Hhi.
  destruct (Reassembler.HasPrefix _ _) eqn:H; [|reflexivity].
  apply sync_last_octet in H.
  rewrite lookup_app_r, lookup_app_l in H by (rewrite ?repeat_length; lia).
  apply lookup_repeat in H. discriminate.
Qed.

(** A place in a buffer keeps what it holds when octets are appended. *)
Lemma HasPrefix_kept (s t : list byte) p :
  (p + 4 <= length s)%nat ->
  Reassembler.HasPrefix (skipn p (s ++ t)) HRDLMagic
  = Reassembler.HasPrefix (skipn p s) HRDLMagic.
Proof.
  intros Hp. rewrite drop_app_le by lia.
  apply HasPrefix_app_long. rewrite length_drop. cbn [length HRDLMagic]. lia.
Qed.

(** [cut] on a buffer that holds four octets before the payload: the search
    takes place, and [prev] is set. *)
Lemma cut_searched st c pos1 bs1 :
  (length (Lister.Payload c) + 4 <= length bs1)%nat ->
  let offset := (length bs1 - length (Lister.Payload c) - 4)%nat in
  let ix := Reassembler.Index (skipn offset bs1) HRDLMagic in
  cut st c pos1 bs1
  = if ix <? 0 then ({| prev := Some c; pos := pos1; bs := bs1 |}, [])
    else ({| prev := Some c;
             pos := Z.of_nat (length (skipn (offset + Z.to_nat ix) bs1));
             bs := skipn (offset + Z.to_nat ix) bs1 |},
          if Reassembler.HasPrefix bs1 HRDLMagic then [firstn (offset + Z.to_nat ix) bs1]
          else []).
Proof.
  intros Hlen offset ix. unfold cut. cbn [length HRDLMagic].
  replace (Z.of_nat (length bs1) - Z.of_nat (length (Lister.Payload c)) - Z.of_nat 4)
    with (Z.of_nat offset) by (unfold offset; lia).
  destruct (Z.ltb_spec (Z.of_nat offset) 0); [lia|].
  rewrite Nat2Z.id. fold ix.
  destruct (Nat.ltb_spec 0 (length bs1)); [|lia]. cbn [andb].
  destruct (Z.geb_spec ix 0), (Z.ltb_spec ix 0); try lia; [|reflexivity].
  pose proof (Index_found (skipn offset bs1) HRDLMagic ltac:(fold ix; lia)) as [_ Hle].
  fold ix in Hle. rewrite length_drop in Hle.
  replace (Z.to_nat (Z.of_nat offset + ix)) with (offset + Z.to_nat ix)%nat by lia.
  rewrite length_drop.
  replace (Z.of_nat (length bs1) - (Z.of_nat offset + ix))
    with (Z.of_nat (length bs1 - (offset + Z.to_nat ix))) by lia.
  reflexivity.
Qed.

(** The buffer after [place], in the shape of [layout_from]. *)
Lemma place_layout st c :
  pos st = Z.of_nat (length (bs st)) -> length (Lister.Payload c) = 1008%nat ->
  exists bs1,
    place st c = Some (Z.of_nat (length bs1), bs1) /\
    bs1 = bs st ++ repeat x00 (1008 * Z.to_nat (frames st c - 1)) ++ Lister.Payload c.
Proof.
  intros Hpos Hpay. eexists. split; [|reflexivity].
  rewrite (place_appends st c Hpos).
  replace (Z.to_nat (1008 * (frames st c - 1))) with (1008 * Z.to_nat (frames st c - 1))%nat
    by lia.
  rewrite !length_app, repeat_length, Hpay. do 2 f_equal. lia.
Qed.

(** Once the buffer begins with a sync word, nothing is lost. *)
Lemma turns_from_sync queue : forall st,
  pos st = Z.of_nat (length (bs st)) ->
  Reassembler.HasPrefix (bs st) HRDLMagic = true ->
  Forall (fun c => length (Lister.Payload c) = 1008%nat) queue ->
  exists st',
    snd (turns st queue) = Some st' /\
    pos st' = Z.of_nat (length (bs st')) /\
    concat (fst (turns st queue)) ++ bs st' = bs st ++ layout_from (prev st) queue.
Proof.
  induction queue as [|c queue IH]; intros st Hpos Hsync Hpay.
  - exists st. cbn [turns fst snd concat app layout_from]. now rewrite app_nil_r.
  - inversion Hpay as [|? ? Hc Hq]; subst.
    pose proof (HasPrefix_length _ _ Hsync) as Hfour. cbn [length HRDLMagic] in Hfour.
    cbn [turns layout_from]. unfold turn.
    destruct (place_layout st c Hpos Hc) as (bs1 & -> & Hbs1). cbn [mbind option_bind].
    set (pad := repeat x00 (1008 * Z.to_nat (frames st c - 1))) in *.
    assert (length bs1 = length (bs st) + length pad + 1008)%nat as Hlen
      by (rewrite Hbs1, !length_app, Hc; lia).
    rewrite cut_searched by lia. rewrite Hc.
    set (offset := (length bs1 - 1008 - 4)%nat).
    set (ix := Reassembler.Index (skipn offset bs1) HRDLMagic).
    assert (Reassembler.HasPrefix bs1 HRDLMagic = true) as Hsync1
      by (rewrite Hbs1; now apply HasPrefix_app).
    assert (bs st ++ pad ++ Lister.Payload c ++ layout_from (Some c) queue
            = bs1 ++ layout_from (Some c) queue) as ->
      by (rewrite Hbs1; now rewrite <- !app_assoc).
    destruct (Z.ltb_spec ix 0) as [Hno|Hix].
    + destruct (IH {| prev := Some c; pos := Z.of_nat (length bs1); bs := bs1 |})
        as (st' & Hfin & Hpos' & Hcat); [reflexivity|exact Hsync1|exact Hq|].
      destruct (turns _ queue) as [later final]. cbn [fst snd bs prev] in *.
      exists st'. auto.
    + destruct (Index_found (skipn offset bs1) HRDLMagic ltac:(fold ix; lia)) as [Hfound _].
      fold ix in Hfound. rewrite drop_drop in Hfound.
      rewrite Hsync1.
      destruct (IH {| prev := Some c;
                      pos := Z.of_nat (length (skipn (offset + Z.to_nat ix) bs1));
                      bs := skipn (offset + Z.to_nat ix) bs1 |})
        as (st' & Hfin & Hpos' & Hcat); [reflexivity|exact Hfound|exact Hq|].
      destruct (turns _ queue) as [later final]. cbn [fst snd bs prev] in *.
      exists st'. split; [assumption|]. split; [assumption|].
      cbn [app concat]. rewrite <- app_assoc, Hcat, app_assoc, take_drop. reflexivity.
Qed.

(** Before that, the search goes through the layout from [lo] on, place by
    place, and the first sync word that it meets is where the buffer is cut. *)
Lemma turns_before_sync queue : forall st (lo : nat),
  pos st = Z.of_nat (length (bs st)) ->
  Reassembler.HasPrefix (bs st) HRDLMagic = false ->
  (lo + 4 <= length (bs st))%nat ->
  (forall p, (lo <= p)%nat -> (p + 4 <= length (bs st))%nat ->
             Reassembler.HasPrefix (skipn p (bs st)) HRDLMagic = false)
  \/ (prev st = None /\ (lo + 4)%nat = length (bs st)) ->
  Forall (fun c => length (Lister.Payload c) = 1008%nat) queue ->
  exists st' (k : nat),
    snd (turns st queue) = Some st' /\
    pos st' = Z.of_nat (length (bs st')) /\
    concat (fst (turns st queue)) ++ bs st'
    = skipn k (bs st ++ layout_from (prev st) queue) /\
    ((k = 0%nat /\ fst (turns st queue) = []) \/
     ((lo <= k)%nat /\
      Reassembler.HasPrefix (skipn k (bs st ++ layout_from (prev st) queue)) HRDLMagic = true /\
      forall p, (lo <= p < k)%nat ->
        Reassembler.HasPrefix (skipn p (bs st ++ layout_from (prev st) queue)) HRDLMagic
        = false)).
Proof.
  induction queue as [|c queue IH]; intros st lo Hpos Hhead Hlo Hcov Hpay.
  - exists st, 0%nat. cbn [turns fst snd concat app layout_from].
    rewrite drop_0, app_nil_r. repeat split; auto.
  - inversion Hpay as [|? ? Hc Hq]; subst.
    cbn [turns layout_from]. unfold turn.
    destruct (place_layout st c Hpos Hc) as (bs1 & -> & Hbs1). cbn [mbind option_bind].
    set (n := (1008 * Z.to_nat (frames st c - 1))%nat) in *.
    assert (length bs1 = length (bs st) + n + 1008)%nat as Hlen
      by (rewrite Hbs1, !length_app, repeat_length, Hc; lia).
    rewrite cut_searched by lia. rewrite Hc.
    set (offset := (length bs1 - 1008 - 4)%nat).
    set (ix := Reassembler.Index (skipn offset bs1) HRDLMagic).
    assert (Reassembler.HasPrefix bs1 HRDLMagic = false) as Hhead1
      by (rewrite Hbs1, HasPrefix_app_long; [assumption|cbn [length HRDLMagic]; lia]).
    assert (bs st ++ repeat x00 n ++ Lister.Payload c ++ layout_from (Some c) queue
            = bs1 ++ layout_from (Some c) queue) as ->
      by (rewrite Hbs1; now rewrite <- !app_assoc).
    (* Nothing between [lo] and the place where this search starts. *)
    assert (forall p, (lo <= p < offset)%nat ->
              Reassembler.HasPrefix (skipn p bs1) HRDLMagic = false) as Hbefore.
    { intros p Hp. destruct Hcov as [Hcov|[Hprev Hend]].
      - destruct (Nat.le_gt_cases (p + 4) (length (bs st))) as [Hin|Hout].
        + rewrite Hbs1, HasPrefix_kept by lia. apply Hcov; lia.
        + rewrite Hbs1. apply no_sync_in_zeros; unfold offset in Hp; lia.
      - exfalso. assert (n = 0%nat) as Hn; [|unfold offset in Hp; lia].
        unfold n. rewrite Hprev. simp Missing. reflexivity. }
    destruct (Z.ltb_spec ix 0) as [Hno|Hix].
    + destruct (IH {| prev := Some c; pos := Z.of_nat (length bs1); bs := bs1 |} lo)
        as (st' & k & Hfin & Hpos' & Hcat & Hk);
        [reflexivity|exact Hhead1|cbn [bs]; lia| |exact Hq|].
      { left. cbn [bs]. intros p Hp Hp4.
        destruct (Nat.le_gt_cases offset p) as [Hge|Hlt]; [|apply Hbefore; lia].
        replace p with (offset + (p - offset))%nat by lia.
        rewrite <- drop_drop. apply Index_none. assumption. }
      destruct (turns _ queue) as [later final]. cbn [fst snd bs prev] in *.
      exists st', k. auto.
    + destruct (Index_found (skipn offset bs1) HRDLMagic ltac:(fold ix; lia))
        as [Hfound Hle].
      fold ix in Hfound, Hle. rewrite drop_drop in Hfound. rewrite length_drop in Hle.
      rewrite Hhead1.
      set (j := (offset + Z.to_nat ix)%nat) in *.
      pose proof (HasPrefix_length _ _ Hfound) as Hj. rewrite length_drop in Hj.
      cbn [length HRDLMagic] in Hj.
      destruct (turns_from_sync queue {| prev := Some c;
                                         pos := Z.of_nat (length (skipn j bs1));
                                         bs := skipn j bs1 |})
        as (st' & Hfin & Hpos' & Hcat); [reflexivity|exact Hfound|exact Hq|].
      destruct (turns _ queue) as [later final]. cbn [fst snd bs prev] in *.
      exists st', j. split; [assumption|]. split; [assumption|].
      cbn [app]. split; [rewrite Hcat, drop_app_le by lia; reflexivity|].
      right. split; [unfold j, offset; lia|].
      split; [rewrite HasPrefix_kept by lia; exact Hfound|].
      intros p Hp. rewrite HasPrefix_kept by lia.
      destruct (Nat.le_gt_cases offset p) as [Hge|Hlt]; [|apply Hbefore; lia].
      replace p with (offset + (p - offset))%nat by lia.
      rewrite <- drop_drop. apply Index_first. unfold j in Hp. fold ix. lia.
Qed.

(** The first turn ends at [continue]. *)
Lemma reassemble_first_turn (c : Lister.Cadu) (queue : list Lister.Cadu) :
  reassemble (c :: queue)
  = turns {| prev := None; pos := 1008; bs := Lister.Payload c |} queue.
Proof.
  unfold reassemble. cbn [turns]. unfold turn.
  rewrite (place_appends {| prev := None; pos := 0; bs := [] |} c eq_refl).
  cbn [mbind option_bind prev pos bs app]. simp Missing.
  change (Z.to_nat (1008 * (Z.max 1 0 - 1))) with 0%nat. cbn [repeat app].
  unfold cut.
  replace (Z.of_nat (length (Lister.Payload c)) - Z.of_nat (length (Lister.Payload c))
           - Z.of_nat (length HRDLMagic) <? 0) with true
    by (symmetry; apply Z.ltb_lt; cbn [length HRDLMagic]; lia).
  cbn [prev]. change (0 + 1008 * Z.max 1 0) with 1008.
  now destruct (turns _ queue).
Qed.

Lemma first_Missing_distance c p :
  0 <= Lister.seq_of c < 2 ^ 24 -> 0 <= Lister.seq_of p < 2 ^ 24 ->
  Assembler.Missing c (Some p)
  = let d := Z.abs (Lister.seq_of c - Lister.seq_of p) in if d =? 1 then 0 else d.
Proof.
  intros Hc Hp. rewrite first_Missing_pair. cbv zeta.
  destruct (Z.gtb_spec (Lister.seq_of p) (Lister.seq_of c)).
  - unfold u32. rewrite (Z.mod_small (Lister.seq_of c + 1)),
      (Z.mod_small (Lister.seq_of p - Lister.seq_of c)) by lia.
    destruct (Z.eqb_spec (Lister.seq_of c + 1) (Lister.seq_of p)),
             (Z.eqb_spec (Z.abs (Lister.seq_of c - Lister.seq_of p)) 1); cbn [negb]; lia.
  - unfold u32. rewrite (Z.mod_small (Lister.seq_of p + 1)),
      (Z.mod_small (Lister.seq_of c - Lister.seq_of p)) by lia.
    destruct (Z.eqb_spec (Lister.seq_of p + 1) (Lister.seq_of c)),
             (Z.eqb_spec (Z.abs (Lister.seq_of c - Lister.seq_of p)) 1); cbn [negb]; lia.
Qed.

(** X24. While the position is the length of the buffer, the payload of a
    CADU is always appended, after 1008 zero octets for each sequence number
    strictly between the one of the CADU and the one of the previous CADU,
    whichever of the two is the greater.  A CADU that comes late is handled
    like one that comes after a gap, and one that comes twice like the next
    one: nothing is written back into the buffer. *)
Theorem place_appends_after_the_gap (st : state) (c : Lister.Cadu) :
  pos st = Z.of_nat (length (bs st)) ->
  0 <= Lister.seq_of c < 2 ^ 24 ->
  (forall p, prev st = Some p -> 0 <= Lister.seq_of p < 2 ^ 24) ->
  let between := match prev st with
                 | None => 0
                 | Some p => Z.abs (Lister.seq_of c - Lister.seq_of p) - 1
                 end in
  place st c
  = Some (pos st + 1008 * (Z.max 0 between + 1),
          bs st ++ repeat x00 (Z.to_nat (1008 * between)) ++ Lister.Payload c).
Proof.
  intros Hpos Hc Hp between. rewrite (place_appends st c Hpos).
  assert (frames st c = Z.max 0 between + 1) as Hf.
  { unfold between. destruct (prev st) as [p|]; [|now simp Missing].
    rewrite (first_Missing_distance c p Hc (Hp p eq_refl)). cbv zeta.
    destruct (Z.eqb_spec (Z.abs (Lister.seq_of c - Lister.seq_of p)) 1); lia. }
  rewrite Hf.
  replace (Z.to_nat (1008 * (Z.max 0 between + 1 - 1))) with (Z.to_nat (1008 * between)) by lia.
  reflexivity.
Qed.

Lemma place_appends_after_the_gap_witness :
  let cadu s := {| Lister.header :=
                     {| Lister.Word := 0x1ACFFC1D; Lister.Version := 1; Lister.Space := 23;
                        Lister.Channel := 7; Lister.Sequence := s; Lister.Replay := false;
                        Lister.HControl := 0xFDC3; Lister.Data := 0x3FFF |};
                   Lister.Payload := repeat x11 1008; Lister.Control := 0;
                   Lister.Error := None |} in
  place {| prev := Some (cadu 14); pos := 4; bs := HRDLMagic |} (cadu 11)
  = Some (4 + 1008 * 3, HRDLMagic ++ repeat x00 2016 ++ repeat x11 1008).
Proof.
  intros cadu.
  apply (place_appends_after_the_gap {| prev := Some (cadu 14); pos := 4; bs := HRDLMagic |}
           (cadu 11)).
  - reflexivity.
  - cbn. lia.
  - intros p [= <-]. cbn. lia.
Defined.

(** X25. With payloads of 1008 octets, which are the only ones that
    [decodeCadu] gives, the loop goes through the whole queue and the position
    stays the length of the buffer.  The slices sent, in order, followed by
    the buffer at the end, are the layout of the queue, that is its payloads
    in order, each after the zero frames that [place] puts before it, less
    the first [k] octets of it.  When the layout begins with the sync word,
    [k] is 0: no octet is lost.  When it does not, either nothing is cut off
    and nothing is sent, or [k] is the place of the first sync word at or
    after octet 1004 of the layout, where the first search starts: the octets
    before that sync word are the only ones lost. *)
Theorem reassemble_keeps_every_octet (queue : list Lister.Cadu) :
  Forall (fun c => length (Lister.Payload c) = 1008%nat) queue ->
  exists (st : state) (k : nat),
    snd (reassemble queue) = Some st /\
    pos st = Z.of_nat (length (bs st)) /\
    concat (fst (reassemble queue)) ++ bs st = skipn k (layout queue) /\
    if Reassembler.HasPrefix (layout queue) HRDLMagic then k = 0%nat
    else (k = 0%nat /\ fst (reassemble queue) = []) \/
         ((1004 <= k)%nat /\
          Reassembler.HasPrefix (skipn k (layout queue)) HRDLMagic = true /\
          forall p, (1004 <= p < k)%nat ->
            Reassembler.HasPrefix (skipn p (layout queue)) HRDLMagic = false).
Proof.
  intros Hpay. destruct queue as [|c queue].
  { exists {| prev := None; pos := 0; bs := [] |}, 0%nat.
    cbn [reassemble turns fst snd pos bs concat app length layout Z.of_nat
         Reassembler.HasPrefix HRDLMagic].
    rewrite drop_0. repeat split. left. split; reflexivity. }
  inversion Hpay as [|? ? Hc Hq]; subst.
  rewrite (reassemble_first_turn c queue).
  cbn [layout].
  rewrite (HasPrefix_app_long (Lister.Payload c)) by (rewrite Hc; cbn [length HRDLMagic]; lia).
  set (st1 := {| prev := None; pos := 1008; bs := Lister.Payload c |}).
  destruct (Reassembler.HasPrefix (Lister.Payload c) HRDLMagic) eqn:Hhead.
  - destruct (turns_from_sync queue st1) as (st' & Hfin & Hpos' & Hcat);
      [unfold st1; cbn [pos bs]; lia|exact Hhead|exact Hq|].
    exists st', 0%nat. rewrite drop_0. auto.
  - destruct (turns_before_sync queue st1 1004) as (st' & k & Hfin & Hpos' & Hcat & Hk);
      [unfold st1; cbn [pos bs]; lia|exact Hhead|unfold st1; cbn [bs]; lia
      |right; unfold st1; cbn [prev bs]; split; [reflexivity|lia]|exact Hq|].
    exists st', k. auto.
Qed.

Lemma reassemble_keeps_every_octet_witness :
  let cadu s p := {| Lister.header :=
                       {| Lister.Word := 0x1ACFFC1D; Lister.Version := 1; Lister.Space := 23;
                          Lister.Channel := 7; Lister.Sequence := s; Lister.Replay := false;
                          Lister.HControl := 0xFDC3; Lister.Data := 0x3FFF |};
                     Lister.Payload := p; Lister.Control := 0; Lister.Error := None |} in
  let queue := [cadu 1 (repeat x11 1008); cadu 2 (repeat x11 100 ++ HRDLMagic ++ repeat x22 904);
                cadu 5 (repeat x33 1008)] in
  exists (st : state) (k : nat),
    snd (reassemble queue) = Some st /\
    pos st = Z.of_nat (length (bs st)) /\
    concat (fst (reassemble queue)) ++ bs st = skipn k (layout queue) /\
    ((k = 0%nat /\ fst (reassemble queue) = []) \/
     ((1004 <= k)%nat /\
      Reassembler.HasPrefix (skipn k (layout queue)) HRDLMagic = true /\
      forall p, (1004 <= p < k)%nat ->
        Reassembler.HasPrefix (skipn p (layout queue)) HRDLMagic = false)).
Proof.
  intros cadu queue.
  apply (reassemble_keeps_every_octet queue).
  repeat constructor.
Defined.

(** X26. The first CADU of the queue is never kept as the previous one: its
    turn ends at [continue], before [prev] is set.  So the header of the
    first CADU plays no part in what is sent, and the loop goes on from the
    state that holds the first payload, the position 1008 and no previous
    CADU: no gap is ever seen between the first CADU and the second. *)
Theorem reassemble_forgets_the_first_CADU (c c' : Lister.Cadu) (queue : list Lister.Cadu) :
  Lister.Payload c = Lister.Payload c' ->
  reassemble (c :: queue) = reassemble (c' :: queue) /\
  reassemble (c :: queue)
  = turns {| prev := None; pos := 1008; bs := Lister.Payload c |} queue.
Proof.
  intros Hpay.
  assert (forall c0, reassemble (c0 :: queue)
                     = turns {| prev := None; pos := 1008; bs := Lister.Payload c0 |} queue)
    as Hfirst.
  { intros c0. unfold reassemble. cbn [turns]. unfold turn.
    rewrite (place_appends {| prev := None; pos := 0; bs := [] |} c0 eq_refl).
    cbn [mbind option_bind prev pos bs app]. simp Missing.
    change (Z.to_nat (1008 * (Z.max 1 0 - 1))) with 0%nat. cbn [repeat app].
    unfold cut.
    replace (Z.of_nat (length (Lister.Payload c0)) - Z.of_nat (length (Lister.Payload c0))
             - Z.of_nat (length HRDLMagic) <? 0) with true
      by (symmetry; apply Z.ltb_lt; cbn [length HRDLMagic]; lia).
    cbn [prev]. change (0 + 1008 * Z.max 1 0) with 1008.
    now destruct (turns _ queue). }
  split; [|apply Hfirst]. now rewrite !Hfirst, Hpay.
Qed.

Lemma reassemble_forgets_the_first_CADU_witness :
  let cadu s := {| Lister.header :=
                     {| Lister.Word := 0x1ACFFC1D; Lister.Version := 1; Lister.Space := 23;
                        Lister.Channel := 7; Lister.Sequence := s; Lister.Replay := false;
                        Lister.HControl := 0xFDC3; Lister.Data := 0x3FFF |};
                   Lister.Payload := HRDLMagic ++ repeat x11 1004; Lister.Control := 0;
                   Lister.Error := None |} in
  reassemble [cadu 1; cadu 9] = reassemble [cadu 8; cadu 9] /\
  reassemble [cadu 1; cadu 9]
  = turns {| prev := None; pos := 1008; bs := HRDLMagic ++ repeat x11 1004 |} [cadu 9].
Proof.
  intros cadu. exact (reassemble_forgets_the_first_CADU (cadu 1) (cadu 8) [cadu 9] eq_refl).
Defined.

Lemma cut_sends st c pos1 bs1 :
  Forall (fun vs => vs = [] \/ Reassembler.HasPrefix vs HRDLMagic = true)
         (snd (cut st c pos1 bs1)).
Proof.
  unfold cut.
  set (offset := Z.of_nat (length bs1) - Z.of_nat (length (Lister.Payload c))
                 - Z.of_nat (length HRDLMagic)).
  destruct (Z.ltb_spec offset 0) as [Hneg|Hoff]; [constructor|].
  set (ix := Reassembler.Index (skipn (Z.to_nat offset) bs1) HRDLMagic).
  destruct (0 <? length bs1)%nat; cbn [andb snd]; [|constructor].
  destruct (Z.geb_spec ix 0) as [Hix|Hix]; cbn [snd]; [|constructor].
  destruct (Reassembler.HasPrefix bs1 HRDLMagic) eqn:Hpre; [|constructor].
  constructor; [|constructor].
  destruct (Index_found (skipn (Z.to_nat offset) bs1) HRDLMagic ltac:(fold ix; lia))
    as [Hfound _].
  fold ix in Hfound. rewrite drop_drop in Hfound.
  destruct (Nat.eq_dec (Z.to_nat offset + Z.to_nat ix)%nat 0%nat) as [Hz|Hnz].
  - left. replace (Z.to_nat (offset + ix)) with 0%nat by lia. reflexivity.
  - right. apply HasPrefix_firstn; [assumption|].
    pose proof (sync_apart bs1 (Z.to_nat offset + Z.to_nat ix)%nat
                  (HasPrefix_take bs1 HRDLMagic Hpre) Hfound ltac:(lia)).
    cbn [length HRDLMagic]. lia.
Qed.

(** X27. Every slice sent is empty or begins with the sync word; on any
    queue, from any state of the loop. *)
Theorem reassemble_sends_packets (queue : list Lister.Cadu) (st : state) :
  Forall (fun vs => vs = [] \/ Reassembler.HasPrefix vs HRDLMagic = true)
         (fst (turns st queue))
  /\ Forall (fun vs => vs = [] \/ Reassembler.HasPrefix vs HRDLMagic = true)
            (fst (reassemble queue)).
Proof.
  assert (forall q s, Forall (fun vs => vs = [] \/ Reassembler.HasPrefix vs HRDLMagic = true)
                             (fst (turns s q))) as Hall.
  { clear. induction q as [|c q IH]; intros s; cbn [turns fst]; [constructor|].
    unfold turn. destruct (place s c) as [[pos1 bs1]|]; cbn [mbind option_bind fst];
      [|constructor].
    pose proof (cut_sends s c pos1 bs1) as Hsent.
    destruct (cut s c pos1 bs1) as [s1 sent]. cbn [snd] in Hsent.
    specialize (IH s1). destruct (turns s1 q) as [later final]. cbn [fst] in *.
    apply Forall_app. split; assumption. }
  split; [apply Hall|apply Hall].
Qed.

End Layout.

(** ** The queue of the lister *)

Section Queue.

Import Lister Listing.

Lemma slice_drop (r : list byte) n a b :
  slice (skipn n r) a b = slice r (n + a) (n + b).
Proof.
  unfold slice. rewrite drop_drop. f_equal. lia.
Qed.

Lemma count_more (u n : nat) :
  (2 < u)%nat -> (u - 2 <= n)%nat ->
  (n / u + if (u - 2 <=? n mod u) then 1 else 0)%nat
  = S ((n - u) / u + if (u - 2 <=? (n - u) mod u) then 1 else 0)%nat.
Proof.
  intros Hu Hn. destruct (Nat.le_gt_cases u n) as [Hge|Hlt].
  - replace n with (1 * u + (n - u))%nat at 1 2 by lia.
    rewrite Nat.div_add_l by lia.
    replace (1 * u + (n - u))%nat with ((n - u) + 1 * u)%nat by lia.
    rewrite Nat.Div0.mod_add. lia.
  - replace (n - u)%nat with 0%nat by lia.
    rewrite (Nat.div_small n), (Nat.mod_small n) by lia.
    rewrite Nat.Div0.div_0_l, Nat.Div0.mod_0_l.
    destruct (Nat.leb_spec (u - 2) n); [|lia].
    destruct (Nat.leb_spec (u - 2) 0); [lia|]. reflexivity.
Qed.

Lemma count_none (u n : nat) :
  (n < u - 2)%nat ->
  (n / u + if (u - 2 <=? n mod u) then 1 else 0)%nat = 0%nat.
Proof.
  intros Hn. rewrite (Nat.div_small n), (Nat.mod_small n) by lia.
  destruct (Nat.leb_spec (u - 2) n); [lia|reflexivity].
Qed.

(** One CADU of the loop: it is there when 1022 octets are. *)
Lemma decodeCadu_step (r : list byte) :
  if (1022 <=? length r)%nat
  then exists c, decodeCadu r = (Some c, None, skipn 1024 r) /\
                 Sequence (header c) = Z.shiftr (BigEndian (slice r 6 10)) 8 /\
                 Payload c = slice r 14 1022
  else exists e, decodeCadu r = (None, Some e, []).
Proof.
  destruct (Nat.leb_spec 1022 (length r)) as [Hlong|Hshort].
  - destruct (Nat.lt_ge_cases (length r) 1024) as [Hcut|Hfull].
    + destruct (decodeCadu_cut r ltac:(lia)) as (c & Hc & Hseq & Hpay & _).
      exists c. rewrite drop_ge by lia. auto.
    + eexists. split; [apply (decodeCadu_frame r Hfull)|]. split; reflexivity.
  - destruct (decodeCadu_short r Hshort) as (e & He & _). eauto.
Qed.

Lemma skip_hrdfe (r : list byte) :
  (let '(_, r1, _) := ReadFull r 4 in let '(_, r2, _) := ReadFull r1 4 in r2) = skipn 8 r.
Proof.
  pose proof (ReadFull_rest r 4) as H1.
  destruct (ReadFull r 4) as [[b1 r1] e1]. cbn [fst snd] in H1. subst r1.
  pose proof (ReadFull_rest (skipn 4 r) 4) as H2.
  destruct (ReadFull (skipn 4 r) 4) as [[b2 r2] e2]. cbn [fst snd] in H2. subst r2.
  now rewrite drop_drop.
Qed.

Lemma decode_loop_frames (hrdfe : bool) (turns : nat) : forall r : list byte,
  (length r < turns)%nat ->
  let head := if hrdfe then 8%nat else 0%nat in
  let unit := (1024 + head)%nat in
  exists queue,
    decode_loop turns hrdfe r = Some queue /\
    length queue = (length r / unit + if (unit - 2 <=? length r mod unit) then 1 else 0)%nat /\
    forall i c, queue !! i = Some c ->
      Sequence (header c)
      = Z.shiftr (BigEndian (slice r (unit * i + head + 6) (unit * i + head + 10))) 8 /\
      Payload c = slice r (unit * i + head + 14) (unit * i + head + 1022).
Proof.
  intros r Hfuel head unit. revert r Hfuel.
  induction turns as [|turns IH]; intros r Hfuel; [lia|].
  cbn [decode_loop].
  assert ((if hrdfe
           then let '(_, r1, _) := ReadFull r 4 in let '(_, r2, _) := ReadFull r1 4 in r2
           else r) = skipn head r) as ->.
  { unfold head. destruct hrdfe; [apply skip_hrdfe|now rewrite drop_0]. }
  pose proof (decodeCadu_step (skipn head r)) as Hstep.
  rewrite length_drop in Hstep.
  destruct (Nat.leb_spec 1022 (length r - head)) as [Hlong|Hshort].
  - destruct Hstep as (c & -> & Hseq & Hpay).
    rewrite drop_drop.
    destruct (IH (skipn (head + 1024) r)) as (queue & -> & Hlen & Hall);
      [rewrite length_drop; lia|].
    exists (c :: queue). split; [reflexivity|]. split.
    + cbn [length]. rewrite Hlen, length_drop.
      replace (head + 1024)%nat with unit by (unfold unit; lia).
      symmetry. apply count_more; unfold unit, head; destruct hrdfe; lia.
    + intros [|i] c' Hi.
      * cbn in Hi. injection Hi as <-. rewrite Hseq, Hpay, !slice_drop.
        replace (unit * 0 + head + 6)%nat with (head + 6)%nat by lia.
        replace (unit * 0 + head + 10)%nat with (head + 10)%nat by lia.
        replace (unit * 0 + head + 14)%nat with (head + 14)%nat by lia.
        replace (unit * 0 + head + 1022)%nat with (head + 1022)%nat by lia.
        split; reflexivity.
      * cbn in Hi. destruct (Hall i c' Hi) as [Hs Hp]. rewrite Hs, Hp, !slice_drop.
        assert (forall k, (head + 1024 + (unit * i + head + k)
                           = unit * Datatypes.S i + head + k)%nat) as E
          by (intros k; unfold unit; lia).
        rewrite !E. split; reflexivity.
  - destruct Hstep as (e & ->).
    exists []. split; [reflexivity|]. split.
    + cbn [length]. symmetry. apply count_none; unfold unit, head; destruct hrdfe; lia.
    + intros i c' Hi. discriminate.
Qed.

(** X28. The queue of the lister on any input: the CADUs are cut at fixed
    distances of 1024 octets, 1032 with [-hrdfe], whatever the octets are, the
    four of the sync word included; a last one is made of 1022 or 1023
    leftover octets, after the eight of [-hrdfe] if any.  The loop ends, and
    the sequence and the payload of each CADU are the octets at their place
    in the input. *)
Theorem decodeFromFile_cuts_at_fixed_distances (r : list byte) (hrdfe : bool) :
  let head := if hrdfe then 8%nat else 0%nat in
  let unit := (1024 + head)%nat in
  exists queue,
    decodeFromFile r hrdfe = Some queue /\
    length queue = (length r / unit + if (unit - 2 <=? length r mod unit) then 1 else 0)%nat /\
    forall i c, queue !! i = Some c ->
      Sequence (header c)
      = Z.shiftr (BigEndian (slice r (unit * i + head + 6) (unit * i + head + 10))) 8 /\
      Payload c = slice r (unit * i + head + 14) (unit * i + head + 1022).
Proof. apply decode_loop_frames. lia. Qed.

End Queue.

(** ** From the generator to the lister *)

Section EndToEnd.

Import Lister Listing.

Lemma lookup_head {A : Type} (x c : A) (l : list A) : (x :: l) !! 0%nat = Some c -> x = c.
Proof. intros H. now injection H. Qed.

Lemma firstn_repeat_le {A : Type} (x : A) (m n : nat) :
  (m <= n)%nat -> firstn m (repeat x n) = repeat x m.
Proof.
  revert n. induction m as [|m IH]; intros n Hn; [reflexivity|].
  destruct n as [|n]; [lia|]. cbn [repeat firstn]. f_equal. apply IH. lia.
Qed.

Lemma body_u32 i p : Generator.body (u32 i) p = Generator.body i p.
Proof.
  assert (u32 i mod Generator.MaxSequenceCounter = i mod Generator.MaxSequenceCounter) as H
    by (apply Z.mod_mod_divide; exists (2 ^ 8); reflexivity).
  unfold Generator.body. now rewrite H.
Qed.

Lemma Read_stopped (b : Builder.Builder) len_bs :
  0 < Builder.limit b <= Builder.counter b ->
  Builder.Read b len_bs = (0, [], Some Builder.EOF, b).
Proof.
  intros H. unfold Builder.Read.
  destruct (Z.gtb_spec (Builder.limit b) 0); [|lia].
  destruct (Z.geb_spec (Builder.counter b) (Builder.limit b)); [|lia]. reflexivity.
Qed.

Lemma Read_tail (b : Builder.Builder) len_bs :
  (Builder.limit b = 0 \/ Builder.counter b < Builder.limit b) ->
  1024 <= len_bs -> (length (Builder.inner b) < 1008)%nat ->
  Builder.Read b len_bs
  = (Z.of_nat (length (Builder.inner b)), [], Some Builder.EOF,
     {| Builder.inner := []; Builder.limit := Builder.limit b;
        Builder.counter := Builder.counter b |}).
Proof.
  intros Hgo Hlen Hshort. unfold Builder.Read, Builder.CopyN, Builder.CaduLen,
    Generator.DefaultLength.
  replace ((Builder.limit b >? 0) && (Builder.counter b >=? Builder.limit b)) with false
    by (symmetry; apply andb_false_iff;
        destruct (Z.gtb_spec (Builder.limit b) 0),
                 (Z.geb_spec (Builder.counter b) (Builder.limit b)); auto; lia).
  destruct (Z.ltb_spec len_bs (14 + 2 + Z.of_nat 1008)); [lia|].
  rewrite firstn_all2, drop_ge by lia.
  destruct (Nat.ltb_spec (length (Builder.inner b)) 1008); [|lia]. reflexivity.
Qed.

Lemma Read_frame (b : Builder.Builder) len_bs :
  (Builder.limit b = 0 \/ Builder.counter b < Builder.limit b) ->
  1024 <= len_bs -> (1008 <= length (Builder.inner b))%nat ->
  Builder.Read b len_bs
  = (1024, Generator.body (Builder.counter b) (firstn 1008 (Builder.inner b)), None,
     {| Builder.inner := skipn 1008 (Builder.inner b); Builder.limit := Builder.limit b;
        Builder.counter := u32 (Builder.counter b + 1) |}).
Proof.
  intros Hgo Hlen Hlong. unfold Builder.Read, Builder.CopyN, Builder.CaduLen,
    Generator.DefaultLength.
  replace ((Builder.limit b >? 0) && (Builder.counter b >=? Builder.limit b)) with false
    by (symmetry; apply andb_false_iff;
        destruct (Z.gtb_spec (Builder.limit b) 0),
                 (Z.geb_spec (Builder.counter b) (Builder.limit b)); auto; lia).
  destruct (Z.ltb_spec len_bs (14 + 2 + Z.of_nat 1008)); [lia|].
  assert (length (firstn 1008 (Builder.inner b)) = 1008%nat) as Hpay
    by (rewrite length_take; lia).
  rewrite Hpay.
  destruct (Nat.ltb_spec 1008 1008); [lia|].
  destruct (Z.ltb_spec (Z.of_nat 1008) (Z.of_nat 1008)); [lia|].
  rewrite copy_all by (rewrite length_body, Hpay; lia).
  rewrite length_body, Hpay. reflexivity.
Qed.

Lemma overwrite_head (buf f : list byte) m :
  (m <= length f)%nat -> (length f <= length buf)%nat ->
  firstn m (Reassembler.overwrite buf f) = firstn m f.
Proof.
  intros Hm Hf. unfold Reassembler.overwrite.
  rewrite (firstn_all2 f) by lia. now rewrite take_app_le by lia.
Qed.

Lemma overwrite_length (buf f : list byte) :
  (length f <= length buf)%nat -> length (Reassembler.overwrite buf f) = length buf.
Proof.
  intros Hf. unfold Reassembler.overwrite.
  rewrite (firstn_all2 f) by lia. rewrite length_app, length_drop. lia.
Qed.

Section Stream.

Variable r : list byte.
Variable lim : Z.
Hypothesis Hlim : 0 <= lim < 2 ^ 32.

#[local] Abbreviation full := (length r / 1008)%nat.
#[local] Abbreviation left_over := (length r mod 1008)%nat.
#[local] Abbreviation stopped := ((lim >? 0) && (lim <=? Z.of_nat full)).
#[local] Abbreviation frames_sent := (if stopped then Z.to_nat lim else full).
#[local] Abbreviation frame i :=
  (Generator.body (Z.of_nat i) (slice r (1008 * i) (1008 * i + 1008))).
#[local] Abbreviation stale head :=
  (if stopped || (left_over =? 0)%nat then [] else [firstn left_over head]).
#[local] Abbreviation builder_at i :=
  {| Builder.inner := skipn (1008 * i) r; Builder.limit := lim;
     Builder.counter := u32 (Z.of_nat i) |}.

Lemma Copy_loop_frames (j : nat) : forall (i : nat) (buf : list byte) (turns : nat),
  (j < turns)%nat -> length buf = Builder.copyBufLen -> (i + j)%nat = frames_sent ->
  Builder.Copy_loop turns (builder_at i) buf
  = Some (map (fun i => frame i) (seq i j)
          ++ stale (if (j =? 0)%nat then buf else frame (frames_sent - 1)),
          None).
Proof.
  pose proof (Nat.div_mod_eq (length r) 1008) as Hdm.
  pose proof (Nat.mod_upper_bound (length r) 1008 ltac:(lia)) as Hmod.
  induction j as [|j IH]; intros i buf turns Hturns Hbuf Hk;
    (destruct turns as [|turns]; [lia|]); cbn [Builder.Copy_loop].
  - rewrite Nat.add_0_r in Hk. cbn [seq map app Nat.eqb].
    destruct (Z.gtb_spec lim 0) as [Hpos|Hzero];
      [destruct (Z.leb_spec lim (Z.of_nat full)) as [Hle|Hgt]|]; cbn [andb orb] in Hk |- *.
    + rewrite Read_stopped
        by (cbn [Builder.limit Builder.counter]; unfold u32; rewrite Z.mod_small; lia).
      reflexivity.
    + rewrite Read_tail; cbn [Builder.limit Builder.counter Builder.inner];
        [|right; unfold u32; rewrite Z.mod_small; lia
         |rewrite Hbuf; unfold Builder.copyBufLen; lia
         |rewrite length_drop; lia].
      rewrite length_drop. replace (length r - 1008 * i)%nat with left_over by lia.
      unfold Reassembler.overwrite. cbn [length firstn app skipn].
      rewrite firstn_nil. cbn [app]. rewrite Nat2Z.id.
      destruct (Nat.eqb_spec left_over 0) as [Hz|Hnz].
      * rewrite Hz. reflexivity.
      * destruct (Z.ltb_spec 0 (Z.of_nat left_over)); [reflexivity|lia].
    + rewrite Read_tail; cbn [Builder.limit Builder.counter Builder.inner];
        [|left; lia
         |rewrite Hbuf; unfold Builder.copyBufLen; lia
         |rewrite length_drop; lia].
      rewrite length_drop. replace (length r - 1008 * i)%nat with left_over by lia.
      unfold Reassembler.overwrite. cbn [length firstn app skipn].
      rewrite firstn_nil. cbn [app]. rewrite Nat2Z.id.
      destruct (Nat.eqb_spec left_over 0) as [Hz|Hnz].
      * rewrite Hz. reflexivity.
      * destruct (Z.ltb_spec 0 (Z.of_nat left_over)); [reflexivity|lia].
  - assert (frames_sent <= full)%nat as Hfull.
    { destruct (Z.gtb_spec lim 0); [destruct (Z.leb_spec lim (Z.of_nat full))|];
        cbn [andb]; lia. }
    assert (lim = 0 \/ Z.of_nat i < lim) as Hgo.
    { destruct (Z.gtb_spec lim 0); [right|left; lia].
      destruct (Z.leb_spec lim (Z.of_nat full)); cbn [andb] in Hk; lia. }
    rewrite Read_frame; cbn [Builder.limit Builder.counter Builder.inner];
      [|destruct Hgo; [left; assumption|right; unfold u32; rewrite Z.mod_small; lia]
       |rewrite Hbuf; unfold Builder.copyBufLen; lia
       |rewrite length_drop; lia].
    rewrite body_u32.
    set (f := Generator.body (Z.of_nat i) (firstn 1008 (skipn (1008 * i) r))).
    assert (f = frame i) as Hf.
    { unfold f, slice. do 2 f_equal. lia. }
    assert (length f = 1024%nat) as Hlen
      by (unfold f; rewrite length_body, length_take, length_drop; lia).
    clearbody f. subst f.
    cbn [Z.ltb Z.compare].
    rewrite (overwrite_head buf _ (Z.to_nat 1024))
      by (rewrite ?Hbuf; unfold Builder.copyBufLen; lia).
    rewrite firstn_all2 by lia.
    rewrite drop_drop.
    assert (u32 (u32 (Z.of_nat i) + 1) = u32 (Z.of_nat (Datatypes.S i))) as ->.
    { unfold u32. rewrite Z.add_mod_idemp_l by lia. f_equal. lia. }
    replace (skipn (1008 * i + 1008) r) with (skipn (1008 * Datatypes.S i) r)
      by (f_equal; lia).
    rewrite (IH (Datatypes.S i) (Reassembler.overwrite buf (frame i)) turns);
      [|lia|rewrite overwrite_length; rewrite ?Hbuf; unfold Builder.copyBufLen; lia|lia].
    cbn [seq map app Nat.eqb].
    f_equal. f_equal. f_equal. f_equal.
    destruct (Nat.eqb_spec j 0) as [Hj|Hj]; [|reflexivity].
    destruct (stopped || (left_over =? 0)%nat); [reflexivity|].
    f_equal. rewrite overwrite_head by (rewrite ?Hbuf; unfold Builder.copyBufLen; lia).
    replace (frames_sent - 1)%nat with i by lia. reflexivity.
Qed.

Lemma length_concat_frames (j i : nat) :
  (j <= length (concat (map (fun i => frame i) (seq i j))))%nat.
Proof.
  revert i. induction j as [|j IH]; intros i; cbn [seq map concat]; [cbn; lia|].
  rewrite length_app, length_body. specialize (IH (Datatypes.S i)). lia.
Qed.

Lemma decode_generated (j : nat) : forall (i : nat) (tail : list byte) (turns : nat),
  (j < turns)%nat -> (1008 * (i + j) <= length r)%nat -> (length tail < 1022)%nat ->
  exists queue,
    decode_loop turns false (concat (map (fun i => frame i) (seq i j)) ++ tail) = Some queue /\
    length queue = j /\
    forall n c, queue !! n = Some c ->
      seq_of c = Z.of_nat (i + n) mod 2 ^ 24 /\
      Payload c = slice r (1008 * (i + n)) (1008 * (i + n) + 1008) /\
      Error c = None.
Proof.
  induction j as [|j IH]; intros i tail turns Hturns Hr Htail;
    (destruct turns as [|turns]; [lia|]); cbn [decode_loop seq map concat app].
  - destruct (decodeCadu_short tail Htail) as (e & -> & _).
    exists []. repeat split; discriminate.
  - rewrite <- app_assoc.
    destruct (generated_frame_decodes (Z.of_nat i) (slice r (1008 * i) (1008 * i + 1008))
                (concat (map (fun i => frame i) (seq (Datatypes.S i) j)) ++ tail))
      as [crc ->]; [rewrite length_slice; lia|].
    destruct (IH (Datatypes.S i) tail turns) as (queue & -> & Hlen & Hall); [lia|lia|lia|].
    eexists. split; [reflexivity|]. split; [cbn [length]; now rewrite Hlen|].
    intros [|n] c Hn.
    + apply lookup_head in Hn. subst c. unfold seq_of. cbn [header Sequence Payload Error].
      rewrite Nat.add_0_r. auto.
    + change (queue !! n = Some c) in Hn.
      destruct (Hall n c Hn) as (Hs & Hp & He).
      replace (i + Datatypes.S n)%nat with (Datatypes.S i + n)%nat by lia. auto.
Qed.

End Stream.

Lemma int_small z : - 2 ^ 63 <= z < 2 ^ 63 -> Reassembler.int z = z.
Proof. intros H. unfold Reassembler.int. rewrite Z.mod_small; lia. Qed.

(** A queue without a gap, a wrap or an error adds to the count of CADUs and
    to nothing else, in both listings. *)
Lemma listings_of_a_clean_queue (queue : list Cadu) : forall (first : Z) (prev : option Cadu)
    (t : tally) (g : gaps_report),
  (forall n c, queue !! n = Some c -> seq_of c = first + Z.of_nat n /\ Error c = None) ->
  0 <= first -> first + Z.of_nat (length queue) <= 2 ^ 24 ->
  (forall p, prev = Some p -> seq_of p = first - 1 /\ 0 <= seq_of p) ->
  0 <= count t -> count t + Z.of_nat (length queue) < 2 ^ 63 ->
  - 2 ^ 63 <= missing t < 2 ^ 63 ->
  0 <= seen g -> seen g + Z.of_nat (length queue) < 2 ^ 63 ->
  printCadus_loop prev t queue
  = {| count := count t + Z.of_nat (length queue); missing := missing t;
       corrupted := corrupted t |} /\
  printGaps_loop prev g queue
  = Some {| lines := lines g; gaps := gaps g;
            seen := seen g + Z.of_nat (length queue) |}.
Proof.
  induction queue as [|c queue IH]; intros first prev t g Hall Hfirst Hlast Hprev Hc0 Hc1 Hm
    Hs0 Hs1.
  - cbn [printCadus_loop printGaps_loop length Z.of_nat]. rewrite !Z.add_0_r.
    destruct t, g. auto.
  - cbn [length] in Hlast, Hc1, Hs1. cbn [printCadus_loop printGaps_loop length].
    destruct (Hall 0%nat c eq_refl) as [Hseq Herr]. rewrite Z.add_0_r in Hseq.
    assert (Missing c prev = 0) as ->.
    { destruct prev as [p|]; [|now simp Missing].
      destruct (Hprev p eq_refl) as [Hp Hp0].
      rewrite Missing_distance by lia.
      replace (Z.abs (seq_of c - seq_of p)) with 1 by lia. reflexivity. }
    rewrite Herr. cbn [Z.eqb negb].
    rewrite Z.add_0_r, (int_small (missing t)), (int_small (count t + 1)),
      (int_small (seen g + 1)) by lia.
    destruct (IH (first + 1) (Some c)
                {| count := count t + 1; missing := missing t; corrupted := corrupted t |}
                {| lines := lines g; gaps := gaps g; seen := seen g + 1 |})
      as [-> ->]; cbn [count missing corrupted lines gaps seen]; try lia.
    + intros n c' Hn. destruct (Hall (Datatypes.S n) c' Hn). split; [lia|assumption].
    + intros p [= <-]. lia.
    + replace (Z.of_nat (Datatypes.S (length queue))) with (1 + Z.of_nat (length queue))
        by lia.
      now rewrite !Z.add_assoc.
Qed.

Lemma main_writes (r : list byte) (c : Z) :
  let full := (length r / 1008)%nat in
  let left_over := (length r mod 1008)%nat in
  let stopped := (u32 c >? 0) && (u32 c <=? Z.of_nat full) in
  let sent := if stopped then Z.to_nat (u32 c) else full in
  let frame i := Generator.body (Z.of_nat i) (slice r (1008 * i) (1008 * i + 1008)) in
  Builder.Copy (Builder.Build r c)
  = Some (map frame (seq 0 sent)
          ++ (if stopped || (left_over =? 0)%nat then []
              else [if (sent =? 0)%nat then repeat x00 left_over
                    else firstn left_over (frame (sent - 1)%nat)]),
          None).
Proof.
  intros full left_over stopped sent frame.
  assert (0 <= u32 c < 2 ^ 32) as Hlim by (apply Z.mod_pos_bound; lia).
  pose proof (Nat.Div0.div_le_upper_bound (length r) 1008 (length r) ltac:(lia)) as Hfull.
  assert (sent <= length r)%nat as Hsent.
  { unfold sent, stopped. fold full in Hfull.
    destruct (Z.gtb_spec (u32 c) 0); [destruct (Z.leb_spec (u32 c) (Z.of_nat full))|];
      cbn [andb]; lia. }
  unfold Builder.Copy, Builder.Build. cbn [Builder.inner].
  pose proof (Copy_loop_frames r (u32 c) Hlim sent 0 (repeat x00 Builder.copyBufLen)
                (Datatypes.S (length r)) ltac:(lia) (repeat_length _ _) eq_refl) as H.
  rewrite drop_0 in H. change (u32 (Z.of_nat 0)) with 0 in H. rewrite H.
  fold full left_over stopped sent.
  apply f_equal, (f_equal2 pair); [|reflexivity].
  apply (f_equal (app (map frame (seq 0 sent)))).
  destruct (stopped || (left_over =? 0)%nat); [reflexivity|].
  destruct (Nat.eqb_spec sent 0); [|reflexivity].
  unfold Builder.copyBufLen.
  pose proof (Nat.mod_upper_bound (length r) 1008 ltac:(lia)).
  apply (f_equal (fun x => [x])), firstn_repeat_le. fold left_over. lia.
Qed.

(** X29. What [main] of the generator writes for a file of [r] octets and the
    count [c]: a frame of 1024 octets for each 1008 octets of the file, in
    order, numbered from 0, up to [c] frames if [c] is not 0.  When the file
    does not end on a multiple of 1008 and the count has not stopped the
    loop, one more slice is written, which has as many octets as are left
    over but none of them: [Read] returns their number with [EOF] and an
    untouched buffer, and [io.Copy] writes the buffer, which holds the
    beginning of the frame before, or zeros.  No error is reported. *)
Theorem main_writes_frames_then_stale_octets (r : list byte) (c : Z) :
  let full := (length r / 1008)%nat in
  let left_over := (length r mod 1008)%nat in
  let stopped := (u32 c >? 0) && (u32 c <=? Z.of_nat full) in
  let sent := if stopped then Z.to_nat (u32 c) else full in
  let frame i := Generator.body (Z.of_nat i) (slice r (1008 * i) (1008 * i + 1008)) in
  Builder.Copy (Builder.Build r c)
  = Some (map frame (seq 0 sent)
          ++ (if stopped || (left_over =? 0)%nat then []
              else [if (sent =? 0)%nat then repeat x00 left_over
                    else firstn left_over (frame (sent - 1)%nat)]),
          None).
Proof. apply main_writes. Qed.

(** X30. The lister reads back what the generator writes, as long as the
    sequence does not wrap: it finds one CADU for each frame, with the number
    of the frame as its sequence, the 1008 octets of the file as its payload
    and no checksum error; the stale octets at the end make no CADU.  Its list
    ends with that count of CADUs, none missing, none corrupted, and its gaps
    mode logs no gap. *)
Theorem lister_reads_back_the_generator (r : list byte) (c : Z) :
  let full := (length r / 1008)%nat in
  let stopped := (u32 c >? 0) && (u32 c <=? Z.of_nat full) in
  let sent := if stopped then Z.to_nat (u32 c) else full in
  Z.of_nat sent <= 2 ^ 24 ->
  exists writes queue,
    Builder.Copy (Builder.Build r c) = Some (writes, None) /\
    decodeFromFile (concat writes) false = Some queue /\
    length queue = sent /\
    (forall n cadu, queue !! n = Some cadu ->
       seq_of cadu = Z.of_nat n /\
       Payload cadu = slice r (1008 * n) (1008 * n + 1008) /\
       Error cadu = None) /\
    printCadus queue = {| count := Z.of_nat sent; missing := 0; corrupted := 0 |} /\
    printGaps queue = Some {| lines := []; gaps := 0; seen := Z.of_nat sent |}.
Proof.
  intros full stopped sent Hwrap.
  pose proof (Nat.mod_upper_bound (length r) 1008 ltac:(lia)) as Hmod.
  pose proof (Nat.div_mod_eq (length r) 1008) as Hdm. fold full in Hdm.
  assert (sent <= full)%nat as Hsent.
  { unfold sent, stopped.
    destruct (Z.gtb_spec (u32 c) 0); [destruct (Z.leb_spec (u32 c) (Z.of_nat full))|];
      cbn [andb]; lia. }
  eexists. 
  pose proof (main_writes r c) as Hcopy. cbv zeta in Hcopy.
  fold full stopped sent in Hcopy.
  set (tail := if stopped || (length r mod 1008 =? 0)%nat then []
               else [if (sent =? 0)%nat then repeat x00 (length r mod 1008)
                     else firstn (length r mod 1008)
                            (Generator.body (Z.of_nat (sent - 1))
                               (slice r (1008 * (sent - 1)) (1008 * (sent - 1) + 1008)))])
    in Hcopy.
  assert (length (concat tail) < 1022)%nat as Htail.
  { unfold tail. destruct (stopped || _); [cbn; lia|].
    cbn [concat]. rewrite app_nil_r.
    destruct (sent =? 0)%nat; [rewrite repeat_length|rewrite length_take]; lia. }
  destruct (decode_generated r sent 0 (concat tail)
              (Datatypes.S (length (concat (map (fun i => Generator.body (Z.of_nat i)
                                                   (slice r (1008 * i) (1008 * i + 1008)))
                                                (seq 0 sent) ++ tail))))
              ltac:(rewrite concat_app, length_app;
                    pose proof (length_concat_frames r sent 0); lia)
              ltac:(lia) Htail) as (queue & Hdec & Hlen & Hall).
  exists queue. split; [exact Hcopy|].
  split; [unfold decodeFromFile; rewrite <- concat_app in Hdec; exact Hdec|].
  split; [exact Hlen|].
  assert (forall n cadu, queue !! n = Some cadu ->
            seq_of cadu = Z.of_nat n /\
            Payload cadu = slice r (1008 * n) (1008 * n + 1008) /\ Error cadu = None) as Hq.
  { intros n cadu Hn. destruct (Hall n cadu Hn) as (Hs & Hp & He).
    pose proof (lookup_lt_Some _ _ _ Hn). cbn [Nat.add] in Hs, Hp.
    rewrite Z.mod_small in Hs by lia. auto. }
  split; [exact Hq|].
  destruct (listings_of_a_clean_queue queue 0 None
              {| count := 0; missing := 0; corrupted := 0 |}
              {| lines := []; gaps := 0; seen := 0 |}) as [Hc Hg];
    cbn [count missing corrupted lines gaps seen]; try lia; try discriminate.
  - intros n cadu Hn. destruct (Hq n cadu Hn) as (Hs & _ & He). split; [lia|assumption].
  - unfold printCadus, printGaps. rewrite Hc, Hg, Hlen. split; reflexivity.
Qed.

Lemma lister_reads_back_the_generator_witness :
  exists writes queue,
    Builder.Copy (Builder.Build (repeat x2a 2100) 0) = Some (writes, None) /\
    decodeFromFile (concat writes) false = Some queue /\
    length queue = 2%nat /\
    (forall n cadu, queue !! n = Some cadu ->
       seq_of cadu = Z.of_nat n /\
       Payload cadu = slice (repeat x2a 2100) (1008 * n) (1008 * n + 1008) /\
       Error cadu = None) /\
    printCadus queue = {| count := 2; missing := 0; corrupted := 0 |} /\
    printGaps queue = Some {| lines := []; gaps := 0; seen := 2 |}.
Proof.
  apply (lister_reads_back_the_generator (repeat x2a 2100) 0).
  vm_compute. discriminate.
Defined.

End EndToEnd.
